(** * Filters.js: colours, pixel views, histograms and filters

    A shallow embedding of [src/Filters.js] and the properties of its
    specification.

    Conventions of the embedding.
    - A JavaScript number is a [num]: either a finite value, kept as an exact
      rational in lowest terms ([Qc]), or [NaN].  The value [undefined] of a
      channel that was never assigned behaves as [NaN] in every arithmetic
      operation and comparison of this program and is represented by it.
      Binary rounding of doubles, infinities and signed zero are outside the
      model: arithmetic is exact.  Where the code rounds a sum, a product or
      a quotient, its result may differ from the model's in the last binary
      digit; a property that depends on such a result is stated where the
      arithmetic of doubles is exact (on integers up to 2^53), or leaves room
      for that difference.
    - Coordinates, widths, heights and loop counters are integers ([Z]).
    - [Color] objects are mutable and shared by reference: they live in a
      store and a view holds references to them.  Views are objects of the
      same store, so that a source and a destination may be one object.
    - A method either returns or throws; the store reached is kept in both
      cases.
    - The optional diagnostic callbacks ([progress], [log], [warn], [error])
      are [null], as the [Filters] constructor leaves them. *)

From Stdlib Require Import ZArith QArith Qcanon Qround Lia Lqa String Ascii.
From stdpp Require Import base option list numbers.

Local Open Scope Z_scope.

(** ** Numbers *)

Inductive num : Type :=
  | Fin (q : Qc)
  | NaN.

Definition ofQ (q : Q) : num := Fin (Q2Qc q).
Definition ofZ (z : Z) : num := ofQ (inject_Z z).

Definition lift2 (f : Qc -> Qc -> Qc) (x y : num) : num :=
  match x, y with
  | Fin p, Fin q => Fin (f p q)
  | _, _ => NaN
  end.

Definition nadd : num -> num -> num := lift2 Qcplus.
Definition nsub : num -> num -> num := lift2 Qcminus.
Definition nmul : num -> num -> num := lift2 Qcmult.

Definition Qc_is_zero (q : Qc) : bool := Qeq_bool (this q) 0.

(** Division; a zero divisor would give an infinity (or NaN), which the
    model does not represent. *)
Definition ndiv (x y : num) : num :=
  match x, y with
  | Fin p, Fin q => if Qc_is_zero q then NaN else Fin (p / q)%Qc
  | _, _ => NaN
  end.

(** [x < y] and [x > y]: false as soon as one side is NaN. *)
Definition nlt (x y : num) : bool :=
  match x, y with
  | Fin p, Fin q => negb (Qle_bool (this q) (this p))
  | _, _ => false
  end.
Definition ngt (x y : num) : bool := nlt y x.

(** Truthiness of a number: [0] and [NaN] are falsy. *)
Definition truthy (x : num) : bool :=
  match x with
  | Fin q => negb (Qc_is_zero q)
  | NaN => false
  end.

Definition Qc_floor (q : Qc) : Z := Qfloor (this q).
Definition Qc_ceil (q : Qc) : Z := Qceiling (this q).
(** [Math.round]: the nearest integer, a tie going up. *)
Definition Qc_round (q : Qc) : Z := Qfloor (this q + (1 # 2)).

Definition Math_round (x : num) : num :=
  match x with Fin q => ofZ (Qc_round q) | NaN => NaN end.

(** The remainder operator [%] on finite numbers: the result takes the sign of
    the dividend. *)
Definition Qc_trunc (q : Qc) : Z :=
  if Qle_bool 0 (this q) then Qc_floor q else Qc_ceil q.
Definition nmod (x y : num) : num :=
  match x, y with
  | Fin p, Fin q =>
      if Qc_is_zero q then NaN
      else Fin (p - q * Q2Qc (inject_Z (Qc_trunc (p / q))))%Qc
  | _, _ => NaN
  end.

(** The integer a number denotes, when it denotes one. *)
Definition toZ (x : num) : option Z :=
  match x with
  | Fin q => if Qeq_bool (this q) (inject_Z (Qc_floor q)) then Some (Qc_floor q) else None
  | NaN => None
  end.

Definition num_eqb (x y : num) : bool :=
  match x, y with
  | Fin p, Fin q => Qeq_bool (this p) (this q)
  | NaN, NaN => true
  | _, _ => false
  end.

(** ** Free functions *)

(** The sum and the difference are exact here; the code rounds them, which
    shows on fractions ([0.1 + 0.2] exceeds [0.3]) and not on integers. *)
Definition isKindaSortaEqual (inValue1 inValue2 inTolerance : num) : bool :=
  if ngt inValue1 (nadd inValue2 inTolerance) then false
  else if nlt inValue1 (nsub inValue2 inTolerance) then false
  else true.

Definition xlate255ColorToNormalizedColor (in255Color : num) : num :=
  let in255Color := if nlt (ofZ 255) in255Color then ofZ 255 else in255Color in
  let f255Color := nmul in255Color (ofZ 1) in
  ndiv f255Color (ofZ 255).

Definition xlateNormalizedColorTo255Color (inNormalizedColor : num) : num :=
  let x := if ngt (ofZ 0) inNormalizedColor then ofZ 0 else inNormalizedColor in
  let x := if nlt (ofZ 1) x then ofZ 1 else x in
  Math_round (nmul x (ofZ 255)).

(** ** Color *)

Module Color.

Record t : Type := mk {
  r : num;
  g : num;
  b : num;
  a : num;
  transparent : bool;
  normalized : bool
}.

(** [new Color(r, g, b, a)]: the flag [transparent] defaults to false. *)
Definition new (inRed inGreen inBlue inAlpha : num) : t :=
  mk inRed inGreen inBlue inAlpha false false.

(** [new Color()]: the three channels are undefined, alpha defaults to 1. *)
Definition new0 : t := mk NaN NaN NaN (ofZ 1) false false.

Definition isEqual (this inColor : t) (inTolerance : num) : bool :=
  let tolerance := if truthy inTolerance then inTolerance else ofZ 0 in
  if negb (isKindaSortaEqual (r this) (r inColor) tolerance) then false
  else if negb (isKindaSortaEqual (g this) (g inColor) tolerance) then false
  else if negb (isKindaSortaEqual (b this) (b inColor) tolerance) then false
  else if negb (isKindaSortaEqual (a this) (a inColor) tolerance) then false
  else if negb (Bool.eqb (transparent this) (transparent inColor)) then false
  else true.

Definition invert (this : t) : t :=
  mk (nsub (ofZ 255) (r this)) (nsub (ofZ 255) (g this)) (nsub (ofZ 255) (b this))
     (a this) (transparent this) (normalized this).

Definition grayscale (this : t) : t :=
  let fLuminance := nmul (r this) (ofQ (299 # 1000)) in
  let fLuminance := nadd fLuminance (nmul (g this) (ofQ (587 # 1000))) in
  let fLuminance := nadd fLuminance (nmul (b this) (ofQ (114 # 1000))) in
  let fLuminance := if normalized this then fLuminance else Math_round fLuminance in
  mk fLuminance fLuminance fLuminance (a this) (transparent this) (normalized this).

Inductive blendOperation : Type := CROSS | ADDITIVE | ADDITIVE_ALPHA | MULTIPLIED.

Definition clamp (this : t) : t :=
  let max := if normalized this then ofZ 1 else ofZ 255 in
  let lo (v : num) := if nlt v (ofZ 0) then ofZ 0 else v in
  let r1 := lo (r this) in
  let g1 := lo (g this) in
  let b1 := lo (b this) in
  let a1 := lo (a this) in
  let hi (m v : num) := if ngt v m then m else v in
  mk (hi max r1) (hi max g1) (hi max b1) (hi (ofZ 1) a1)
     (transparent this) (normalized this).

Definition assignNumber (this : t) (inNumber : num) : t :=
  mk inNumber inNumber inNumber inNumber (transparent this) (normalized this).

Definition multiplyNumber (this : t) (inNumber : num) : t :=
  mk (nmul (r this) inNumber) (nmul (g this) inNumber) (nmul (b this) inNumber)
     (nmul (a this) inNumber) (transparent this) (normalized this).

Definition addColor (this inColor : t) : t :=
  mk (nadd (r this) (r inColor)) (nadd (g this) (g inColor))
     (nadd (b this) (b inColor)) (nadd (a this) (a inColor))
     (transparent this) (normalized this).

(** A new colour; the receiver is not changed. *)
Definition getNormalizedColor (this : t) : t :=
  if negb (normalized this) then
    mk (xlate255ColorToNormalizedColor (r this))
       (xlate255ColorToNormalizedColor (g this))
       (xlate255ColorToNormalizedColor (b this))
       (a this) false true
  else mk (r this) (g this) (b this) (a this) false true.

Definition get255Color (this : t) : t :=
  if negb (normalized this) then
    mk (r this) (g this) (b this) (a this) false false
  else
    mk (xlateNormalizedColorTo255Color (r this))
       (xlateNormalizedColorTo255Color (g this))
       (xlateNormalizedColorTo255Color (b this))
       (a this) false false.

Definition blend (this inSourceColor : t) (inBlendOperation : blendOperation) : t :=
  let normalizedSource := getNormalizedColor inSourceColor in
  let normalizedThis := getNormalizedColor this in
  let sa := a normalizedSource in
  let one := ofZ 1 in
  let mix (d s : num) : num :=
    match inBlendOperation with
    | CROSS => nadd (nmul d (nsub one sa)) (nmul s sa)
    | ADDITIVE => nadd d s
    | ADDITIVE_ALPHA => nadd d (nmul s sa)
    | MULTIPLIED => nmul d s
    end in
  let top (v : num) := if nlt one v then one else v in
  let nr := top (mix (r normalizedThis) (r normalizedSource)) in
  let ng := top (mix (g normalizedThis) (g normalizedSource)) in
  let nb := top (mix (b normalizedThis) (b normalizedSource)) in
  let na := top (mix (a normalizedThis) (a normalizedSource)) in
  mk (xlateNormalizedColorTo255Color nr)
     (xlateNormalizedColorTo255Color ng)
     (xlateNormalizedColorTo255Color nb)
     na (transparent this) (normalized this).

Definition eqb (c d : t) : bool :=
  num_eqb (r c) (r d) && num_eqb (g c) (g d) && num_eqb (b c) (b d)
  && num_eqb (a c) (a d) && Bool.eqb (transparent c) (transparent d)
  && Bool.eqb (normalized c) (normalized d).

End Color.

(** ** The store of objects, and computations over it *)

Definition loc := nat.

Module MinimalView.

(** [colors] is the array of rows: [colors[y][x]] is a reference to a
    [Color].  [backgroundColor] is the property that [translate] and
    [rotate] assign; it is undefined until then. *)
Record t : Type := mk {
  width : Z;
  height : Z;
  colors : list (list loc);
  backgroundColor : option loc
}.

End MinimalView.

Record Store : Type := mkStore {
  heap : list Color.t;
  views : list MinimalView.t
}.

Inductive Error : Type :=
  | TypeError   (* a property of [null] or [undefined] was read *)
  | BadRef.     (* a reference that the store does not hold *)

Inductive Res (A : Type) : Type :=
  | Ret (v : A) (s : Store)
  | Exn (e : Error) (s : Store).
Arguments Ret {A} v s.
Arguments Exn {A} e s.

Definition M (A : Type) : Type := Store -> Res A.

Definition ret {A} (v : A) : M A := fun s => Ret v s.
Definition bind {A B} (m : M A) (k : A -> M B) : M B :=
  fun s => match m s with
           | Ret v s' => k v s'
           | Exn e s' => Exn e s'
           end.
Definition throw {A} (e : Error) : M A := fun s => Exn e s.

Notation "'do' x <- m ; k" := (bind m (fun x => k))
  (at level 10, x name, m at level 100, k at level 200).
Notation "m ;; k" := (bind m (fun _ => k))
  (at level 100, k at level 200, right associativity).

(** The store a computation ends in, whether it returned or threw. *)
Definition final {A} (x : Res A) : Store :=
  match x with Ret _ s => s | Exn _ s => s end.

Definition result {A} (x : Res A) : option A :=
  match x with Ret v _ => Some v | Exn _ _ => None end.

(** [for (i = from; i < from + len; i++) body] *)
Fixpoint forEach {A} (l : list A) (body : A -> M unit) : M unit :=
  match l with
  | [] => ret tt
  | i :: l' => body i ;; forEach l' body
  end.

Definition get : M Store := fun s => Ret s s.
Definition put (s : Store) : M unit := fun _ => Ret tt s.

(** [new Color(...)]: a fresh object. *)
Definition alloc (c : Color.t) : M loc :=
  fun s => Ret (length (heap s)) (mkStore (heap s ++ [c]) (views s)).

Definition read (l : loc) : M Color.t :=
  fun s => match heap s !! l with
           | Some c => Ret c s
           | None => Exn BadRef s
           end.

(** A method that changes its receiver in place. *)
Definition update (l : loc) (f : Color.t -> Color.t) : M unit :=
  fun s => match heap s !! l with
           | Some c => Ret tt (mkStore (<[l := f c]> (heap s)) (views s))
           | None => Exn BadRef s
           end.

(** Reading a property of a value that may be [null]. *)
Definition deref (o : option loc) : M Color.t :=
  match o with
  | Some l => read l
  | None => throw TypeError
  end.

Definition view (v : nat) : M MinimalView.t :=
  fun s => match views s !! v with
           | Some w => Ret w s
           | None => Exn BadRef s
           end.

Definition setView (v : nat) (w : MinimalView.t) : M unit :=
  fun s => Ret tt (mkStore (heap s) (<[v := w]> (views s))).

(** ** MinimalView methods *)

Definition rows_get (colors : list (list loc)) (inX inY : Z) : option loc :=
  if (0 >? inX) || (0 >? inY) || (inY >=? Z.of_nat (length colors)) then None
  else match colors !! Z.to_nat inY with
       | None => None
       | Some row =>
           if inX >=? Z.of_nat (length row) then None else row !! Z.to_nat inX
       end.

Definition rows_set (colors : list (list loc)) (inX inY : Z) (l : loc)
  : list (list loc) :=
  if (0 >? inX) || (0 >? inY) || (inY >=? Z.of_nat (length colors)) then colors
  else match colors !! Z.to_nat inY with
       | None => colors
       | Some row =>
           if inX >=? Z.of_nat (length row) then colors
           else <[Z.to_nat inY := <[Z.to_nat inX := l]> row]> colors
       end.

Definition getWidth (v : nat) : M Z :=
  do w <- view v; ret (MinimalView.width w).

Definition getHeight (v : nat) : M Z :=
  do w <- view v; ret (MinimalView.height w).

(** [null] outside the array of colours. *)
Definition getColor (v : nat) (inX inY : Z) : M (option loc) :=
  do w <- view v; ret (rows_get (MinimalView.colors w) inX inY).

(** No effect when the colour is [null] or [undefined], or outside the array. *)
Definition setColor (v : nat) (inX inY : Z) (inColor : option loc) : M unit :=
  match inColor with
  | None => ret tt
  | Some l =>
      do w <- view v;
      setView v (MinimalView.mk (MinimalView.width w) (MinimalView.height w)
                   (rows_set (MinimalView.colors w) inX inY l)
                   (MinimalView.backgroundColor w))
  end.

Definition setBackgroundColor (v : nat) (c : option loc) : M unit :=
  do w <- view v;
  setView v (MinimalView.mk (MinimalView.width w) (MinimalView.height w)
               (MinimalView.colors w) c).

Definition fill (v : nat) (inColor : option loc) : M unit :=
  do w <- getWidth v;
  forEach (seqZ 0 w) (fun xLoop =>
    do h <- getHeight v;
    forEach (seqZ 0 h) (fun yLoop =>
      setColor v xLoop yLoop inColor)).

(** [new MinimalView(inWidth, inHeight)]: [inHeight] rows of [inWidth]
    colours, each a fresh [Color(0, 0, 0, 0)]. *)
Fixpoint newRow (n : nat) : M (list loc) :=
  match n with
  | O => ret []
  | S n' =>
      do l <- alloc (Color.new (ofZ 0) (ofZ 0) (ofZ 0) (ofZ 0));
      do row <- newRow n';
      ret (l :: row)
  end.

Fixpoint newRows (n : nat) (inWidth : Z) : M (list (list loc)) :=
  match n with
  | O => ret []
  | S n' =>
      do row <- newRow (Z.to_nat inWidth);
      do rows <- newRows n' inWidth;
      ret (row :: rows)
  end.

Definition newMinimalView (inWidth inHeight : Z) : M nat :=
  do rows <- newRows (Z.to_nat inHeight) inWidth;
  do s <- get;
  put (mkStore (heap s) (views s ++ [MinimalView.mk inWidth inHeight rows None]));;
  ret (length (views s)).

(** The colour a view shows at a coordinate: the object its cell refers to. *)
Definition pixel (s : Store) (v : nat) (x y : Z) : option Color.t :=
  match views s !! v with
  | Some w =>
      match rows_get (MinimalView.colors w) x y with
      | Some l => heap s !! l
      | None => None
      end
  | None => None
  end.

Definition emptyStore : Store := mkStore [] [].

(** ** Strings and the conversions between numbers and strings *)

(** [s.split(sep)] for a separator of one character. *)
Fixpoint split (sep : ascii) (s : string) : list string :=
  match s with
  | EmptyString => [EmptyString]
  | String c s' =>
      if Ascii.eqb c sep then EmptyString :: split sep s'
      else match split sep s' with
           | h :: t => String c h :: t
           | [] => [String c EmptyString]
           end
  end.

(** [s.split('')]: the characters of [s]. *)
Fixpoint split_chars (s : string) : list string :=
  match s with
  | EmptyString => []
  | String c s' => String c EmptyString :: split_chars s'
  end.

(** [new Array(n).join(sep)]: [n] empty elements joined by [sep]. *)
Definition join_empty (n : nat) (sep : string) : string :=
  String.concat sep (replicate n EmptyString).

Definition is_digit (c : ascii) : bool :=
  let n := Z.of_nat (nat_of_ascii c) in (48 <=? n) && (n <=? 57).
Definition digit_val (c : ascii) : Z := Z.of_nat (nat_of_ascii c) - 48.
Definition digit_chars : list ascii :=
  ["0"; "1"; "2"; "3"; "4"; "5"; "6"; "7"; "8"; "9"]%char.
Definition digit_char (d : Z) : ascii := nth (Z.to_nat d) digit_chars "9"%char.

Definition is_space (c : ascii) : bool :=
  let n := Z.of_nat (nat_of_ascii c) in ((9 <=? n) && (n <=? 13)) || (n =? 32).

Fixpoint trimStart (s : string) : string :=
  match s with
  | String c s' => if is_space c then trimStart s' else s
  | EmptyString => s
  end.

(** Reads the longest prefix of decimal digits of [s], continuing the number
    [acc]: the number read, how many digits it took, and the rest of [s]. *)
Fixpoint eat_digits (s : string) (acc : Z) (count : nat) : Z * nat * string :=
  match s with
  | String c s' =>
      if is_digit c then eat_digits s' (acc * 10 + digit_val c) (S count)
      else (acc, count, s)
  | EmptyString => (acc, count, s)
  end.

(** An optional sign: [-1] or [1], and the rest. *)
Definition eat_sign (s : string) : Z * string :=
  match s with
  | String "-"%char s' => (-1, s')
  | String "+"%char s' => (1, s')
  | _ => (1, s)
  end.

(** [parseInt(s)] in base ten: leading white space, an optional sign and the
    longest run of digits; [NaN] without a digit.  The hexadecimal prefix is
    not modelled. *)
Definition parseInt (s : string) : num :=
  let '(sign, s1) := eat_sign (trimStart s) in
  let '(n, count, _) := eat_digits s1 0 O in
  match count with
  | O => NaN
  | S _ => ofZ (sign * n)
  end.

(** The exponent part [e±dd] of a decimal literal, [0] when there is none. *)
Definition eat_exponent (s : string) : Z :=
  match s with
  | String c s' =>
      if Ascii.eqb c "e"%char || Ascii.eqb c "E"%char then
        let '(sign, s2) := eat_sign s' in
        let '(e, count, _) := eat_digits s2 0 O in
        match count with O => 0 | S _ => sign * e end
      else 0
  | EmptyString => 0
  end.

Definition pow10 (e : Z) : Qc :=
  if 0 <=? e then Q2Qc (inject_Z (10 ^ e)) else (/ Q2Qc (inject_Z (10 ^ (- e))))%Qc.

(** [parseFloat(s)]: leading white space, an optional sign, digits with an
    optional fraction and exponent; [NaN] without a digit.  The literal
    [Infinity] is not modelled. *)
Definition parseFloat (s : string) : num :=
  let '(sign, s1) := eat_sign (trimStart s) in
  let '(n, count1, s2) := eat_digits s1 0 O in
  let '(m, count2, s3) :=
    match s2 with
    | String "."%char s2' => eat_digits s2' n O
    | _ => (n, O, s2)
    end in
  match (count1 + count2)%nat with
  | O => NaN
  | S _ =>
      Fin (Q2Qc (inject_Z (sign * m)) * pow10 (eat_exponent s3 - Z.of_nat count2))%Qc
  end.

(** The decimal digits of a natural number, most significant first, in front
    of [tail]. *)
Fixpoint digits_before (fuel : nat) (n : Z) (tail : string) : string :=
  match fuel with
  | O => tail
  | S fuel' =>
      let tail' := String (digit_char (n mod 10)) tail in
      if n <? 10 then tail' else digits_before fuel' (n / 10) tail'
  end.

Definition decimal (n : Z) : string :=
  digits_before (S (Z.to_nat (Z.log2 n))) n EmptyString.

(** The digits after the decimal point of [rem / den], at most [fuel] of
    them. *)
Fixpoint fraction_digits (fuel : nat) (rem den : Z) : string :=
  match fuel with
  | O => EmptyString
  | S fuel' =>
      if rem =? 0 then EmptyString
      else String (digit_char (rem * 10 / den))
                  (fraction_digits fuel' ((rem * 10) mod den) den)
  end.

(** [s] without the zeros at its end. *)
Fixpoint dropZeros (s : string) : string :=
  match s with
  | EmptyString => EmptyString
  | String c s' =>
      match dropZeros s' with
      | EmptyString => if Ascii.eqb c "0" then EmptyString else String c EmptyString
      | t => String c t
      end
  end.

(** The exponent notation of an integer [m] from 1e21 up: the first digit,
    after a point the other digits without the zeros at the end, and the
    exponent, as in [1e+21] and [1.5e+21]. *)
Definition exponential (m : Z) : string :=
  match decimal m with
  | EmptyString => EmptyString
  | String c rest =>
      let mantissa :=
        match dropZeros rest with
        | EmptyString => String c EmptyString
        | t => String c (String "." t)
        end in
      String.append mantissa
        (String.append "e+" (decimal (Z.of_nat (String.length rest))))
  end.

(** The longest fraction a finite double has: every double is a multiple of
    2^-1074, so that its decimal expansion ends within 1074 digits. *)
Definition maxFraction : nat := 1074.

(** The string of a number, as [x + ""] gives it.  An integer below 1e21
    prints its digits, an integer from 1e21 up prints in exponent notation,
    and another number prints its integer part and, after a point, its
    fraction: all of it when the expansion ends within [maxFraction] digits,
    as it does for every double, and cut there otherwise.

    Two departures from JavaScript, which leave the number that [parseFloat]
    reads back from the string of a double, and the number that [parseInt]
    reads back from the string of an integer, as they are.  JavaScript prints
    the shortest digits that read back as the same double, the model prints
    all the digits of the value.  JavaScript uses the exponent notation below
    1e-6 too, the model does not. *)
Definition numToString (x : num) : string :=
  match x with
  | NaN => "NaN"%string
  | Fin q =>
      let n := Qnum (this q) in
      let d := Z.pos (Qden (this q)) in
      let m := Z.abs n in
      let sign := if n <? 0 then "-"%string else ""%string in
      if (d =? 1) && (10 ^ 21 <=? m) then String.append sign (exponential m)
      else
        let fraction :=
          if m mod d =? 0 then ""%string
          else String.append "." (fraction_digits maxFraction (m mod d) d) in
        String.append sign (String.append (decimal (m / d)) fraction)
  end.

Definition Math_floor (x : num) : num :=
  match x with Fin q => ofZ (Qc_floor q) | NaN => NaN end.
Definition Math_ceil (x : num) : num :=
  match x with Fin q => ofZ (Qc_ceil q) | NaN => NaN end.

(** A loop that carries local variables from one iteration to the next. *)
Fixpoint foldM {A S} (l : list A) (acc : S) (body : S -> A -> M S) : M S :=
  match l with
  | [] => ret acc
  | i :: l' => do acc' <- body acc i; foldM l' acc' body
  end.

(** [getColor] at coordinates computed as numbers.  The result [None] is the
    absence of a colour, which every caller tests with [!colour] or
    [null == colour]: it stands for [null] and, where a coordinate is [NaN]
    or not an integer and the array has no such element, for [undefined]. *)
Definition getColorAt (v : nat) (inX inY : num) : M (option loc) :=
  match toZ inX, toZ inY with
  | Some x, Some y => getColor v x y
  | _, _ => ret None
  end.

(** ** The string methods of Color

    They rest on the conversions between numbers and strings above. *)

Module ColorStrings.

Local Notation "a +++ b" := (String.append a b) (at level 60, right associativity).

(** [s.replace(/c/g, "")] for a character [c]: every occurrence is removed. *)
Fixpoint removeAll (c : ascii) (s : string) : string :=
  match s with
  | EmptyString => EmptyString
  | String x s' => if Ascii.eqb x c then removeAll c s' else String x (removeAll c s')
  end.

(** [s] without its first [n] characters. *)
Fixpoint dropChars (n : nat) (s : string) : string :=
  match n, s with
  | S n', String _ s' => dropChars n' s'
  | _, _ => s
  end.

(** [s.replace(/pat/, "")] for a literal pattern that is not empty: the first
    occurrence is removed. *)
Fixpoint removeFirst (pat : string) (s : string) : string :=
  match s with
  | EmptyString => EmptyString
  | String x s' =>
      if String.prefix pat s then dropChars (String.length pat) s
      else String x (removeFirst pat s')
  end.

(** [a[i]] as [parseInt] and [parseFloat] read it: an element that is missing
    is [undefined], which they convert to a string with no digit. *)
Definition element (a : list string) (i : nat) : string := nth i a "undefined"%string.

Definition toString (this : Color.t) : string :=
  if Color.transparent this then "transparent"%string
  else "rgb(" +++ numToString (Color.r this) +++ ", " +++ numToString (Color.g this)
       +++ ", " +++ numToString (Color.b this) +++ ")".

Definition toStringWithAlpha (this : Color.t) : string :=
  "rgba(" +++ numToString (Color.r this) +++ ", " +++ numToString (Color.g this)
  +++ ", " +++ numToString (Color.b this) +++ ", " +++ numToString (Color.a this) +++ ")".



Definition fromString (this : Color.t) (inColorString : string) : Color.t :=
  if String.eqb "transparent" inColorString then
    Color.mk (ofZ 0) (ofZ 0) (ofZ 0) (ofZ 0) true (Color.normalized this)
  else
    let strColor := removeFirst "rgb(" inColorString in
    let strColor := removeAll ")" strColor in
    let strColor := removeAll " " strColor in
    let aRGB := split "," strColor in
    Color.mk (parseInt (element aRGB 0)) (parseInt (element aRGB 1))
             (parseInt (element aRGB 2)) (Color.a this)
             (Color.transparent this) (Color.normalized this).

Definition fromStringWithAlpha (this : Color.t) (inColorString : string) : Color.t :=
  let strColor := removeFirst "rgba(" inColorString in
  let strColor := removeAll ")" strColor in
  let strColor := removeAll " " strColor in
  let aRGB := split "," strColor in
  Color.mk (parseInt (element aRGB 0)) (parseInt (element aRGB 1))
           (parseInt (element aRGB 2)) (parseFloat (element aRGB 3))
           (Color.transparent this) (Color.normalized this).



End ColorStrings.

(** ** Image serialization *)

Definition imageToString (v : nat) : M string :=
  do w0 <- getWidth v;
  do h0 <- getHeight v;
  let imageString :=
    String.append (numToString (ofZ w0))
      (String.append ";" (String.append (numToString (ofZ h0)) ";")) in
  do h <- getHeight v;
  foldM (seqZ 0 h) imageString (fun imageString yLoop =>
    do w <- getWidth v;
    foldM (seqZ 0 w) imageString (fun imageString xLoop =>
      do o <- getColor v xLoop yLoop;
      do oColor <- deref o;
      let imageString := String.append imageString (String.append (numToString (Color.r oColor)) ",") in
      let imageString := String.append imageString (String.append (numToString (Color.g oColor)) ",") in
      let imageString := String.append imageString (String.append (numToString (Color.b oColor)) ",") in
      let imageString := String.append imageString (String.append (numToString (Color.a oColor)) ";") in
      ret imageString)).

(** One iteration of the loading loop: [pos] is [(xPos, yPos)]. *)
Definition loadGroup (v : nat) (imageData : list string) (imageWidth : Z)
    (pos : Z * Z) (loop : Z) : M (Z * Z) :=
  let '(xPos, yPos) := pos in
  match imageData !! Z.to_nat (loop + 2) with
  | None => throw TypeError
  | Some oColorString =>
      let oColorArray := split "," oColorString in
      if (length oColorArray =? 4)%nat
         && negb (String.eqb "null" (nth 0 oColorArray EmptyString))
      then
        do oColor <- alloc (Color.mk (parseInt (nth 0 oColorArray EmptyString))
                                     (parseInt (nth 1 oColorArray EmptyString))
                                     (parseInt (nth 2 oColorArray EmptyString))
                                     (parseFloat (nth 3 oColorArray EmptyString))
                                     false false);
        setColor v xPos yPos (Some oColor);;
        let xPos := xPos + 1 in
        if 0 =? Z.rem xPos imageWidth then ret (0, yPos + 1) else ret (xPos, yPos)
      else ret (xPos, yPos)
  end.

Definition imageFromString (v : nat) (inString : string) : M unit :=
  if String.eqb inString EmptyString then ret tt
  else
    let imageData := split ";" inString in
    if (length imageData <? 3)%nat then ret tt
    else
      let imageWidth := parseInt (nth 0 imageData EmptyString) in
      let imageHeight := parseInt (nth 1 imageData EmptyString) in
      do w <- getWidth v;
      do h <- getHeight v;
      if negb (truthy imageWidth) || negb (truthy imageHeight)
         || negb (num_eqb imageWidth (ofZ w)) || negb (num_eqb imageHeight (ofZ h))
      then ret tt
      else if negb (num_eqb (ofZ (Z.of_nat (length imageData)))
                            (nadd (nmul imageWidth imageHeight) (ofZ 3)))
      then ret tt
      else
        (* here imageWidth = w and imageHeight = h *)
        foldM (seqZ 0 (w * h)) (0, 0) (loadGroup v imageData w);;
        ret tt.

(** ** Histograms *)

(** A JavaScript array of numbers.  An element that was never written (a
    hole, or an index past the end) reads as [undefined], which every
    addition made on it turns into [NaN]: it is kept as [NaN]. *)
Definition arr_get (arr : list num) (k : num) : num :=
  match toZ k with
  | Some i => if i <? 0 then NaN else default NaN (arr !! Z.to_nat i)
  | None => NaN
  end.

(** [arr[k] = v]: a key that is a natural number writes the element, growing
    the array when it lies past the end; any other key names a property and
    leaves the elements alone. *)
Definition arr_set (arr : list num) (k : num) (v : num) : list num :=
  match toZ k with
  | Some i =>
      if i <? 0 then arr
      else if (Z.to_nat i <? length arr)%nat then <[Z.to_nat i := v]> arr
      else arr ++ replicate (Z.to_nat i - length arr) NaN ++ [v]
  | None => arr
  end.

Module HistogramResult.

Record t : Type := mk {
  red : list num;
  green : list num;
  blue : list num;
  alpha : list num
}.

(** [new Array(256+1).join('0').split('').map(parseFloat)] *)
Definition zeros : list num :=
  map parseFloat (split_chars (join_empty (256 + 1) "0")).

Definition new : t := mk zeros zeros zeros zeros.

Local Notation "a +++ b" := (String.append a b) (at level 60, right associativity).

(** One loop of [toString]: the values of a channel, a comma before each but
    the first.  (A hole of the array would print as undefined; the model
    keeps it as NaN and prints that.) *)
Fixpoint appendValues (values : list num) (loop : nat) (oString : string) : string :=
  match values with
  | [] => oString
  | x :: rest =>
      let oString := if (0 =? loop)%nat then oString else oString +++ "," in
      appendValues rest (S loop) (oString +++ numToString x)
  end.

Definition toString (this : t) : string :=
  let oString := ""%string in
  let oString := appendValues (red this) 0 oString in
  let oString := oString +++ ";" in
  let oString := appendValues (green this) 0 oString in
  let oString := oString +++ ";" in
  let oString := appendValues (blue this) 0 oString in
  let oString := oString +++ ";" in
  appendValues (alpha this) 0 oString.

(** The inner loop of [fromString]: [aColorBucket[i] = parseInt(aColorValues[i])]. *)
Fixpoint loadValues (aColorValues : list string) (colorValueLoop : nat)
    (aColorBucket : list num) : list num :=
  match aColorValues with
  | [] => aColorBucket
  | v :: rest =>
      loadValues rest (S colorValueLoop)
        (arr_set aColorBucket (ofZ (Z.of_nat colorValueLoop)) (parseInt v))
  end.

(** The outer loop: element 1 goes to green, 2 to blue, 3 to alpha and every
    other one to red. *)
Fixpoint loadElements (aColorElements : list string) (colorElementLoop : nat) (this : t) : t :=
  match aColorElements with
  | [] => this
  | e :: rest =>
      let aColorValues := split "," e in
      let this :=
        match colorElementLoop with
        | 1%nat => mk (red this) (loadValues aColorValues 0 (green this)) (blue this) (alpha this)
        | 2%nat => mk (red this) (green this) (loadValues aColorValues 0 (blue this)) (alpha this)
        | 3%nat => mk (red this) (green this) (blue this) (loadValues aColorValues 0 (alpha this))
        | _ => mk (loadValues aColorValues 0 (red this)) (green this) (blue this) (alpha this)
        end in
      loadElements rest (S colorElementLoop) this
  end.

Definition fromString (this : t) (inString : string) : t :=
  loadElements (split ";" inString) 0 this.

End HistogramResult.

Module Filters.

Definition histogramPixel (histogramResult : HistogramResult.t) (oColor : Color.t)
  : HistogramResult.t :=
  let red := Color.r oColor in
  let green := Color.g oColor in
  let blue := Color.b oColor in
  let alpha := Math_round (nmul (Color.a oColor) (ofZ 255)) in
  let bump (arr : list num) (k : num) := arr_set arr k (nadd (arr_get arr k) (ofZ 1)) in
  HistogramResult.mk
    (bump (HistogramResult.red histogramResult) red)
    (bump (HistogramResult.green histogramResult) green)
    (bump (HistogramResult.blue histogramResult) blue)
    (bump (HistogramResult.alpha histogramResult) alpha).

Definition histogram (inView : nat) : M HistogramResult.t :=
  do w <- getWidth inView;
  foldM (seqZ 0 w) HistogramResult.new (fun histogramResult iLoop1 =>
    do h <- getHeight inView;
    foldM (seqZ 0 h) histogramResult (fun histogramResult iLoop2 =>
      do o <- getColor inView iLoop1 iLoop2;
      match o with
      | None => ret histogramResult
      | Some l =>
          do oColor <- read l;
          ret (histogramPixel histogramResult oColor)
      end)).

(** The local variables of [sumHistogram]: the four running sums and the
    result under construction. *)
Definition sumStep (inHistogram : HistogramResult.t)
    (st : num * num * num * num * HistogramResult.t) (iLoop1 : nat)
  : num * num * num * num * HistogramResult.t :=
  let '(redSum, greenSum, blueSum, alphaSum, summed) := st in
  let i := ofZ (Z.of_nat iLoop1) in
  let redSum := nadd redSum (arr_get (HistogramResult.red inHistogram) i) in
  let greenSum := nadd greenSum (arr_get (HistogramResult.green inHistogram) i) in
  let blueSum := nadd blueSum (arr_get (HistogramResult.blue inHistogram) i) in
  let alphaSum := nadd alphaSum (arr_get (HistogramResult.alpha inHistogram) i) in
  (redSum, greenSum, blueSum, alphaSum,
   HistogramResult.mk
     (arr_set (HistogramResult.red summed) i redSum)
     (arr_set (HistogramResult.green summed) i greenSum)
     (arr_set (HistogramResult.blue summed) i blueSum)
     (arr_set (HistogramResult.alpha summed) i alphaSum)).

Definition sumHistogram (inHistogram : HistogramResult.t) : HistogramResult.t :=
  snd (fold_left (sumStep inHistogram)
         (seq 0 (length (HistogramResult.red inHistogram)))
         (ofZ 0, ofZ 0, ofZ 0, ofZ 0, HistogramResult.new)).

Definition copy (inSourceView inDestinationView : nat) : M unit :=
  do w <- getWidth inSourceView;
  forEach (seqZ 0 w) (fun iLoop1 =>
    do h <- getHeight inSourceView;
    forEach (seqZ 0 h) (fun iLoop2 =>
      do o <- getColor inSourceView iLoop1 iLoop2;
      setColor inDestinationView iLoop1 iLoop2 o)).

Definition blend (inSourceView inBlendView inDestinationView : nat)
    (inBlendMode : Color.blendOperation) : M unit :=
  do w <- getWidth inSourceView;
  forEach (seqZ 0 w) (fun iLoop1 =>
    do h <- getHeight inSourceView;
    forEach (seqZ 0 h) (fun iLoop2 =>
      do o <- getColor inSourceView iLoop1 iLoop2;
      do ob <- getColor inBlendView iLoop1 iLoop2;
      match o, ob with
      | Some oColor, Some oBlendColor =>
          do blendColor <- read oBlendColor;
          update oColor (fun c => Color.blend c blendColor inBlendMode);;
          setColor inDestinationView iLoop1 iLoop2 (Some oColor)
      | _, _ => ret tt
      end)).

(** The result is [null], the object the view holds at the rounded
    coordinate, or a new colour. *)
Definition bilinearInterpolatePixel (inView : nat) (inX inY : num) : M (option loc) :=
  let xRounded := Math_round inX in
  let yRounded := Math_round inY in
  if ngt (ofZ 0) xRounded then ret None
  else if ngt (ofZ 0) yRounded then ret None
  else
    do w <- getWidth inView;
    if nlt (ofZ w) xRounded then ret None
    else
      do h <- getHeight inView;
      if nlt (ofZ h) yRounded then ret None
      else
        let iCeilingX := Math_ceil inX in
        let iCeilingY := Math_ceil inY in
        let iFloorX := Math_floor inX in
        let iFloorY := Math_floor inY in
        let fFractionX := nsub inX (Math_floor inX) in
        let fFractionY := nsub inY (Math_floor inY) in
        let fOneMinusX := nsub (ofZ 1) fFractionX in
        let fOneMinusY := nsub (ofZ 1) fFractionY in
        do oFloorXFloorYColor <- getColorAt inView iFloorX iFloorY;
        do oFloorXCeilingYColor <- getColorAt inView iFloorX iCeilingY;
        do oCeilingXFloorYColor <- getColorAt inView iCeilingX iFloorY;
        do oCeilingXCeilingYColor <- getColorAt inView iCeilingX iCeilingY;
        match oFloorXFloorYColor, oFloorXCeilingYColor,
              oCeilingXFloorYColor, oCeilingXCeilingYColor with
        | Some ff, Some fc, Some cf, Some cc =>
            do cff <- read ff;
            do cfc <- read fc;
            do ccf <- read cf;
            do ccc <- read cc;
            let nff := Color.getNormalizedColor cff in
            let nfc := Color.getNormalizedColor cfc in
            let ncf := Color.getNormalizedColor ccf in
            let ncc := Color.getNormalizedColor ccc in
            let oColor1 :=
              Color.addColor (Color.multiplyNumber nff fOneMinusX)
                             (Color.multiplyNumber ncf fFractionX) in
            let oColor2 :=
              Color.addColor (Color.multiplyNumber nfc fOneMinusX)
                             (Color.multiplyNumber ncc fFractionX) in
            let oColor3 :=
              Color.addColor (Color.multiplyNumber oColor1 fOneMinusY)
                             (Color.multiplyNumber oColor2 fFractionY) in
            do l <- alloc (Color.get255Color (Color.clamp oColor3));
            ret (Some l)
        | _, _, _, _ => getColorAt inView xRounded yRounded
        end.

(** [inThreshold], [inNewHigh] and [inNewLow] are colour objects. *)
Definition threshold (inSourceView inDestinationView : nat)
    (inThreshold inNewHigh inNewLow : option loc) (inThresholdAlpha : bool) : M unit :=
  do w <- getWidth inSourceView;
  forEach (seqZ 0 w) (fun iLoop1 =>
    do h <- getHeight inSourceView;
    forEach (seqZ 0 h) (fun iLoop2 =>
      do o <- getColor inSourceView iLoop1 iLoop2;
      match o with
      | None => ret tt
      | Some l =>
          do oColor <- read l;
          do th <- deref inThreshold;
          do hi <- deref inNewHigh;
          do lo <- deref inNewLow;
          let pick (f : Color.t -> num) := if ngt (f oColor) (f th) then f hi else f lo in
          let oNewColor :=
            Color.mk (pick Color.r) (pick Color.g) (pick Color.b)
                     (if inThresholdAlpha then pick Color.a else Color.a Color.new0)
                     false false in
          do n <- alloc oNewColor;
          setColor inDestinationView iLoop1 iLoop2 (Some n)
      end)).

(** The colour read from the source is changed in place and then stored in
    the destination. *)
Definition grayscale (inSourceView inDestinationView : nat) : M unit :=
  do w <- getWidth inSourceView;
  forEach (seqZ 0 w) (fun iLoop1 =>
    do h <- getHeight inSourceView;
    forEach (seqZ 0 h) (fun iLoop2 =>
      do o <- getColor inSourceView iLoop1 iLoop2;
      match o with
      | None => ret tt
      | Some oColor =>
          update oColor Color.grayscale;;
          setColor inDestinationView iLoop1 iLoop2 (Some oColor)
      end)).

Definition invert (inSourceView inDestinationView : nat) : M unit :=
  do w <- getWidth inSourceView;
  forEach (seqZ 0 w) (fun iLoop1 =>
    do h <- getHeight inSourceView;
    forEach (seqZ 0 h) (fun iLoop2 =>
      do o <- getColor inSourceView iLoop1 iLoop2;
      match o with
      | None => ret tt
      | Some oColor =>
          update oColor Color.invert;;
          setColor inDestinationView iLoop1 iLoop2 (Some oColor)
      end)).

Fixpoint indexOf (s : string) (c : ascii) : bool :=
  match s with
  | EmptyString => false
  | String c' s' => Ascii.eqb c' c || indexOf s' c
  end.

(** [inChannels.indexOf(c)] is only compared with -1: [indexOf] above tells
    whether the character occurs. *)
Definition assignChannels (inChannels : string) (oValue : num) (c : Color.t) : Color.t :=
  let c := if indexOf inChannels "r" then
             Color.mk oValue (Color.g c) (Color.b c) (Color.a c)
                      (Color.transparent c) (Color.normalized c) else c in
  let c := if indexOf inChannels "g" then
             Color.mk (Color.r c) oValue (Color.b c) (Color.a c)
                      (Color.transparent c) (Color.normalized c) else c in
  let c := if indexOf inChannels "b" then
             Color.mk (Color.r c) (Color.g c) oValue (Color.a c)
                      (Color.transparent c) (Color.normalized c) else c in
  if indexOf inChannels "a" then
    Color.mk (Color.r c) (Color.g c) (Color.b c)
             (ndiv (parseFloat (numToString oValue)) (ofZ 255))
             (Color.transparent c) (Color.normalized c)
  else c.

Definition assignChannelValue (inSourceView inDestinationView : nat)
    (inChannels : string) (inValue : string) : M unit :=
  let oValue := parseInt inValue in
  do w <- getWidth inSourceView;
  forEach (seqZ 0 w) (fun iLoop1 =>
    do h <- getHeight inSourceView;
    forEach (seqZ 0 h) (fun iLoop2 =>
      do o <- getColor inSourceView iLoop1 iLoop2;
      match o with
      | None => ret tt
      | Some oColor =>
          update oColor (assignChannels inChannels oValue);;
          setColor inDestinationView iLoop1 iLoop2 (Some oColor)
      end)).

Definition aQuickMask : list (list Z) :=
  [ [ -1;  0; -1];
    [  0;  4;  0];
    [ -1;  0; -1] ].

(** The two inner loops of [detectEdges] at [(iLoop1, iLoop2)]: the sum
    colour and the alpha of the last neighbour read. *)
Definition edgeSum (inSourceView : nat) (iLoop1 iLoop2 : Z) (oSumColor : Color.t)
  : M (Color.t * num) :=
  foldM [-1; 0; 1] (oSumColor, ofZ 1) (fun acc sMaskLoop1 =>
    foldM [-1; 0; 1] acc (fun acc sMaskLoop2 =>
      let '(oSumColor, fAlphaValue) := acc in
      let sMaskValue :=
        nth (Z.to_nat (sMaskLoop2 + 1)) (nth (Z.to_nat (sMaskLoop1 + 1)) aQuickMask []) 0 in
      do o <- getColor inSourceView (iLoop1 + sMaskLoop1) (iLoop2 + sMaskLoop2);
      match o with
      | None => ret (oSumColor, fAlphaValue)
      | Some l =>
          do c <- read l;
          let oColor := Color.getNormalizedColor c in
          ret (Color.addColor oSumColor (Color.multiplyNumber oColor (ofZ sMaskValue)),
               Color.a oColor)
      end)).

Definition detectEdges (inSourceView inDestinationView : nat) : M unit :=
  do w <- getWidth inSourceView;
  forEach (seqZ 1 (w - 2)) (fun iLoop1 =>
    do h <- getHeight inSourceView;
    forEach (seqZ 1 (h - 2)) (fun iLoop2 =>
      let oSumColor := Color.getNormalizedColor Color.new0 in
      do o <- getColor inSourceView iLoop1 iLoop2;
      do c <- deref o;
      let oOutColor := Color.getNormalizedColor c in
      let oOutColor := Color.grayscale oOutColor in
      let oSumColor := Color.assignNumber oSumColor (ofZ 0) in
      do acc <- edgeSum inSourceView iLoop1 iLoop2 oSumColor;
      let '(oSumColor, fAlphaValue) := acc in
      let oSumColor := Color.clamp oSumColor in
      (* oGraySumColor is the same object as oSumColor *)
      let oSumColor := Color.grayscale oSumColor in
      let oGraySumColor := oSumColor in
      if ngt (Color.r oGraySumColor) (Color.r oOutColor) then
        let c255 := Color.get255Color oSumColor in
        do oNewColor <- alloc (Color.mk (Color.r c255) (Color.g c255) (Color.b c255)
                                        fAlphaValue (Color.transparent c255)
                                        (Color.normalized c255));
        setColor inDestinationView iLoop1 iLoop2 (Some oNewColor)
      else ret tt)).

(** [inDestinationView.fill()] is called without an argument. *)
Definition translate (inSourceView inDestinationView : nat)
    (inOffsetX inOffsetY : Z) (inFillColor : option loc) : M unit :=
  do fillColor <-
    match inFillColor with
    | Some l => ret l
    | None => alloc (Color.mk (ofZ 255) (ofZ 255) (ofZ 255) (ofZ 1) false false)
    end;
  setBackgroundColor inDestinationView (Some fillColor);;
  fill inDestinationView None;;
  do h <- getHeight inSourceView;
  forEach (seqZ 0 h) (fun iYLoop =>
    do w <- getWidth inSourceView;
    forEach (seqZ 0 w) (fun iXLoop =>
      do oNewColor <- getColor inSourceView iXLoop iYLoop;
      setColor inDestinationView (iXLoop + inOffsetX) (iYLoop + inOffsetY) oNewColor)).

(** The neighbours counted around [(iXloop, iYLoop)]. *)
Definition erosionCount (inSourceView : nat) (iXloop iYLoop : Z) (inTolerance : num)
    (inNeighborColor : option loc) : M Z :=
  foldM [-1; 0; 1] 0 (fun sCount sYNeighbor =>
    foldM [-1; 0; 1] sCount (fun sCount sXNeighbor =>
      if 0 <? iYLoop + sYNeighbor then
        do o <- getColor inSourceView (iXloop + sXNeighbor) (iYLoop + sYNeighbor);
        do nc <- deref inNeighborColor;
        do oNeighborColor <- deref o;
        if isKindaSortaEqual (Color.r nc) (Color.r oNeighborColor) inTolerance
           && isKindaSortaEqual (Color.g nc) (Color.g oNeighborColor) inTolerance
           && isKindaSortaEqual (Color.b nc) (Color.b oNeighborColor) inTolerance
        then ret (sCount + 1)
        else ret sCount
      else ret sCount)).

Definition erosion (inSourceView inDestinationView : nat) (inErosionColor : option loc)
    (inThreshold : num) (inTolerance : num)
    (inNeighborColor inReplacementColor : option loc) : M unit :=
  do h <- getHeight inSourceView;
  forEach (seqZ 1 (h - 2)) (fun iYLoop =>
    do w <- getWidth inSourceView;
    forEach (seqZ 1 (w - 2)) (fun iXloop =>
      do o <- getColor inSourceView iXloop iYLoop;
      setColor inDestinationView iXloop iYLoop o;;
      do oColor <- deref o;
      do ec <- deref inErosionColor;
      if Color.isEqual oColor ec inTolerance then
        do sCount <- erosionCount inSourceView iXloop iYLoop inTolerance inNeighborColor;
        if ngt (ofZ sCount) inThreshold then
          setColor inDestinationView iXloop iYLoop inReplacementColor
        else ret tt
      else ret tt)).

(** The coordinate sampled along one axis:
    [Math.round((i - filterSize / 2 + f + size) % size)]. *)
Definition wrapCoord (i : Z) (filterSize f : nat) (size : Z) : num :=
  Math_round
    (nmod (nadd (nadd (nsub (ofZ i) (ndiv (ofZ (Z.of_nat filterSize)) (ofZ 2)))
                      (ofZ (Z.of_nat f)))
                (ofZ size))
          (ofZ size)).

(** The local variables [red], [green], [blue], [alpha] after the two mask
    loops at [(iXLoop, iYLoop)]. *)
Definition maskSum (inSourceView : nat) (inMask : list (list num))
    (filterWidth filterHeight : nat) (iXLoop iYLoop : Z)
  : M (num * num * num * num) :=
  foldM (seq 0 filterWidth) (ofZ 0, ofZ 0, ofZ 0, ofZ 0) (fun acc filterX =>
    foldM (seq 0 filterHeight) acc (fun acc filterY =>
      let '(red, green, blue, alpha) := acc in
      do src <- view inSourceView;
      let imageX := wrapCoord iXLoop filterWidth filterX (MinimalView.width src) in
      let imageY := wrapCoord iYLoop filterHeight filterY (MinimalView.height src) in
      do o <- getColorAt inSourceView imageX imageY;
      match o with
      | None => ret (red, green, blue, alpha)
      | Some l =>
          do currentColor <- read l;
          match inMask !! filterX with
          | None => throw TypeError
          | Some row =>
              let m := default NaN (row !! filterY) in
              ret (nadd red (nmul (Color.r currentColor) m),
                   nadd green (nmul (Color.g currentColor) m),
                   nadd blue (nmul (Color.b currentColor) m),
                   Color.a currentColor)
          end
      end)).

Definition maskFilter (inSourceView inDestinationView : nat)
    (inMask : list (list num)) (inFactor inBias : num) : M unit :=
  let factor := if truthy inFactor then inFactor else ofZ 1 in
  let bias := if truthy inBias then inBias else ofZ 0 in
  match inMask with
  | [] => throw TypeError
  | row0 :: _ =>
      let filterWidth := length row0 in
      let filterHeight := length inMask in
      do w <- getWidth inSourceView;
      forEach (seqZ 0 w) (fun iXLoop =>
        do h <- getHeight inSourceView;
        forEach (seqZ 0 h) (fun iYLoop =>
          do acc <- maskSum inSourceView inMask filterWidth filterHeight iXLoop iYLoop;
          let '(red, green, blue, alpha) := acc in
          let newColor :=
            Color.new (Math_round (nadd (nmul factor red) bias))
                      (Math_round (nadd (nmul factor green) bias))
                      (Math_round (nadd (nmul factor blue) bias))
                      alpha in
          do l <- alloc (Color.clamp newColor);
          setColor inDestinationView iXLoop iYLoop (Some l)))
  end.

(** The coefficient [255 / area] and its products are exact here; the code
    rounds both, so that a product next to a half ([255 / 50 * 25]) may round
    to the other integer. *)
Definition equalize (inSourceView inDestinationView : nat) : M unit :=
  do oHistogram <- histogram inSourceView;
  let oSummedHistogram := sumHistogram oHistogram in
  do iWidth <- getWidth inSourceView;
  do iHeight <- getHeight inSourceView;
  let fArea := nmul (nmul (ofZ 1) (ofZ iWidth)) (ofZ iHeight) in
  let fColorLevels := ofZ 255 in
  let fCoefficient := ndiv fColorLevels fArea in
  do w <- getWidth inSourceView;
  forEach (seqZ 0 w) (fun iLoop1 =>
    do h <- getHeight inSourceView;
    forEach (seqZ 0 h) (fun iLoop2 =>
      do o <- getColor inSourceView iLoop1 iLoop2;
      match o with
      | None => ret tt
      | Some l =>
          do oColor <- read l;
          let sRed := Color.r oColor in
          let sGreen := Color.g oColor in
          let sBlue := Color.b oColor in
          do oNewColor <-
            alloc (Color.mk
              (Math_round (nmul fCoefficient
                             (arr_get (HistogramResult.red oSummedHistogram) sRed)))
              (Math_round (nmul fCoefficient
                             (arr_get (HistogramResult.green oSummedHistogram) sGreen)))
              (Math_round (nmul fCoefficient
                             (arr_get (HistogramResult.blue oSummedHistogram) sBlue)))
              (Color.a oColor) false false);
          setColor inDestinationView iLoop1 iLoop2 (Some oNewColor)
      end)).

Definition bilinearInterpolate (inSourceView inDestinationView : nat) : M unit :=
  copy inSourceView inDestinationView;;
  do w <- getWidth inSourceView;
  forEach (seqZ 0 w) (fun iLoop1 =>
    do h <- getHeight inSourceView;
    forEach (seqZ 0 h) (fun iLoop2 =>
      do newColor <-
        bilinearInterpolatePixel inDestinationView (ofZ iLoop1) (ofZ iLoop2);
      setColor inDestinationView iLoop1 iLoop2 newColor)).

(** How often the body of [for (i = 0; i < bound; i++)] runs. *)
Definition loopCount (bound : num) : Z :=
  match bound with
  | Fin q => Qc_ceil q
  | NaN => 0
  end.

(** The fill colour is computed and not used. *)
Definition scale (inSourceView inDestinationView : nat) (inXScale inYScale : num)
    (inFillColor : option loc) : M unit :=
  do fillColor <-
    match inFillColor with
    | Some l => ret l
    | None => alloc (Color.mk (ofZ 255) (ofZ 255) (ofZ 255) (ofZ 1) false false)
    end;
  do iWidth <- getWidth inSourceView;
  do iHeight <- getHeight inSourceView;
  let iScaledWidth := nmul (ofZ iWidth) inXScale in
  let iScaledHeight := nmul (ofZ iHeight) inYScale in
  forEach (seqZ 0 (loopCount iScaledHeight)) (fun iYLoop =>
    let fYLoop := ofZ iYLoop in
    let fY := ndiv fYLoop inYScale in
    forEach (seqZ 0 (loopCount iScaledWidth)) (fun iXLoop =>
      let fXLoop := ofZ iXLoop in
      let fX := ndiv fXLoop inXScale in
      do oNewColor <- bilinearInterpolatePixel inSourceView fX fY;
      match oNewColor with
      | None => ret tt
      | Some _ => setColor inDestinationView iXLoop iYLoop oNewColor
      end)).

End Filters.

(** ** Vocabulary of the statements *)

Notation "a +++ b" := (String.append a b) (at level 60, right associativity).

(** *** Colours *)

(** A number that is not NaN. *)
Definition numeric (x : num) : Prop := exists q : Qc, x = Fin q.

(** An integer channel value of the 255-mode. *)
Definition channel255 (x : num) : Prop := exists k : Z, 0 <= k <= 255 /\ x = ofZ k.

(** A number of the unit interval: an alpha, or a normalized channel. *)
Definition unitValue (x : num) : Prop :=
  exists q : Qc, x = Fin q /\ (0 <= this q)%Q /\ (this q <= 1)%Q.

(** A colour in 255-mode with integer channels in 0..255 and alpha in [0, 1]. *)
Definition color255 (c : Color.t) : Prop :=
  Color.normalized c = false /\ channel255 (Color.r c) /\ channel255 (Color.g c)
  /\ channel255 (Color.b c) /\ unitValue (Color.a c).

(** A normalized colour with every channel in [0, 1]. *)
Definition colorUnit (c : Color.t) : Prop :=
  Color.normalized c = true /\ unitValue (Color.r c) /\ unitValue (Color.g c)
  /\ unitValue (Color.b c) /\ unitValue (Color.a c).

(** The channel values of a pixel that [histogram] can count. *)
Definition validPixel (c : Color.t) : Prop :=
  channel255 (Color.r c) /\ channel255 (Color.g c) /\ channel255 (Color.b c)
  /\ unitValue (Color.a c).

(** *** Stores *)

(** The reference a view holds at a coordinate. *)
Definition cell (s : Store) (v : nat) (x y : Z) : option loc :=
  match views s !! v with
  | Some w => rows_get (MinimalView.colors w) x y
  | None => None
  end.

(** Every object of [s] is in [s'], unchanged. *)
Definition heap_ext (s s' : Store) : Prop :=
  forall (l : loc) (c : Color.t), heap s !! l = Some c -> heap s' !! l = Some c.

(** The width and height of a view. *)
Definition dims (s : Store) (v : nat) : option (Z * Z) :=
  match views s !! v with
  | Some w => Some (MinimalView.width w, MinimalView.height w)
  | None => None
  end.

(** A computation that leaves the store as it found it. *)
Definition readonly {A} (m : M A) : Prop := forall s : Store, final (m s) = s.

(** *** Histograms *)

(** The 256 buckets [f 0, ..., f 255]. *)
Definition table (f : Z -> Z) : list num := map (fun k => ofZ (f k)) (seqZ 0 256).

(** How many colours of a list satisfy a test. *)
Fixpoint count (p : Color.t -> bool) (cs : list Color.t) : Z :=
  match cs with
  | [] => 0
  | c :: cs' => (if p c then 1 else 0) + count p cs'
  end.

(** The alpha bucket of a colour: [Math.round(a * 255)]. *)
Definition alphaBucket (c : Color.t) : num := Math_round (nmul (Color.a c) (ofZ 255)).




(** The colours of the present pixels of a view, in the order [histogram]
    visits them: [x] outside, [y] inside. *)
Definition scan (s : Store) (v : nat) : list Color.t :=
  match views s !! v with
  | None => []
  | Some w =>
      concat (map (fun x => omap (fun y => pixel s v x y) (seqZ 0 (MinimalView.height w)))
                  (seqZ 0 (MinimalView.width w)))
  end.

(** *** Printed numbers and image strings *)

(** The characters a printed number is made of. *)
Definition num_char (c : ascii) : bool :=
  is_digit c || Ascii.eqb c "-" || Ascii.eqb c "." || Ascii.eqb c "N" || Ascii.eqb c "a"
  || Ascii.eqb c "e" || Ascii.eqb c "+".

Fixpoint num_chars (s : string) : bool :=
  match s with
  | EmptyString => true
  | String c s' => num_char c && num_chars s'
  end.

(** The remainder left after [fuel] digits of the fraction. *)
Fixpoint fraction_rest (fuel : nat) (rem den : Z) : Z :=
  match fuel with
  | O => rem
  | S fuel' => if rem =? 0 then 0 else fraction_rest fuel' ((rem * 10) mod den) den
  end.

(** A number with at most 17 decimals. *)
Definition exactDecimal (q : Qc) : Prop := (Z.pos (Qden q) | 10 ^ 17).

(** A number whose decimal expansion ends within [maxFraction] digits:
    [numToString] prints it exactly. *)
Definition finiteDecimal (q : Qc) : Prop := (Z.pos (Qden q) | 10 ^ Z.of_nat maxFraction).

(** A finite double, or any other multiple of 2^-1074: the least positive
    double is 2^-1074 and every finite double is a multiple of it. *)
Definition binary64 (x : num) : Prop :=
  exists m : Z, x = ofQ (m # 2 ^ 1074).

(** The digits a string of digits denotes, continuing the number [acc]. *)
Fixpoint digitsValue (s : string) (acc : Z) : Z :=
  match s with
  | EmptyString => acc
  | String c s' => digitsValue s' (acc * 10 + digit_val c)
  end.

Fixpoint all_digits (s : string) : bool :=
  match s with
  | EmptyString => true
  | String c s' => is_digit c && all_digits s'
  end.

(** An integer in the range where JavaScript prints all its digits. *)
Definition intChannel (x : num) : Prop := exists k : Z, Z.abs k < 10 ^ 21 /\ x = ofZ k.

Definition decimalAlpha (x : num) : Prop := exists q : Qc, x = Fin q /\ exactDecimal q.

(** An alpha that prints exactly: every finite double is one. *)
Definition finiteAlpha (x : num) : Prop := exists q : Qc, x = Fin q /\ finiteDecimal q.

(** A colour with integer red, green and blue that print with all their
    digits, and an alpha with at most 17 decimals. *)
Definition serializable (c : Color.t) : Prop :=
  intChannel (Color.r c) /\ intChannel (Color.g c) /\ intChannel (Color.b c)
  /\ decimalAlpha (Color.a c).

(** A numeric alpha of the model: [NaN] or a number that prints exactly. *)
Definition numericAlpha (x : num) : Prop := x = NaN \/ finiteAlpha x.

(** A colour that the image string carries, with any numeric alpha. *)
Definition printable (c : Color.t) : Prop :=
  intChannel (Color.r c) /\ intChannel (Color.g c) /\ intChannel (Color.b c)
  /\ numericAlpha (Color.a c).

(** The colour object that [imageFromString] builds for the group of [c]. *)
Definition reloaded (c : Color.t) : Color.t :=
  Color.mk (Color.r c) (Color.g c) (Color.b c) (Color.a c) false false.

(** The colour at a coordinate of a view without absent pixels. *)
Definition colorAt (s : Store) (v : nat) (x y : Z) : Color.t :=
  default Color.new0 (pixel s v x y).

(** The group of a colour, without its closing semicolon. *)
Definition fieldsString (c : Color.t) : string :=
  numToString (Color.r c) +++ "," +++ numToString (Color.g c) +++ ","
  +++ numToString (Color.b c) +++ "," +++ numToString (Color.a c).

(** The colours of a view row by row: [y] outside, [x] inside. *)
Definition rowMajor (s : Store) (v : nat) (w h : Z) : list Color.t :=
  concat (map (fun y => map (fun x => colorAt s v x y) (seqZ 0 w)) (seqZ 0 h)).

Fixpoint sconcat (l : list string) : string :=
  match l with
  | [] => EmptyString
  | a :: l' => a +++ sconcat l'
  end.

(** The image string of [w] by [h] colours. *)
Definition payload (w h : Z) (cs : list Color.t) : string :=
  numToString (ofZ w) +++ ";" +++ numToString (ofZ h) +++ ";"
  +++ sconcat (map (fun c => fieldsString c +++ ";") cs).

(** The frame kept by [detectEdges] while it scans: the objects of the
    initial store [s0], the dimensions of every view and the cell [(x, y)] of
    the destination stay as they were. *)
Definition edgeInv (s0 : Store) (dst : nat) (x y : Z) (t : Store) : Prop :=
  heap_ext s0 t /\ (forall u, dims t u = dims s0 u) /\ cell t dst x y = cell s0 dst x y.

(** The state of the loading loop of [imageFromString] before group [k]: the
    position, the cells of the target, and the groups already applied. *)
Definition loadInv (s : Store) (tgt : nat) (w : Z) (cs : list Color.t)
    (k : Z) (pos : Z * Z) (t : Store) : Prop :=
  pos = (k mod w, k / w)
  /\ (forall x y, is_Some (cell s tgt x y) -> is_Some (cell t tgt x y))
  /\ (forall j c, 0 <= j < k -> cs !! Z.to_nat j = Some c ->
        pixel t tgt (j mod w) (j / w) = Some (reloaded c)).

(** *** Ranges, stores and histograms, continued *)

(** A colour whose four channels are numbers. *)
Definition numericColor (c : Color.t) : Prop :=
  numeric (Color.r c) /\ numeric (Color.g c) /\ numeric (Color.b c) /\ numeric (Color.a c).

(** Two numbers that differ by at most [t]. *)
Definition within (t : Qc) (x y : num) : Prop :=
  exists p q : Qc, x = Fin p /\ y = Fin q
    /\ (this p - this q <= this t)%Q /\ (this q - this p <= this t)%Q.

(** A number between 0 and the integer [hi]. *)
Definition bounded (hi : Z) (x : num) : Prop :=
  exists q : Qc, x = Fin q /\ (0 <= this q)%Q /\ (this q <= inject_Z hi)%Q.

(** What [clamp] does to one channel with upper limit [m]. *)
Definition clampTo (m x : num) : num :=
  let v := if nlt x (ofZ 0) then ofZ 0 else x in
  if ngt v m then m else v.

(** A sequence of 256 integers that print with all their digits. *)
Definition intTable (arr : list num) : Prop :=
  length arr = 256%nat /\ Forall intChannel arr.

(** No cell refers to an object that the store lacks. *)
Definition sound (s : Store) : Prop :=
  forall (v : nat) (x y : Z) (l : loc), cell s v x y = Some l -> is_Some (heap s !! l).

(** What [setColor] makes of a cell: nothing changes for a [null] colour or
    outside the array of colours. *)
Definition written (old new : option loc) : option loc :=
  match old, new with
  | Some _, Some l => Some l
  | _, _ => old
  end.

(** [f 0 + ... + f (n - 1)] *)
Fixpoint upto (f : Z -> Z) (n : nat) : Z :=
  match n with
  | O => 0
  | S n' => upto f n' + f (Z.of_nat n')
  end.

(** The running total [f 0 + ... + f k]. *)
Definition running (f : Z -> Z) (k : Z) : Z := upto f (Z.to_nat (k + 1)).

(** Whether a number is one of the integers [0, ..., n - 1]. *)
Definition below (n : Z) (x : num) : bool :=
  match toZ x with
  | Some z => (0 <=? z) && (z <? n)
  | None => false
  end.

(** [sound], as a test. *)
Definition soundb (s : Store) : bool :=
  forallb (fun vw => forallb (forallb (fun l => (l <? length (heap s))%nat))
                             (MinimalView.colors vw))
          (views s).

(** How many colours of [cs] have a channel [f] that is at most the channel
    of [c]. *)
Definition atMost (f : Color.t -> num) (cs : list Color.t) (c : Color.t) : Z :=
  match toZ (f c) with
  | Some k => count (fun d => below (k + 1) (f d)) cs
  | None => 0
  end.

(** An integer less than 1 away from [255 * n / area]: what [equalize] makes
    of a channel that [n] of the [area] pixels do not exceed.  The code takes
    [Math.round(255 / area * n)], where the quotient and the product are
    rounded, so that an exact value of [127.5] may come out as 127 or 128. *)
Definition equalized (area n : Z) (x : num) : Prop :=
  exists j : Z, x = ofZ j /\ Z.abs (j * area - 255 * n) < area.

(** The colour [bilinearInterpolatePixel] computes at a coordinate without
    fractions, where the four neighbours are the pixel [c] itself. *)
Definition atNode (c : Color.t) : Color.t :=
  let n := Color.getNormalizedColor c in
  let oColor1 := Color.addColor (Color.multiplyNumber n (ofZ 1)) (Color.multiplyNumber n (ofZ 0)) in
  let oColor3 :=
    Color.addColor (Color.multiplyNumber oColor1 (ofZ 1)) (Color.multiplyNumber oColor1 (ofZ 0)) in
  Color.get255Color (Color.clamp oColor3).

(** The colour with the channels of [c] and the flags of a new colour. *)
Definition plain (c : Color.t) : Color.t :=
  Color.mk (Color.r c) (Color.g c) (Color.b c) (Color.a c) false false.

(** *** Filters: the colours stored and the invariants of the loops *)

(** The cell [(x0, y0)] of [v] before ([b = false]) and after [fill] has
    reached it; the objects, the sizes and the other views stay. *)
Definition fillInv (s : Store) (v : nat) (l : loc) (x0 y0 : Z) (b : bool) (t : Store) : Prop :=
  heap t = heap s /\ (forall u, dims t u = dims s u)
  /\ (forall u x y, u <> v -> cell t u x y = cell s u x y)
  /\ cell t v x0 y0 = if b then written (cell s v x0 y0) (Some l) else cell s v x0 y0.

(** The destination cell [(x0, y0)] before ([b = false]) and after the
    iteration that stores the source cell [(x0 - dx, y0 - dy)] there. *)
Definition moveInv (s : Store) (src dst : nat) (dx dy x0 y0 : Z) (b : bool) (t : Store) : Prop :=
  heap t = heap s /\ (forall u, dims t u = dims s u)
  /\ (forall x y, cell t src x y = cell s src x y)
  /\ (forall u x y, u <> dst -> cell t u x y = cell s u x y)
  /\ cell t dst x0 y0
     = if b then written (cell s dst x0 y0) (cell s src (x0 - dx) (y0 - dy))
       else cell s dst x0 y0.

(** The stores a filter passes through, started in [s] and writing to [dst]
    only: possibly more objects, the same dimensions, the cells of the other
    views as they were. *)
Definition reach (s : Store) (dst : nat) (t : Store) : Prop :=
  heap_ext s t /\ sound t /\ (forall u, dims t u = dims s u)
  /\ (forall u x y, u <> dst -> cell t u x y = cell s u x y).

(** What one iteration at [(x, y)] may do to the store: nothing, store a new
    colour at the destination cell, or store an object that exists. *)
Definition stepOf (dst : nat) (x y : Z) (t : Store) (r : Res unit) : Prop :=
  r = Ret tt t
  \/ (exists c : Color.t, r = (do n <- alloc c; setColor dst x y (Some n)) t)
  \/ (exists l : loc, is_Some (heap t !! l) /\ r = setColor dst x y (Some l) t).

(** The cell [(x, y)] of [v] refers in [t] to an object that [s] did not
    have, of colour [c]. *)
Definition freshPixel (s t : Store) (v : nat) (x y : Z) (c : Color.t) : Prop :=
  exists l : loc, cell t v x y = Some l /\ heap s !! l = None /\ heap t !! l = Some c.

(** The destination cell [(x0, y0)] before ([b = false]) and after its
    iteration, which stores the new colour [act] or, without one, nothing. *)
Definition pixInv (s : Store) (dst : nat) (x0 y0 : Z) (act : option Color.t)
    (b : bool) (t : Store) : Prop :=
  reach s dst t
  /\ if b then
       match act with
       | None => cell t dst x0 y0 = cell s dst x0 y0
       | Some c => is_Some (cell s dst x0 y0) -> freshPixel s t dst x0 y0 c
       end
     else cell t dst x0 y0 = cell s dst x0 y0.

(** What an iteration stores, told from the store the filter started in. *)
Definition pixelAct (s : Store) (src : nat) (f : Color.t -> Color.t) (x y : Z)
  : option Color.t :=
  match cell s src x y with
  | None => None
  | Some l => f <$> heap s !! l
  end.

(** The colour [threshold] stores for a source pixel [c]. *)
Definition thresholded (c th hi lo : Color.t) (alphaToo : bool) : Color.t :=
  Color.mk (if ngt (Color.r c) (Color.r th) then Color.r hi else Color.r lo)
           (if ngt (Color.g c) (Color.g th) then Color.g hi else Color.g lo)
           (if ngt (Color.b c) (Color.b th) then Color.b hi else Color.b lo)
           (if alphaToo
            then if ngt (Color.a c) (Color.a th) then Color.a hi else Color.a lo
            else ofZ 1)
           false false.

(** The sum colour after the mask cells of total weight [W]: each channel is
    the normalized channel of the flat colour times [W]. *)
Definition flatSum (nr ng nb : num) (W : Z) (sum : Color.t) : Prop :=
  Color.r sum = nmul nr (ofZ W) /\ Color.g sum = nmul ng (ofZ W)
  /\ Color.b sum = nmul nb (ofZ W) /\ Color.normalized sum = true.

(** The rows of a new view whose first object is [start]. *)
Fixpoint rowsFrom (start n wn : nat) : list (list loc) :=
  match n with
  | O => []
  | S n' => seq start wn :: rowsFrom (start + wn) n' wn
  end.


(** ** Example scenes *)

(** [view.setColor(x, y, new Color(...))] *)
Definition paintPixel (v : nat) (x y : Z) (c : Color.t) : M unit :=
  do l <- alloc c; setColor v x y (Some l).

Definition rgba (r g b : Z) (a : Q) : Color.t :=
  Color.new (ofZ r) (ofZ g) (ofZ b) (ofQ a).

(** View 0: a 1x1 source holding (10, 20, 30, 1).  View 1: a new 1x1
    destination. *)
Definition scenePoint : Store :=
  final ((do src <- newMinimalView 1 1;
          paintPixel src 0 0 (rgba 10 20 30 1);;
          do dst <- newMinimalView 1 1;
          ret tt) emptyStore).

(** View 0: a 1x1 source holding (10, 20, 30, 1).  View 1: a 2x1 destination
    holding (7, 7, 7, 1) and (8, 8, 8, 1).  Object 6: the colour white. *)
Definition sceneTranslate : Store :=
  final ((do src <- newMinimalView 1 1;
          paintPixel src 0 0 (rgba 10 20 30 1);;
          do dst <- newMinimalView 2 1;
          paintPixel dst 0 0 (rgba 7 7 7 1);;
          paintPixel dst 1 0 (rgba 8 8 8 1);;
          do white <- alloc (rgba 255 255 255 1);
          ret tt) emptyStore).

(** View 0: a 2x2 source with four different colours.  View 1: a new 2x2
    destination. *)
Definition sceneMask : Store :=
  final ((do src <- newMinimalView 2 2;
          paintPixel src 0 0 (rgba 10 20 30 1);;
          paintPixel src 1 0 (rgba 40 50 60 1);;
          paintPixel src 0 1 (rgba 70 80 90 1);;
          paintPixel src 1 1 (rgba 100 110 120 1);;
          do dst <- newMinimalView 2 2;
          ret tt) emptyStore).

(** View 0: a 3x3 source filled with white.  View 1: a new 3x3 destination.
    Objects 19, 20 and 21: the erosion colour (white), the neighbour colour
    (white) and the replacement colour (black). *)
Definition sceneErosion : Store :=
  final ((do src <- newMinimalView 3 3;
          do white <- alloc (rgba 255 255 255 1);
          fill src (Some white);;
          do dst <- newMinimalView 3 3;
          do erosionColor <- alloc (rgba 255 255 255 1);
          do neighborColor <- alloc (rgba 255 255 255 1);
          do replacementColor <- alloc (rgba 0 0 0 1);
          ret tt) emptyStore).

(** View 0: a 2x1 target holding (9, 9, 9, 1) and (8, 8, 8, 1). *)
Definition sceneLoad : Store :=
  final ((do tgt <- newMinimalView 2 1;
          paintPixel tgt 0 0 (rgba 9 9 9 1);;
          paintPixel tgt 1 0 (rgba 8 8 8 1);;
          ret tt) emptyStore).

(** View 0: a 2x1 source holding (1, 2, 3, a) and (4, 5, 6, 1), where [a] is
    the double next to 128/255, 282578800148737 / 2^49, which JavaScript
    prints as 0.5019607843137255.  View 1: a new 2x1 target. *)
Definition sceneAlpha : Store :=
  final ((do src <- newMinimalView 2 1;
          paintPixel src 0 0 (rgba 1 2 3 (282578800148737 # 2 ^ 49));;
          paintPixel src 1 0 (rgba 4 5 6 1);;
          do tgt <- newMinimalView 2 1;
          ret tt) emptyStore).

(** View 0: a 1x1 source holding (10^21, 2, 3, 1).  View 1: a new 1x1
    target. *)
Definition sceneHuge : Store :=
  final ((do src <- newMinimalView 1 1;
          paintPixel src 0 0 (rgba (10 ^ 21) 2 3 1);;
          do tgt <- newMinimalView 1 1;
          ret tt) emptyStore).

(** View 0: a new 5x5 source with (128, 128, 128, 1) at its centre (2, 2).
    View 1: a new 3x3 destination, of which (2, 2) is a corner. *)
Definition sceneEdges : Store :=
  final ((do src <- newMinimalView 5 5;
          paintPixel src 2 2 (rgba 128 128 128 1);;
          do dst <- newMinimalView 3 3;
          ret tt) emptyStore).

(** * Properties *)

(** Turns a goal on canonical rationals into a goal on rationals. *)
Ltac qc2q :=
  unfold Qcminus, Qcdiv; unfold Qcplus, Qcopp, Qcmult, Qcinv; unfold Q2Qc;
  cbn [this]; rewrite ?Qred_correct.

(** ** Arithmetic of the number model *)

Lemma this_ofZ (z : Z) : this (Q2Qc (inject_Z z)) = inject_Z z.
Proof.
  simpl. apply Qred_identity. simpl. apply Z.gcd_1_r.
Qed.

Lemma num_eqb_eq (x y : num) : num_eqb x y = true -> x = y.
Proof.
  destruct x as [p|], y as [q|]; simpl; try discriminate; auto.
  intros H. f_equal. apply Qc_is_canon. now apply Qeq_bool_iff.
Qed.

Lemma nlt_ofZ (a b : Z) : nlt (ofZ a) (ofZ b) = (a <? b).
Proof.
  unfold nlt, ofZ, ofQ. rewrite !this_ofZ. unfold Qle_bool. simpl.
  rewrite !Z.mul_1_r. destruct (Z.leb_spec b a), (Z.ltb_spec a b); simpl; auto; lia.
Qed.

Lemma ngt_ofZ (a b : Z) : ngt (ofZ a) (ofZ b) = (b <? a).
Proof. apply nlt_ofZ. Qed.

Lemma Qc_floor_ofZ (z : Z) : Qc_floor (Q2Qc (inject_Z z)) = z.
Proof. unfold Qc_floor. rewrite this_ofZ. apply Qfloor_Z. Qed.

Lemma Qc_ceil_ofZ (z : Z) : Qc_ceil (Q2Qc (inject_Z z)) = z.
Proof. unfold Qc_ceil. rewrite this_ofZ. apply Qceiling_Z. Qed.

Lemma Qfloor_half (z : Z) : Qfloor (inject_Z z + (1 # 2)) = z.
Proof.
  unfold Qfloor, Qplus, inject_Z. simpl.
  symmetry. apply (Z.div_unique _ _ _ 1); lia.
Qed.

Lemma Qc_round_ofZ (z : Z) : Qc_round (Q2Qc (inject_Z z)) = z.
Proof. unfold Qc_round. rewrite this_ofZ. apply Qfloor_half. Qed.

Lemma Math_round_ofZ (z : Z) : Math_round (ofZ z) = ofZ z.
Proof. unfold Math_round, ofZ, ofQ. now rewrite Qc_round_ofZ. Qed.

Lemma toZ_ofZ (z : Z) : toZ (ofZ z) = Some z.
Proof.
  unfold toZ, ofZ, ofQ. rewrite Qc_floor_ofZ, this_ofZ.
  now rewrite (proj2 (Qeq_bool_iff _ _) (Qeq_refl _)).
Qed.

Lemma nadd_ofZ (a b : Z) : nadd (ofZ a) (ofZ b) = ofZ (a + b).
Proof.
  unfold nadd, lift2, ofZ, ofQ. f_equal. apply Qc_is_canon.
  qc2q. now rewrite inject_Z_plus.
Qed.

Lemma nsub_ofZ (a b : Z) : nsub (ofZ a) (ofZ b) = ofZ (a - b).
Proof.
  unfold nsub, lift2, ofZ, ofQ. f_equal. apply Qc_is_canon.
  qc2q. unfold Z.sub. now rewrite inject_Z_plus, inject_Z_opp.
Qed.

Lemma nmul_ofZ (a b : Z) : nmul (ofZ a) (ofZ b) = ofZ (a * b).
Proof.
  unfold nmul, lift2, ofZ, ofQ. f_equal. apply Qc_is_canon.
  qc2q. now rewrite inject_Z_mult.
Qed.

(* normalisation round trip *)
Lemma Qc_255_nz : Qc_is_zero (Q2Qc (inject_Z 255)) = false.
Proof. reflexivity. Qed.

Lemma xlate255_ofZ (k : Z) : 0 <= k <= 255 ->
  xlate255ColorToNormalizedColor (ofZ k) = Fin (Q2Qc (inject_Z k) / Q2Qc (inject_Z 255))%Qc.
Proof.
  intros Hk. unfold xlate255ColorToNormalizedColor.
  rewrite nlt_ofZ. destruct (Z.ltb_spec 255 k); [lia|].
  rewrite nmul_ofZ, Z.mul_1_r. unfold ndiv, ofZ, ofQ. now rewrite Qc_255_nz.
Qed.

Lemma norm_le1 (k : Z) : 0 <= k <= 255 ->
  let p := (Q2Qc (inject_Z k) / Q2Qc (inject_Z 255))%Qc in
  (0 <= this p)%Q /\ (this p <= 1)%Q.
Proof.
  intros Hk p. unfold p. qc2q.
  unfold Qle, Qmult, Qinv, inject_Z; simpl. lia.
Qed.

Lemma nlt_Fin (p q : Qc) : nlt (Fin p) (Fin q) = true <-> (this p < this q)%Q.
Proof.
  unfold nlt. rewrite negb_true_iff. split; intros H.
  - apply Qnot_le_lt. intros Hle. apply Qle_bool_iff in Hle. congruence.
  - destruct (Qle_bool (this q) (this p)) eqn:E; auto.
    apply Qle_bool_iff in E. apply Qle_not_lt in E. contradiction.
Qed.

Lemma nlt_Fin_false (p q : Qc) : (this q <= this p)%Q -> nlt (Fin p) (Fin q) = false.
Proof.
  intros H. unfold nlt. apply negb_false_iff. now apply Qle_bool_iff.
Qed.

Lemma xlateTo255_unit (p : Qc) : (0 <= this p)%Q -> (this p <= 1)%Q ->
  xlateNormalizedColorTo255Color (Fin p) = Math_round (Fin (p * Q2Qc (inject_Z 255))%Qc).
Proof.
  intros H0 H1. unfold xlateNormalizedColorTo255Color, ngt.
  assert (E0 : nlt (Fin p) (ofZ 0) = false) by (apply nlt_Fin_false; exact H0).
  assert (E1 : nlt (ofZ 1) (Fin p) = false) by (apply nlt_Fin_false; exact H1).
  now rewrite E0, E1.
Qed.

Lemma xlateTo255_norm (k : Z) : 0 <= k <= 255 ->
  xlateNormalizedColorTo255Color (Fin (Q2Qc (inject_Z k) / Q2Qc (inject_Z 255))%Qc) = ofZ k.
Proof.
  intros Hk. destruct (norm_le1 k Hk) as [H0 H1].
  rewrite xlateTo255_unit by assumption.
  replace (Q2Qc (inject_Z k) / Q2Qc (inject_Z 255) * Q2Qc (inject_Z 255))%Qc
    with (Q2Qc (inject_Z k)) by (field; discriminate).
  apply Math_round_ofZ.
Qed.


(** ** Color.blend with the CROSS operation *)

Lemma one_is_1 : Q2Qc (inject_Z 1) = 1%Qc. Proof. reflexivity. Qed.
Lemma zero_is_0 : Q2Qc (inject_Z 0) = 0%Qc. Proof. reflexivity. Qed.









Lemma channel255_numeric x : channel255 x -> numeric x.
Proof. intros [k [_ ->]]. eexists; reflexivity. Qed.


(** ** Running a computation step by step *)

Lemma bind_Ret {A B} (m : M A) (k : A -> M B) (s s' : Store) (v : A) :
  m s = Ret v s' -> bind m k s = k v s'.
Proof. intros H. unfold bind. now rewrite H. Qed.

Lemma view_eq (s : Store) (v : nat) (w : MinimalView.t) :
  views s !! v = Some w -> view v s = Ret w s.
Proof. intros H. unfold view. now rewrite H. Qed.

Lemma getWidth_eq (s : Store) (v : nat) (w : MinimalView.t) :
  views s !! v = Some w -> getWidth v s = Ret (MinimalView.width w) s.
Proof. intros H. unfold getWidth. now rewrite (bind_Ret _ _ _ _ _ (view_eq _ _ _ H)). Qed.

Lemma getHeight_eq (s : Store) (v : nat) (w : MinimalView.t) :
  views s !! v = Some w -> getHeight v s = Ret (MinimalView.height w) s.
Proof. intros H. unfold getHeight. now rewrite (bind_Ret _ _ _ _ _ (view_eq _ _ _ H)). Qed.

Lemma getColor_eq (s : Store) (v : nat) (w : MinimalView.t) (x y : Z) :
  views s !! v = Some w ->
  getColor v x y s = Ret (rows_get (MinimalView.colors w) x y) s.
Proof. intros H. unfold getColor. now rewrite (bind_Ret _ _ _ _ _ (view_eq _ _ _ H)). Qed.

Lemma getColorAt_ofZ (s : Store) (v : nat) (w : MinimalView.t) (x y : Z) :
  views s !! v = Some w ->
  getColorAt v (ofZ x) (ofZ y) s = Ret (rows_get (MinimalView.colors w) x y) s.
Proof. intros H. unfold getColorAt. rewrite !toZ_ofZ. now apply getColor_eq. Qed.

Lemma read_eq (s : Store) (l : loc) (c : Color.t) :
  heap s !! l = Some c -> read l s = Ret c s.
Proof. intros H. unfold read. now rewrite H. Qed.

Lemma Math_floor_ofZ z : Math_floor (ofZ z) = ofZ z.
Proof. unfold Math_floor, ofZ, ofQ. now rewrite Qc_floor_ofZ. Qed.
Lemma Math_ceil_ofZ z : Math_ceil (ofZ z) = ofZ z.
Proof. unfold Math_ceil, ofZ, ofQ. now rewrite Qc_ceil_ofZ. Qed.

(** the weighted sum of one channel at an integer coordinate *)
Lemma bilinear_channel (p : Qc) :
  nadd (nmul (nadd (nmul (Fin p) (ofZ 1)) (nmul (Fin p) (ofZ 0))) (ofZ 1))
       (nmul (nadd (nmul (Fin p) (ofZ 1)) (nmul (Fin p) (ofZ 0))) (ofZ 0)) = Fin p.
Proof.
  unfold nadd, nmul, lift2, ofZ, ofQ. rewrite one_is_1, zero_is_0. f_equal. ring.
Qed.

Lemma clamp_unit (p : Qc) : (0 <= this p)%Q -> (this p <= 1)%Q ->
  (let v := if nlt (Fin p) (ofZ 0) then ofZ 0 else Fin p in
   if ngt v (ofZ 1) then ofZ 1 else v) = Fin p.
Proof.
  intros H0 H1. cbv zeta. unfold ngt.
  assert (E0 : nlt (Fin p) (ofZ 0) = false) by (apply nlt_Fin_false; exact H0).
  assert (E1 : nlt (ofZ 1) (Fin p) = false) by (apply nlt_Fin_false; exact H1).
  now rewrite E0, E1.
Qed.

(** C6.  At integer coordinates [0 <= x < width], [0 <= y < height] where the
    surface holds a 255-mode colour with integer channels in 0..255 and an
    alpha in [0, 1], [bilinearInterpolatePixel] returns a new colour with
    exactly that pixel's red, green, blue and alpha (its flags are those of a
    new colour: not transparent, 255-mode), so it is that pixel's colour when
    the pixel is not flagged transparent.  The surface and the existing
    objects are unchanged. *)
Theorem bilinearInterpolatePixel_at_integer
    (s : Store) (v : nat) (w : MinimalView.t) (x y : Z) (l : loc) (c : Color.t) :
  views s !! v = Some w ->
  0 <= x < MinimalView.width w ->
  0 <= y < MinimalView.height w ->
  rows_get (MinimalView.colors w) x y = Some l ->
  heap s !! l = Some c ->
  color255 c ->
  exists (l' : loc) (s' : Store),
    Filters.bilinearInterpolatePixel v (ofZ x) (ofZ y) s = Ret (Some l') s'
    /\ heap s' !! l' =
         Some (Color.mk (Color.r c) (Color.g c) (Color.b c) (Color.a c) false false)
    /\ (Color.transparent c = false -> heap s' !! l' = Some c)
    /\ views s' = views s
    /\ (forall (l0 : loc) (c0 : Color.t), heap s !! l0 = Some c0 -> heap s' !! l0 = Some c0).
Proof.
  intros Hv Hx Hy Hl Hc (Hn & [kr [Hkr Hr]] & [kg [Hkg Hg]] & [kb [Hkb Hb]] & [qa (Ha & Ha0 & Ha1)]).
  exists (length (heap s)), (mkStore (heap s ++ [Color.mk (Color.r c) (Color.g c) (Color.b c) (Color.a c) false false]) (views s)).
  split; [|split; [|split; [|split]]].
  - unfold Filters.bilinearInterpolatePixel.
    rewrite !Math_round_ofZ, !Math_floor_ofZ, !Math_ceil_ofZ, !ngt_ofZ, !nsub_ofZ.
    destruct (Z.ltb_spec x 0); [lia|]. destruct (Z.ltb_spec y 0); [lia|].
    rewrite (bind_Ret _ _ _ _ _ (getWidth_eq _ _ _ Hv)). rewrite nlt_ofZ.
    destruct (Z.ltb_spec (MinimalView.width w) x); [lia|].
    rewrite (bind_Ret _ _ _ _ _ (getHeight_eq _ _ _ Hv)). rewrite nlt_ofZ.
    destruct (Z.ltb_spec (MinimalView.height w) y); [lia|].
    rewrite !Z.sub_diag, Z.sub_0_r.
    rewrite !(bind_Ret _ _ _ _ _ (getColorAt_ofZ _ _ _ _ _ Hv)). rewrite Hl.
    rewrite !(bind_Ret _ _ _ _ _ (read_eq _ _ _ Hc)).
    unfold bind, alloc, ret. do 2 f_equal. f_equal. f_equal.
    destruct c as [cr cg cb ca ct cn]; simpl in *; subst.
    unfold Color.getNormalizedColor; cbn [Color.normalized negb Color.r Color.g Color.b Color.a].
    rewrite !xlate255_ofZ by assumption.
    unfold Color.multiplyNumber, Color.addColor; cbn [Color.normalized negb Color.r Color.g Color.b Color.a Color.transparent].
    rewrite !bilinear_channel.
    unfold Color.clamp, Color.get255Color; cbn [Color.normalized negb Color.r Color.g Color.b Color.a Color.transparent].
    destruct (norm_le1 kr Hkr), (norm_le1 kg Hkg), (norm_le1 kb Hkb).
    rewrite !clamp_unit by assumption.
    now rewrite !xlateTo255_norm by assumption.
  - simpl. rewrite lookup_app_r by lia. now rewrite Nat.sub_diag.
  - intros Ht. simpl. rewrite lookup_app_r by lia. rewrite Nat.sub_diag. simpl.
    destruct c; simpl in *; now subst.
  - reflexivity.
  - intros l0 c0 H0. simpl. apply lookup_app_l_Some. exact H0.
Qed.

(** ** Computations that leave the store as it is *)

Lemma readonly_Ret {A} (m : M A) s v s' : readonly m -> m s = Ret v s' -> s' = s.
Proof. intros H E. specialize (H s). now rewrite E in H. Qed.

Lemma readonly_ret {A} (v : A) : readonly (ret v).
Proof. now intros s. Qed.

Lemma readonly_throw {A} (e : Error) : readonly (@throw A e).
Proof. now intros s. Qed.

Lemma readonly_bind {A B} (m : M A) (k : A -> M B) :
  readonly m -> (forall v, readonly (k v)) -> readonly (bind m k).
Proof.
  intros Hm Hk s. unfold bind. destruct (m s) eqn:E.
  - rewrite (readonly_Ret _ _ _ _ Hm E). apply Hk.
  - specialize (Hm s). now rewrite E in Hm.
Qed.

Lemma readonly_view v : readonly (view v).
Proof. intros s. unfold view. now destruct (views s !! v). Qed.

Lemma readonly_read l : readonly (read l).
Proof. intros s. unfold read. now destruct (heap s !! l). Qed.

Lemma readonly_deref o : readonly (deref o).
Proof. destruct o; simpl; auto using readonly_read, readonly_throw. Qed.

Lemma readonly_getWidth v : readonly (getWidth v).
Proof. apply readonly_bind; auto using readonly_view, readonly_ret. Qed.

Lemma readonly_getHeight v : readonly (getHeight v).
Proof. apply readonly_bind; auto using readonly_view, readonly_ret. Qed.

Lemma readonly_getColor v x y : readonly (getColor v x y).
Proof. apply readonly_bind; auto using readonly_view, readonly_ret. Qed.

Lemma readonly_getColorAt v x y : readonly (getColorAt v x y).
Proof.
  unfold getColorAt. destruct (toZ x), (toZ y); auto using readonly_getColor, readonly_ret.
Qed.

Lemma readonly_foldM {A S} (l : list A) (body : S -> A -> M S) :
  (forall acc i, readonly (body acc i)) -> forall acc, readonly (foldM l acc body).
Proof.
  intros Hb. induction l as [|i l IH]; intros acc; simpl.
  - apply readonly_ret.
  - apply readonly_bind; auto.
Qed.

Create HintDb readonly.
#[export] Hint Resolve readonly_ret readonly_throw readonly_view readonly_read
  readonly_deref readonly_getWidth readonly_getHeight readonly_getColor
  readonly_getColorAt : readonly.

Lemma final_bind {A B} (P : Store -> Prop) (m : M A) (k : A -> M B) (s : Store) :
  P (final (m s)) ->
  (forall v s', m s = Ret v s' -> P (final (k v s'))) ->
  P (final (bind m k s)).
Proof.
  intros Hm Hk. unfold bind. destruct (m s) eqn:E; auto.
Qed.

Lemma final_forEach {A} (P : Store -> Prop) (l : list A) (body : A -> M unit) :
  (forall i s, i ∈ l -> P s -> P (final (body i s))) ->
  forall s, P s -> P (final (forEach l body s)).
Proof.
  induction l as [|i l IH]; intros Hb s Hs; simpl; auto.
  apply final_bind.
  - apply Hb; auto. left.
  - intros [] s' E. apply IH.
    + intros j t Hj. apply Hb. now right.
    + specialize (Hb i s (list_elem_of_here _ _) Hs). now rewrite E in Hb.
Qed.

(** ** What [setColor] changes, and what it keeps *)

Lemma rows_get_set_ne (cs : list (list loc)) (i j x y : Z) (l : loc) :
  (x, y) <> (i, j) -> rows_get (rows_set cs i j l) x y = rows_get cs x y.
Proof.
  intros Hne. unfold rows_set.
  destruct ((0 >? i) || (0 >? j) || (j >=? Z.of_nat (length cs))) eqn:Eg; auto.
  destruct (cs !! Z.to_nat j) as [row|] eqn:Erow; auto.
  destruct (i >=? Z.of_nat (length row)) eqn:Ei; auto.
  unfold rows_get. rewrite length_insert.
  destruct ((0 >? x) || (0 >? y) || (y >=? Z.of_nat (length cs))) eqn:Eg'; auto.
  apply orb_false_iff in Eg as [Eg Eg3]. apply orb_false_iff in Eg as [Eg1 Eg2].
  apply orb_false_iff in Eg' as [Eg' Eg3']. apply orb_false_iff in Eg' as [Eg1' Eg2'].
  destruct (decide (y = j)) as [->|Hy].
  - rewrite list_lookup_insert_eq by lia. rewrite Erow, length_insert.
    destruct (x >=? Z.of_nat (length row)); auto.
    apply list_lookup_insert_ne. intros E. apply Hne. f_equal. lia.
  - rewrite list_lookup_insert_ne by lia. reflexivity.
Qed.

Lemma setColor_heap s v i j o : heap (final (setColor v i j o s)) = heap s.
Proof.
  destruct o as [l|]; simpl; auto. unfold bind, view.
  destruct (views s !! v); reflexivity.
Qed.

Lemma setColor_dims s v i j o u : dims (final (setColor v i j o s)) u = dims s u.
Proof.
  destruct o as [l|]; simpl; auto. unfold bind, view.
  destruct (views s !! v) as [w|] eqn:E; simpl; auto.
  unfold dims. simpl. destruct (decide (u = v)) as [->|Hne].
  - rewrite list_lookup_insert_eq by (eapply lookup_lt_Some; eauto). now rewrite E.
  - now rewrite list_lookup_insert_ne by auto.
Qed.

Lemma setColor_cell_ne s v i j o u x y :
  u <> v \/ (x, y) <> (i, j) ->
  cell (final (setColor v i j o s)) u x y = cell s u x y.
Proof.
  intros Hne. destruct o as [l|]; simpl; auto. unfold bind, view.
  destruct (views s !! v) as [w|] eqn:E; simpl; auto.
  unfold cell. simpl. destruct (decide (u = v)) as [->|Hu].
  - rewrite list_lookup_insert_eq by (eapply lookup_lt_Some; eauto). rewrite E. simpl.
    destruct Hne as [?|Hne]; [congruence|]. now apply rows_get_set_ne.
  - now rewrite list_lookup_insert_ne by auto.
Qed.

Lemma heap_ext_refl s : heap_ext s s.
Proof. now intros l c. Qed.

Section DetectEdgesFrame.

Variables (s0 : Store) (src dst : nat) (x y : Z) (w0 : MinimalView.t).
Hypothesis Hsrc : views s0 !! src = Some w0.
Hypothesis Hborder :
  x <= 0 \/ MinimalView.width w0 - 1 <= x \/ y <= 0 \/ MinimalView.height w0 - 1 <= y.

Lemma edgeInv_init : edgeInv s0 dst x y s0.
Proof. repeat split; auto. apply heap_ext_refl. Qed.

Lemma readonly_edgeSum i1 i2 c : readonly (Filters.edgeSum src i1 i2 c).
Proof.
  unfold Filters.edgeSum. apply readonly_foldM. intros acc m1.
  apply readonly_foldM. intros [oSum fAlpha] m2.
  apply readonly_bind; auto with readonly.
  intros [l|]; auto with readonly.
  apply readonly_bind; auto with readonly.
Qed.

Lemma edgeInv_write (t : Store) (i1 i2 : Z) (c : Color.t) :
  (x, y) <> (i1, i2) -> edgeInv s0 dst x y t ->
  edgeInv s0 dst x y (final ((do n <- alloc c; setColor dst i1 i2 (Some n)) t)).
Proof.
  intros Hne (Hh & Hd & Hc). unfold bind at 1. simpl.
  set (t1 := mkStore (heap t ++ [c]) (views t)).
  repeat split.
  - intros l c' Hl. change (heap (final (setColor dst i1 i2 (Some (length (heap t))) t1)) !! l = Some c').
    rewrite setColor_heap. simpl. apply lookup_app_l_Some. auto.
  - intros u. change (dims (final (setColor dst i1 i2 (Some (length (heap t))) t1)) u = dims s0 u).
    rewrite setColor_dims. apply Hd.
  - change (cell (final (setColor dst i1 i2 (Some (length (heap t))) t1)) dst x y = cell s0 dst x y).
    rewrite setColor_cell_ne by auto. exact Hc.
Qed.

Lemma edgeInv_pixel (t : Store) (i1 i2 : Z) :
  (x, y) <> (i1, i2) -> edgeInv s0 dst x y t ->
  edgeInv s0 dst x y (final (
    (let oSumColor := Color.getNormalizedColor Color.new0 in
      do o <- getColor src i1 i2;
      do c <- deref o;
      let oOutColor := Color.getNormalizedColor c in
      let oOutColor := Color.grayscale oOutColor in
      let oSumColor := Color.assignNumber oSumColor (ofZ 0) in
      do acc <- Filters.edgeSum src i1 i2 oSumColor;
      let '(oSumColor, fAlphaValue) := acc in
      let oSumColor := Color.clamp oSumColor in
      let oSumColor := Color.grayscale oSumColor in
      let oGraySumColor := oSumColor in
      if ngt (Color.r oGraySumColor) (Color.r oOutColor) then
        let c255 := Color.get255Color oSumColor in
        do oNewColor <- alloc (Color.mk (Color.r c255) (Color.g c255) (Color.b c255)
                                        fAlphaValue (Color.transparent c255)
                                        (Color.normalized c255));
        setColor dst i1 i2 (Some oNewColor)
      else ret tt) t)).
Proof.
  intros Hne HI. cbv zeta.
  apply final_bind; [now rewrite readonly_getColor|].
  intros o t1 E1. apply (readonly_Ret _ _ _ _ (readonly_getColor _ _ _)) in E1. subst t1.
  apply final_bind; [now rewrite readonly_deref|].
  intros c t1 E1. apply (readonly_Ret _ _ _ _ (readonly_deref _)) in E1. subst t1.
  apply final_bind; [now rewrite readonly_edgeSum|].
  intros [oSum fAlpha] t1 E1. apply (readonly_Ret _ _ _ _ (readonly_edgeSum _ _ _)) in E1. subst t1.
  match goal with |- context [if ?b then _ else _] => destruct b end.
  - now apply edgeInv_write.
  - exact HI.
Qed.

Lemma detectEdges_edgeInv : edgeInv s0 dst x y (final (Filters.detectEdges src dst s0)).
Proof.
  unfold Filters.detectEdges.
  rewrite (bind_Ret _ _ _ _ _ (getWidth_eq _ _ _ Hsrc)).
  apply final_forEach; [|apply edgeInv_init].
  intros i1 t Hi1 HI.
  assert (Hdim : dims t src = Some (MinimalView.width w0, MinimalView.height w0)).
  { destruct HI as (_ & Hd & _). rewrite Hd. unfold dims. now rewrite Hsrc. }
  unfold dims in Hdim. destruct (views t !! src) as [wt|] eqn:Et; [|discriminate].
  injection Hdim as Hw Hh.
  rewrite (bind_Ret _ _ _ _ _ (getHeight_eq _ _ _ Et)). rewrite Hh.
  apply final_forEach; [|exact HI].
  intros i2 t' Hi2 HI'.
  apply elem_of_seqZ in Hi1, Hi2.
  apply edgeInv_pixel; auto.
  intros E. injection E as -> ->. lia.
Qed.

End DetectEdgesFrame.

(** ** Histogram tables *)

Lemma zeros_table : HistogramResult.zeros = table (fun _ => 0).
Proof. vm_compute. reflexivity. Qed.

Lemma table_length f : length (table f) = 256%nat.
Proof. unfold table. now rewrite length_map, length_seqZ. Qed.

Lemma table_lookup f (i : nat) : (i < 256)%nat ->
  table f !! i = Some (ofZ (f (Z.of_nat i))).
Proof.
  intros Hi. unfold table. rewrite list_lookup_fmap.
  rewrite lookup_seqZ_lt by lia. reflexivity.
Qed.

Lemma table_ext f g : (forall k, 0 <= k < 256 -> f k = g k) -> table f = table g.
Proof.
  intros H. unfold table. apply map_ext_in. intros k Hk.
  apply list_elem_of_In, elem_of_seqZ in Hk. f_equal. apply H. lia.
Qed.


Lemma num_eqb_ofZ (a b : Z) : num_eqb (ofZ a) (ofZ b) = (a =? b).
Proof.
  unfold num_eqb, ofZ, ofQ. rewrite !this_ofZ.
  destruct (Z.eqb_spec a b) as [->|Hne].
  - apply Qeq_bool_iff. reflexivity.
  - destruct (Qeq_bool (inject_Z a) (inject_Z b)) eqn:E; auto.
    apply Qeq_bool_iff in E. unfold Qeq in E. simpl in E. lia.
Qed.

Lemma bump_table f (k : Z) : 0 <= k < 256 ->
  arr_set (table f) (ofZ k) (nadd (arr_get (table f) (ofZ k)) (ofZ 1))
  = table (fun j => f j + (if j =? k then 1 else 0)).
Proof.
  intros Hk. unfold arr_set, arr_get. rewrite toZ_ofZ.
  destruct (Z.ltb_spec k 0); [lia|].
  rewrite table_lookup by lia. cbn [default from_option id]. rewrite Z2Nat.id by lia. rewrite nadd_ofZ.
  rewrite table_length. destruct (Nat.ltb_spec (Z.to_nat k) 256); [|lia].
  apply list_eq. intros i.
  destruct (decide (i < 256)%nat) as [Hi|Hi].
  - rewrite (table_lookup _ i Hi).
    destruct (decide (i = Z.to_nat k)) as [->|Hne].
    + rewrite list_lookup_insert_eq by (rewrite table_length; lia).
      rewrite Z2Nat.id by lia. now rewrite Z.eqb_refl.
    + rewrite list_lookup_insert_ne by auto. rewrite table_lookup by auto.
      destruct (Z.eqb_spec (Z.of_nat i) k); [lia|]. now rewrite Z.add_0_r.
  - rewrite !lookup_ge_None_2; auto.
    + rewrite table_length; lia.
    + rewrite length_insert, table_length; lia.
Qed.

Lemma alphaBucket_range (c : Color.t) : unitValue (Color.a c) ->
  exists k, 0 <= k <= 255 /\ alphaBucket c = ofZ k.
Proof.
  intros [q (Hq & H0 & H1)]. unfold alphaBucket. rewrite Hq.
  unfold nmul, lift2, ofZ at 1, ofQ, Math_round.
  exists (Qc_round (q * Q2Qc (inject_Z 255))). split; auto.
  unfold Qc_round.
  assert (E : (this (q * Q2Qc (inject_Z 255))%Qc == this q * 255)%Q).
  { qc2q. reflexivity. }
  rewrite E. clear Hq E. generalize dependent (this q). intros a H0 H1. split.
  - apply (Qfloor_resp_le (0 + (1 # 2))). lra.
  - apply (Qfloor_resp_le _ (255 + (1 # 2))). lra.
Qed.

Lemma histogramPixel_table (fr fg fb fa : Z -> Z) (c : Color.t) :
  validPixel c ->
  Filters.histogramPixel
    (HistogramResult.mk (table fr) (table fg) (table fb) (table fa)) c
  = HistogramResult.mk
      (table (fun k => fr k + (if num_eqb (Color.r c) (ofZ k) then 1 else 0)))
      (table (fun k => fg k + (if num_eqb (Color.g c) (ofZ k) then 1 else 0)))
      (table (fun k => fb k + (if num_eqb (Color.b c) (ofZ k) then 1 else 0)))
      (table (fun k => fa k + (if num_eqb (alphaBucket c) (ofZ k) then 1 else 0))).
Proof.
  intros ([kr [Hkr Hr]] & [kg [Hkg Hg]] & [kb [Hkb Hb]] & Ha).
  destruct (alphaBucket_range c Ha) as [ka [Hka Ea]].
  unfold Filters.histogramPixel; cbn [HistogramResult.red HistogramResult.green
    HistogramResult.blue HistogramResult.alpha].
  fold (alphaBucket c). rewrite Hr, Hg, Hb, Ea.
  rewrite !bump_table by lia.
  f_equal; apply table_ext; intros k Hk; rewrite num_eqb_ofZ, (Z.eqb_sym k); reflexivity.
Qed.

Lemma fold_histogramPixel (cs : list Color.t) : Forall validPixel cs ->
  forall fr fg fb fa : Z -> Z,
  fold_left Filters.histogramPixel cs
    (HistogramResult.mk (table fr) (table fg) (table fb) (table fa))
  = HistogramResult.mk
      (table (fun k => fr k + count (fun c => num_eqb (Color.r c) (ofZ k)) cs))
      (table (fun k => fg k + count (fun c => num_eqb (Color.g c) (ofZ k)) cs))
      (table (fun k => fb k + count (fun c => num_eqb (Color.b c) (ofZ k)) cs))
      (table (fun k => fa k + count (fun c => num_eqb (alphaBucket c) (ofZ k)) cs)).
Proof.
  induction 1 as [|c cs Hc _ IH]; intros fr fg fb fa; simpl.
  - f_equal; apply table_ext; intros; lia.
  - rewrite histogramPixel_table by assumption. rewrite IH.
    f_equal; apply table_ext; intros; lia.
Qed.

Lemma count_nonneg p cs : 0 <= count p cs.
Proof. induction cs as [|c cs IH]; simpl; [lia|]. destruct (p c); lia. Qed.

Lemma foldM_pure {A S} (l : list A) (body : S -> A -> M S) (f : S -> A -> S) (s : Store) :
  (forall acc i, i ∈ l -> body acc i s = Ret (f acc i) s) ->
  forall acc, foldM l acc body s = Ret (fold_left f l acc) s.
Proof.
  induction l as [|i l IH]; intros Hb acc; simpl; [reflexivity|].
  rewrite (bind_Ret _ _ _ _ _ (Hb acc i (list_elem_of_here _ _))).
  apply IH. intros acc' j Hj. apply Hb. now right.
Qed.

Lemma fold_left_omap {A B S} (f : S -> B -> S) (g : A -> option B) (l : list A) (acc : S) :
  fold_left (fun acc i => match g i with Some b => f acc b | None => acc end) l acc
  = fold_left f (omap g l) acc.
Proof.
  revert acc. induction l as [|i l IH]; intros acc; simpl; [reflexivity|].
  destruct (g i); simpl; apply IH.
Qed.

Lemma fold_left_concat {A B S} (f : S -> B -> S) (g : A -> list B) (l : list A) (acc : S) :
  fold_left (fun acc i => fold_left f (g i) acc) l acc
  = fold_left f (concat (map g l)) acc.
Proof.
  revert acc. induction l as [|i l IH]; intros acc; simpl; [reflexivity|].
  rewrite fold_left_app. apply IH.
Qed.

Section Histogram.

Variables (s : Store) (v : nat) (w : MinimalView.t).
Hypothesis Hv : views s !! v = Some w.
Hypothesis Hvalid : forall x y l,
  0 <= x < MinimalView.width w -> 0 <= y < MinimalView.height w ->
  rows_get (MinimalView.colors w) x y = Some l ->
  exists c, heap s !! l = Some c /\ validPixel c.

Lemma histogram_scan :
  Filters.histogram v s = Ret (fold_left Filters.histogramPixel (scan s v) HistogramResult.new) s.
Proof.
  unfold Filters.histogram, scan. rewrite Hv.
  rewrite (bind_Ret _ _ _ _ _ (getWidth_eq _ _ _ Hv)).
  rewrite <- fold_left_concat.
  apply foldM_pure. intros acc x Hx. apply elem_of_seqZ in Hx.
  rewrite (bind_Ret _ _ _ _ _ (getHeight_eq _ _ _ Hv)).
  rewrite <- fold_left_omap.
  apply foldM_pure. intros acc' y Hy. apply elem_of_seqZ in Hy.
  rewrite (bind_Ret _ _ _ _ _ (getColor_eq _ _ _ _ _ Hv)).
  unfold pixel. rewrite Hv.
  destruct (rows_get (MinimalView.colors w) x y) as [l|] eqn:El; [|reflexivity].
  destruct (Hvalid x y l) as [c [Hc _]]; [lia|lia|assumption|].
  rewrite (bind_Ret _ _ _ _ _ (read_eq _ _ _ Hc)). now rewrite Hc.
Qed.

Lemma scan_valid : Forall validPixel (scan s v).
Proof.
  unfold scan. rewrite Hv. apply Forall_concat, Forall_forall.
  intros row Hrow. apply list_elem_of_In, list_elem_of_fmap in Hrow as [x [-> Hx]].
  apply elem_of_seqZ in Hx. apply Forall_forall. intros c Hc.
  apply list_elem_of_In, list_elem_of_omap in Hc as [y [Hy Hp]]. apply elem_of_seqZ in Hy.
  unfold pixel in Hp. rewrite Hv in Hp.
  destruct (rows_get (MinimalView.colors w) x y) as [l|] eqn:El; [|discriminate].
  destruct (Hvalid x y l) as [c' [Hc' Hval]]; [lia|lia|assumption|].
  congruence.
Qed.

End Histogram.







(** ** erosion *)

Lemma pixel_cell (s : Store) (v : nat) (x y : Z) :
  pixel s v x y = match cell s v x y with Some l => heap s !! l | None => None end.
Proof. unfold pixel, cell. now destruct (views s !! v). Qed.

Lemma rows_get_set_eq (cs : list (list loc)) (i j : Z) (l : loc) :
  is_Some (rows_get cs i j) -> rows_get (rows_set cs i j l) i j = Some l.
Proof.
  intros [l0 H]. unfold rows_get, rows_set in *.
  destruct ((0 >? i) || (0 >? j) || (j >=? Z.of_nat (length cs))) eqn:Eg; [discriminate|].
  destruct (cs !! Z.to_nat j) as [row|] eqn:Erow; [|discriminate].
  destruct (i >=? Z.of_nat (length row)) eqn:Ei; [discriminate|].
  rewrite length_insert, Eg.
  rewrite list_lookup_insert_eq by (eapply lookup_lt_Some; eauto).
  rewrite length_insert, Ei.
  apply list_lookup_insert_eq. eapply lookup_lt_Some; eauto.
Qed.

Lemma setColor_cell_eq s v i j l :
  is_Some (cell s v i j) -> cell (final (setColor v i j (Some l) s)) v i j = Some l.
Proof.
  unfold cell. intros H. simpl. unfold bind, view.
  destruct (views s !! v) as [w|] eqn:E; [|now destruct H].
  simpl. rewrite list_lookup_insert_eq by (eapply lookup_lt_Some; eauto). simpl.
  now apply rows_get_set_eq.
Qed.

Lemma setColor_cell_same s v u i j l :
  cell s u i j = Some l ->
  forall x y, cell (final (setColor v i j (Some l) s)) u x y = cell s u x y.
Proof.
  intros H x y. destruct (decide (u = v)) as [->|Hu].
  - destruct (decide ((x, y) = (i, j))) as [E|Hne].
    + injection E as -> ->. rewrite setColor_cell_eq by (rewrite H; eauto). now rewrite H.
    + apply setColor_cell_ne. now right.
  - apply setColor_cell_ne. now left.
Qed.

Lemma setColor_Ret s v i j o : is_Some (views s !! v) ->
  setColor v i j o s = Ret tt (final (setColor v i j o s)).
Proof.
  intros [w E]. destruct o as [l|]; simpl; [|reflexivity].
  unfold bind, view. now rewrite E.
Qed.

Lemma cell_is_Some_view s v x y : is_Some (cell s v x y) -> is_Some (views s !! v).
Proof. unfold cell. destruct (views s !! v); eauto. intros [? ?]; discriminate. Qed.

Lemma isKindaSortaEqual_refl (x t : num) : nlt t (ofZ 0) = false ->
  isKindaSortaEqual x x t = true.
Proof.
  intros Ht. unfold isKindaSortaEqual, ngt.
  destruct x as [p|], t as [q|]; auto.
  assert (Hq : (0 <= this q)%Q).
  { unfold nlt, ofZ, ofQ in Ht. apply negb_false_iff in Ht.
    rewrite this_ofZ in Ht. now apply Qle_bool_iff in Ht. }
  unfold nadd, nsub, lift2.
  rewrite (nlt_Fin_false (p + q)%Qc p), (nlt_Fin_false p (p - q)%Qc); auto.
  - qc2q. generalize dependent (this q). generalize (this p). intros; lra.
  - qc2q. generalize dependent (this q). generalize (this p). intros; lra.
Qed.

Lemma isEqual_refl (c : Color.t) (t : num) : nlt t (ofZ 0) = false ->
  Color.isEqual c c t = true.
Proof.
  intros Ht. unfold Color.isEqual.
  assert (Ht' : nlt (if truthy t then t else ofZ 0) (ofZ 0) = false)
    by (destruct (truthy t); auto).
  rewrite !isKindaSortaEqual_refl by assumption. simpl.
  now rewrite Bool.eqb_reflx.
Qed.

Section Erosion3x3.

Variables (src : nat) (tol : num) (ln : loc) (ce cn : Color.t).
Hypothesis Hmatch :
  isKindaSortaEqual (Color.r cn) (Color.r ce) tol
  && isKindaSortaEqual (Color.g cn) (Color.g ce) tol
  && isKindaSortaEqual (Color.b cn) (Color.b ce) tol = true.

(** one counted neighbour *)
Lemma erosion_neighbour (t : Store) (x y sCount : Z) :
  heap t !! ln = Some cn -> pixel t src x y = Some ce ->
  (do o <- getColor src x y;
   do nc <- deref (Some ln);
   do oNeighborColor <- deref o;
   if isKindaSortaEqual (Color.r nc) (Color.r oNeighborColor) tol
      && isKindaSortaEqual (Color.g nc) (Color.g oNeighborColor) tol
      && isKindaSortaEqual (Color.b nc) (Color.b oNeighborColor) tol
   then ret (sCount + 1) else ret sCount) t = Ret (sCount + 1) t.
Proof.
  intros Hn Hp. unfold pixel in Hp.
  destruct (views t !! src) as [w|] eqn:Ev; [|discriminate].
  rewrite (bind_Ret _ _ _ _ _ (getColor_eq _ _ _ _ _ Ev)).
  destruct (rows_get (MinimalView.colors w) x y) as [l|]; [|discriminate].
  simpl deref.
  rewrite (bind_Ret _ _ _ _ _ (read_eq _ _ _ Hn)).
  rewrite (bind_Ret _ _ _ _ _ (read_eq _ _ _ Hp)).
  now rewrite Hmatch.
Qed.

Lemma erosionCount_3x3 (t : Store) :
  heap t !! ln = Some cn ->
  (forall x y, 0 <= x < 3 -> 0 <= y < 3 -> pixel t src x y = Some ce) ->
  Filters.erosionCount src 1 1 tol (Some ln) t = Ret 6 t.
Proof.
  intros Hn Hp. unfold Filters.erosionCount. cbn [foldM].
  change (1 + -1) with 0. change (1 + 0) with 1. change (1 + 1) with 2.
  change (0 <? 0) with false. change (0 <? 1) with true. change (0 <? 2) with true.
  cbv iota.
  repeat (first
    [ reflexivity
    | apply erosion_neighbour; [exact Hn | apply Hp; lia]
    | etransitivity; [apply bind_Ret|cbv beta] ]).
Qed.

End Erosion3x3.

Lemma forEach_singleton {A} (i : A) (body : A -> M unit) (s : Store) :
  forEach [i] body s = body i s.
Proof. simpl. unfold bind. destruct (body i s) as [[] t|e t]; reflexivity. Qed.

(** C4, as amended.  On a 3x3 source whose nine pixels all equal the erosion
    colour, which matches the neighbour colour within a tolerance that is not
    negative, [erosion] counts six cells for the interior pixel (1, 1): the
    three of row 1, the pixel itself among them, and the three of row 2; row 0
    is left out by the guard [0 < y + dy].  So with threshold 7 the pixel
    (1, 1) of the destination holds the copy of the source pixel and not the
    replacement colour; it is overwritten with the replacement colour exactly
    when the threshold is below 6, for instance with threshold 5. *)
Theorem erosion_3x3_uniform
    (s : Store) (src dst : nat) (ws : MinimalView.t) (le ln lr : loc)
    (ce cn cr : Color.t) (thr tol : num) :
  views s !! src = Some ws ->
  MinimalView.width ws = 3 -> MinimalView.height ws = 3 ->
  (forall x y, 0 <= x < 3 -> 0 <= y < 3 -> pixel s src x y = Some ce) ->
  heap s !! le = Some ce -> heap s !! ln = Some cn -> heap s !! lr = Some cr ->
  nlt tol (ofZ 0) = false ->
  isKindaSortaEqual (Color.r cn) (Color.r ce) tol
  && isKindaSortaEqual (Color.g cn) (Color.g ce) tol
  && isKindaSortaEqual (Color.b cn) (Color.b ce) tol = true ->
  is_Some (cell s dst 1 1) ->
  let s' := final (Filters.erosion src dst (Some le) thr tol (Some ln) (Some lr) s) in
  (cell s' dst 1 1 = if ngt (ofZ 6) thr then Some lr else cell s src 1 1)
  /\ (pixel s' dst 1 1 = if ngt (ofZ 6) thr then Some cr else Some ce)
  /\ (thr = ofZ 7 -> pixel s' dst 1 1 = Some ce)
  /\ (thr = ofZ 5 -> pixel s' dst 1 1 = Some cr).
Proof.
  intros Hv Hw Hh Hp He Hn Hr Htol Hmatch Hdst s'.
  assert (H11 := Hp 1 1 ltac:(lia) ltac:(lia)).
  rewrite pixel_cell in H11.
  destruct (cell s src 1 1) as [l11|] eqn:Ec; [|discriminate].
  set (s1 := final (setColor dst 1 1 (Some l11) s)).
  assert (Hheap1 : heap s1 = heap s) by apply setColor_heap.
  assert (Hcell1 : forall x y, cell s1 src x y = cell s src x y)
    by (apply setColor_cell_same; exact Ec).
  assert (Hpix1 : forall x y, 0 <= x < 3 -> 0 <= y < 3 -> pixel s1 src x y = Some ce).
  { intros x y Hx Hy. rewrite pixel_cell, Hcell1, Hheap1, <- pixel_cell. now apply Hp. }
  assert (Hd1 : cell s1 dst 1 1 = Some l11) by (now apply setColor_cell_eq).
  assert (Hrun : Filters.erosion src dst (Some le) thr tol (Some ln) (Some lr) s
                 = (if ngt (ofZ 6) thr then setColor dst 1 1 (Some lr) else ret tt) s1).
  { unfold Filters.erosion.
    rewrite (bind_Ret _ _ _ _ _ (getHeight_eq _ _ _ Hv)), Hh.
    change (seqZ 1 (3 - 2)) with [1]. rewrite forEach_singleton.
    rewrite (bind_Ret _ _ _ _ _ (getWidth_eq _ _ _ Hv)), Hw.
    change (seqZ 1 (3 - 2)) with [1]. rewrite forEach_singleton.
    rewrite (bind_Ret _ _ _ _ _ (getColor_eq _ _ _ _ _ Hv)).
    unfold cell in Ec. rewrite Hv in Ec. rewrite Ec.
    assert (Hset : setColor dst 1 1 (Some l11) s = Ret tt s1)
      by (apply setColor_Ret; eapply cell_is_Some_view; eauto).
    rewrite (bind_Ret _ _ _ _ _ Hset).
    assert (E11 : heap s1 !! l11 = Some ce) by (now rewrite Hheap1).
    assert (Ee : heap s1 !! le = Some ce) by (now rewrite Hheap1).
    assert (En : heap s1 !! ln = Some cn) by (now rewrite Hheap1).
    simpl deref.
    rewrite (bind_Ret _ _ _ _ _ (read_eq _ _ _ E11)).
    rewrite (bind_Ret _ _ _ _ _ (read_eq _ _ _ Ee)).
    rewrite isEqual_refl by assumption.
    rewrite (bind_Ret _ _ _ _ _ (erosionCount_3x3 src tol ln ce cn Hmatch s1 En Hpix1)).
    destruct (ngt (ofZ 6) thr).
    - destruct (setColor dst 1 1 (Some lr) s1) as [[] t|e t]; reflexivity.
    - reflexivity. }
  assert (Hcellf : cell s' dst 1 1 = if ngt (ofZ 6) thr then Some lr else cell s src 1 1).
  { unfold s'. rewrite Hrun. destruct (ngt (ofZ 6) thr).
    - apply setColor_cell_eq. rewrite Hd1. eauto.
    - simpl. now rewrite Hd1, Ec. }
  assert (Hheapf : heap s' = heap s).
  { unfold s'. rewrite Hrun. destruct (ngt (ofZ 6) thr).
    - now rewrite setColor_heap.
    - exact Hheap1. }
  assert (Hpixf : pixel s' dst 1 1 = if ngt (ofZ 6) thr then Some cr else Some ce).
  { rewrite pixel_cell, Hcellf, Hheapf. destruct (ngt (ofZ 6) thr); auto. now rewrite Ec. }
  split; [rewrite Hcellf, Ec; reflexivity|split; [exact Hpixf|split]].
  - intros E. rewrite Hpixf, E. now rewrite ngt_ofZ.
  - intros E. rewrite Hpixf, E. now rewrite ngt_ofZ.
Qed.

(** ** Strings: [split] and the characters of printed numbers *)

Lemma sapp_assoc (a b c : string) : (a +++ b) +++ c = a +++ (b +++ c).
Proof. induction a as [|x a IH]; simpl; [reflexivity|now rewrite IH]. Qed.

Lemma sapp_nil_r (a : string) : a +++ EmptyString = a.
Proof. induction a as [|x a IH]; simpl; [reflexivity|now rewrite IH]. Qed.

Lemma occurs_app (c : ascii) (a b : string) :
  Filters.indexOf (a +++ b) c = Filters.indexOf a c || Filters.indexOf b c.
Proof.
  induction a as [|x a IH]; simpl; [reflexivity|].
  rewrite IH. now rewrite orb_assoc.
Qed.

Lemma split_app (sep : ascii) (a b : string) :
  Filters.indexOf a sep = false -> split sep (a +++ String sep b) = a :: split sep b.
Proof.
  induction a as [|x a IH]; simpl; intros H.
  - now rewrite Ascii.eqb_refl.
  - apply orb_false_iff in H as [Hx Ha]. rewrite Hx, IH by assumption. reflexivity.
Qed.

Lemma split_clean (sep : ascii) (a : string) :
  Filters.indexOf a sep = false -> split sep a = [a].
Proof.
  induction a as [|x a IH]; simpl; intros H; [reflexivity|].
  apply orb_false_iff in H as [Hx Ha]. rewrite Hx, IH by assumption. reflexivity.
Qed.

Lemma num_chars_app (a b : string) : num_chars (a +++ b) = num_chars a && num_chars b.
Proof.
  induction a as [|x a IH]; simpl; [reflexivity|]. rewrite IH. now rewrite andb_assoc.
Qed.

Lemma is_digit_digit_char (d : Z) : is_digit (digit_char d) = true.
Proof.
  unfold digit_char.
  destruct (nth_in_or_default (Z.to_nat d) digit_chars "9"%char) as [H | ->]; [|reflexivity].
  revert H. generalize (nth (Z.to_nat d) digit_chars "9"%char). intros c H.
  simpl in H. repeat (destruct H as [<-|H]; [reflexivity|]). destruct H.
Qed.

Lemma digit_val_digit_char (d : Z) : 0 <= d <= 9 -> digit_val (digit_char d) = d.
Proof.
  intros H.
  assert (E : d = 0 \/ d = 1 \/ d = 2 \/ d = 3 \/ d = 4 \/ d = 5 \/ d = 6 \/ d = 7
              \/ d = 8 \/ d = 9) by lia.
  repeat (destruct E as [-> | E]; [reflexivity|]). now subst.
Qed.

Lemma num_char_digit (c : ascii) : is_digit c = true -> num_char c = true.
Proof. intros H. unfold num_char. now rewrite H. Qed.

Lemma num_char_not_sep (c sep : ascii) :
  num_char c = true -> num_char sep = false -> Ascii.eqb c sep = false.
Proof.
  intros Hc Hs. destruct (Ascii.eqb_spec c sep) as [->|]; [congruence|reflexivity].
Qed.

Lemma num_chars_clean (s : string) (sep : ascii) :
  num_chars s = true -> num_char sep = false -> Filters.indexOf s sep = false.
Proof.
  intros H Hs. induction s as [|c s IH]; simpl in *; [reflexivity|].
  apply andb_true_iff in H as [Hc H]. rewrite (num_char_not_sep c sep), IH; auto.
Qed.

Lemma digits_before_chars (fuel : nat) (n : Z) (tail : string) :
  num_chars tail = true -> num_chars (digits_before fuel n tail) = true.
Proof.
  revert n tail. induction fuel as [|f IH]; intros n tail Ht; simpl; [assumption|].
  assert (Ht' : num_chars (String (digit_char (n mod 10)) tail) = true).
  { simpl. rewrite num_char_digit by apply is_digit_digit_char. assumption. }
  destruct (n <? 10); auto.
Qed.

Lemma fraction_digits_chars (fuel : nat) (rem den : Z) :
  num_chars (fraction_digits fuel rem den) = true.
Proof.
  revert rem. induction fuel as [|f IH]; intros rem; simpl; [reflexivity|].
  destruct (rem =? 0); simpl; [reflexivity|].
  rewrite num_char_digit by apply is_digit_digit_char. apply IH.
Qed.

Lemma dropZeros_chars (s : string) : num_chars s = true -> num_chars (dropZeros s) = true.
Proof.
  induction s as [|c s IH]; cbn [dropZeros num_chars]; [reflexivity|].
  intros H. apply andb_true_iff in H as [Hc Hs]. specialize (IH Hs).
  destruct (dropZeros s) as [|c' t].
  - destruct (Ascii.eqb c "0"); cbn [num_chars]; [reflexivity|now rewrite Hc].
  - cbn [num_chars] in *. now rewrite Hc, IH.
Qed.

Lemma decimal_chars (n : Z) : num_chars (decimal n) = true.
Proof. unfold decimal. now apply digits_before_chars. Qed.

Lemma exponential_chars (m : Z) : num_chars (exponential m) = true.
Proof.
  unfold exponential. pose proof (decimal_chars m) as H.
  destruct (decimal m) as [|c rest]; [reflexivity|].
  cbn [num_chars] in H. apply andb_true_iff in H as [Hc Hr].
  pose proof (dropZeros_chars rest Hr) as Hz.
  rewrite !num_chars_app, decimal_chars.
  destruct (dropZeros rest) as [|c' t]; cbn [num_chars] in *; rewrite Hc; [reflexivity|].
  now rewrite Hz.
Qed.

Lemma numToString_chars (x : num) : num_chars (numToString x) = true.
Proof.
  destruct x as [q|]; [|reflexivity]. unfold numToString. cbv zeta.
  assert (E1 : num_chars (if Qnum q <? 0 then "-"%string else ""%string) = true)
    by (destruct (Qnum q <? 0); reflexivity).
  destruct ((Z.pos (Qden q) =? 1) && (10 ^ 21 <=? Z.abs (Qnum q))).
  - now rewrite num_chars_app, E1, exponential_chars.
  - rewrite !num_chars_app, E1, decimal_chars.
    match goal with |- context [if ?c then _ else _] => destruct c end.
    + reflexivity.
    + rewrite num_chars_app, fraction_digits_chars. reflexivity.
Qed.

Lemma numToString_clean (x : num) (sep : ascii) :
  num_char sep = false -> Filters.indexOf (numToString x) sep = false.
Proof. intros H. apply num_chars_clean; auto using numToString_chars. Qed.

Lemma numToString_not_null (x : num) : String.eqb "null" (numToString x) = false.
Proof.
  destruct (String.eqb_spec "null" (numToString x)) as [E|]; [|reflexivity].
  pose proof (numToString_chars x) as H. rewrite <- E in H. discriminate.
Qed.

(** ** Parsing a printed number gives the number back *)

Lemma eat_digits_digit (d : Z) (t : string) (a : Z) (c : nat) : 0 <= d <= 9 ->
  eat_digits (String (digit_char d) t) a c = eat_digits t (a * 10 + d) (S c).
Proof.
  intros H. simpl. now rewrite is_digit_digit_char, digit_val_digit_char.
Qed.

Lemma eat_digits_before (f : nat) : forall n : Z,
  0 <= n < 2 ^ Z.of_nat f -> (1 <= f)%nat ->
  exists nd : nat, (1 <= nd)%nat /\
    forall (tail : string) (c : nat),
      eat_digits (digits_before f n tail) 0 c = eat_digits tail n (c + nd).
Proof.
  induction f as [|f IH]; intros n Hn Hf; [lia|].
  cbn [digits_before]. destruct (Z.ltb_spec n 10) as [Hlt|Hge].
  - exists 1%nat. split; [lia|]. intros tail c.
    rewrite Z.mod_small by lia. rewrite eat_digits_digit by lia.
    now rewrite Nat.add_1_r.
  - rewrite Nat2Z.inj_succ, Z.pow_succ_r in Hn by lia.
    assert (Hf' : (1 <= f)%nat).
    { destruct f; [|lia]. simpl in Hn. lia. }
    destruct (IH (n / 10)) as [nd [Hnd Heat]]; auto.
    { split; [apply Z.div_pos; lia|]. apply Z.div_lt_upper_bound; lia. }
    exists (S nd). split; [lia|]. intros tail c.
    rewrite Heat. rewrite eat_digits_digit by (pose proof (Z.mod_pos_bound n 10); lia).
    f_equal; [|lia]. rewrite Z.mul_comm. symmetry. apply Z.div_mod. lia.
Qed.

Lemma digits_before_app (f : nat) (n : Z) (t1 t2 : string) :
  digits_before f n t1 +++ t2 = digits_before f n (t1 +++ t2).
Proof.
  revert n t1. induction f as [|f IH]; intros n t1; simpl; [reflexivity|].
  destruct (n <? 10); [reflexivity|]. now rewrite IH.
Qed.

Lemma decimal_fuel (n : Z) : 0 <= n -> n < 2 ^ Z.of_nat (S (Z.to_nat (Z.log2 n))).
Proof.
  intros Hn. rewrite Nat2Z.inj_succ, Z2Nat.id by apply Z.log2_nonneg.
  destruct (Z.eq_dec n 0) as [->|Hne]; [reflexivity|].
  apply Z.log2_spec. lia.
Qed.

Lemma decimal_eat (n : Z) : 0 <= n ->
  exists nd : nat, (1 <= nd)%nat /\
    forall (tail : string) (c : nat),
      eat_digits (decimal n +++ tail) 0 c = eat_digits tail n (c + nd).
Proof.
  intros Hn. unfold decimal.
  destruct (eat_digits_before (S (Z.to_nat (Z.log2 n))) n) as [nd [Hnd Heat]].
  - split; [assumption|now apply decimal_fuel].
  - lia.
  - exists nd. split; [assumption|]. intros tail c.
    rewrite digits_before_app. apply Heat.
Qed.

Lemma decimal_head (n : Z) (tail : string) :
  exists (c : ascii) (rest : string),
    decimal n +++ tail = String c rest /\ is_digit c = true.
Proof.
  unfold decimal. rewrite digits_before_app.
  generalize (Z.to_nat (Z.log2 n)). intros f.
  generalize (EmptyString +++ tail). revert n.
  induction f as [|f IH]; intros n t.
  - cbn [digits_before]. destruct (n <? 10).
    + eexists _, _. split; [reflexivity|apply is_digit_digit_char].
    + cbn [digits_before]. eexists _, _. split; [reflexivity|apply is_digit_digit_char].
  - cbn [digits_before]. destruct (n <? 10).
    + eexists _, _. split; [reflexivity|apply is_digit_digit_char].
    + apply IH.
Qed.

Lemma digit_not_space (c : ascii) : is_digit c = true -> is_space c = false.
Proof.
  unfold is_digit, is_space. intros H. apply andb_true_iff in H as [H1 H2].
  apply Z.leb_le in H1, H2.
  apply orb_false_iff. split.
  - apply andb_false_iff. right. apply Z.leb_gt. lia.
  - apply Z.eqb_neq. lia.
Qed.

Lemma digit_not_sign (c : ascii) (s : string) : is_digit c = true ->
  eat_sign (String c s) = (1, String c s).
Proof.
  intros H. unfold eat_sign.
  destruct (Ascii.eqb_spec c "-") as [->|H1]; [discriminate|].
  destruct (Ascii.eqb_spec c "+") as [->|H2]; [discriminate|].
  destruct c as [[] [] [] [] [] [] [] []]; try reflexivity; congruence.
Qed.

Lemma this_Q2Qc_Z (n : Z) : this (Q2Qc (inject_Z n)) = n # 1.
Proof. apply this_ofZ. Qed.

Lemma numToString_ofZ (n : Z) : Z.abs n < 10 ^ 21 ->
  numToString (ofZ n) = (if n <? 0 then "-"%string else ""%string) +++ decimal (Z.abs n).
Proof.
  intros Hn. unfold numToString, ofZ, ofQ. rewrite this_Q2Qc_Z. cbn [Qnum Qden]. cbv zeta.
  destruct (Z.leb_spec (10 ^ 21) (Z.abs n)) as [H|_]; [lia|]. rewrite andb_false_r.
  rewrite Z.mod_1_r, Z.div_1_r. change (0 =? 0) with true. cbv iota.
  now rewrite sapp_nil_r.
Qed.

Lemma parseInt_numToString (n : Z) : Z.abs n < 10 ^ 21 ->
  parseInt (numToString (ofZ n)) = ofZ n.
Proof.
  intros Hn. rewrite numToString_ofZ by assumption. unfold parseInt.
  destruct (decimal_head (Z.abs n) EmptyString) as [c [rest [Ehead Hc]]].
  destruct (decimal_eat (Z.abs n) (Z.abs_nonneg n)) as [nd [Hnd Heat]].
  specialize (Heat EmptyString O). rewrite sapp_nil_r in Ehead, Heat.
  destruct (Z.ltb_spec n 0) as [Hneg|Hpos].
  - change ("-"%string +++ decimal (Z.abs n)) with (String "-" (decimal (Z.abs n))).
    cbn [trimStart is_space]. change (is_space "-") with false. cbv iota.
    cbn [eat_sign]. rewrite Heat. cbn [eat_digits].
    destruct nd; [lia|]. simpl. f_equal. lia.
  - change (""%string +++ decimal (Z.abs n)) with (decimal (Z.abs n)).
    rewrite Ehead. cbn [trimStart]. rewrite (digit_not_space c Hc).
    rewrite digit_not_sign by assumption. rewrite <- Ehead, Heat. cbn [eat_digits].
    destruct nd; [lia|]. simpl. f_equal. lia.
Qed.

Lemma eat_fraction (den : Z) (Hden : 0 < den) (fuel : nat) :
  forall (rem a : Z) (c : nat), 0 <= rem < den ->
  exists (k : nat) (a' : Z),
    eat_digits (fraction_digits fuel rem den) a c = (a', (c + k)%nat, EmptyString)
    /\ a' * den + fraction_rest fuel rem den = 10 ^ Z.of_nat k * (a * den + rem).
Proof.
  induction fuel as [|f IH]; intros rem a c Hrem.
  - exists O, a. cbn. split; [now rewrite Nat.add_0_r|lia].
  - cbn [fraction_digits fraction_rest]. destruct (Z.eqb_spec rem 0) as [->|Hne].
    + exists O, a. cbn. split; [now rewrite Nat.add_0_r|lia].
    + assert (Hd : 0 <= rem * 10 / den <= 9).
      { split; [apply Z.div_pos; lia|].
        assert (rem * 10 / den < 10); [|lia]. apply Z.div_lt_upper_bound; lia. }
      destruct (IH ((rem * 10) mod den) (a * 10 + rem * 10 / den) (S c))
        as [k [a' [Heat Hval]]]; [apply Z.mod_pos_bound; lia|].
      exists (S k), a'. split.
      * rewrite eat_digits_digit by assumption. rewrite Heat. f_equal. f_equal. lia.
      * rewrite Hval. rewrite Nat2Z.inj_succ, Z.pow_succ_r by lia.
        pose proof (Z.div_mod (rem * 10) den ltac:(lia)). nia.
Qed.

Lemma fraction_rest_0 (den : Z) (Hden : 0 < den) (fuel : nat) :
  forall rem : Z, 0 <= rem < den -> (den | rem * 10 ^ Z.of_nat fuel) ->
  fraction_rest fuel rem den = 0.
Proof.
  induction fuel as [|f IH]; intros rem Hrem Hdiv; cbn [fraction_rest].
  - rewrite Z.pow_0_r, Z.mul_1_r in Hdiv.
    destruct (Z.eq_dec rem 0) as [|Hne]; [assumption|].
    apply Z.divide_pos_le in Hdiv; lia.
  - destruct (Z.eqb_spec rem 0); [reflexivity|].
    apply IH; [apply Z.mod_pos_bound; lia|].
    rewrite Nat2Z.inj_succ, Z.pow_succ_r in Hdiv by lia.
    rewrite Z.mul_assoc in Hdiv.
    rewrite (Z.div_mod (rem * 10) den) in Hdiv by lia.
    rewrite Z.mul_add_distr_r in Hdiv.
    apply (Z.divide_add_cancel_r den (den * (rem * 10 / den) * 10 ^ Z.of_nat f)); auto.
    rewrite <- Z.mul_assoc. apply Z.divide_factor_l.
Qed.

Lemma Qdiv_Z_eq (a P n D : Z) : 0 < P -> 0 < D -> a * D = n * P ->
  (inject_Z a / inject_Z P == inject_Z n / inject_Z D)%Q.
Proof.
  intros HP HD H.
  assert (~ inject_Z P == 0)%Q by (unfold Qeq; simpl; lia).
  assert (~ inject_Z D == 0)%Q by (unfold Qeq; simpl; lia).
  field_simplify_eq; [|auto]. rewrite <- !inject_Z_mult. rewrite H, Z.mul_comm.
  reflexivity.
Qed.

Lemma pow10_neg (k : nat) :
  (this (pow10 (0 - Z.of_nat k)) == / inject_Z (10 ^ Z.of_nat k))%Q.
Proof.
  unfold pow10. destruct (Z.leb_spec 0 (0 - Z.of_nat k)).
  - assert (k = O) by lia. subst. reflexivity.
  - replace (- (0 - Z.of_nat k)) with (Z.of_nat k) by lia. qc2q. reflexivity.
Qed.

(** *** Strings of digits *)

Lemma digits_before_all_digits (fuel : nat) (n : Z) (tail : string) :
  all_digits tail = true -> all_digits (digits_before fuel n tail) = true.
Proof.
  revert n tail. induction fuel as [|f IH]; intros n tail Ht; simpl; [assumption|].
  assert (Ht' : all_digits (String (digit_char (n mod 10)) tail) = true).
  { simpl. now rewrite is_digit_digit_char. }
  destruct (n <? 10); auto.
Qed.

Lemma decimal_all_digits (n : Z) : all_digits (decimal n) = true.
Proof. unfold decimal. now apply digits_before_all_digits. Qed.

Lemma eat_all_digits (s tail : string) : forall (a : Z) (c : nat),
  all_digits s = true ->
  eat_digits (s +++ tail) a c = eat_digits tail (digitsValue s a) (c + String.length s).
Proof.
  induction s as [|x s IH]; intros a c H; cbn [String.append digitsValue String.length].
  - now rewrite Nat.add_0_r.
  - cbn [all_digits] in H. apply andb_true_iff in H as [Hx Hs].
    cbn [eat_digits]. rewrite Hx, IH by assumption. f_equal. lia.
Qed.

Lemma digitsValue_zero (s : string) (a : Z) :
  all_digits s = true -> dropZeros s = EmptyString ->
  digitsValue s a = a * 10 ^ Z.of_nat (String.length s).
Proof.
  revert a. induction s as [|x s IH]; intros a Hd Hz; cbn [digitsValue String.length].
  - cbn. lia.
  - cbn [dropZeros] in Hz. cbn [all_digits] in Hd. apply andb_true_iff in Hd as [_ Hs].
    destruct (dropZeros s) as [|c' t] eqn:E; [|discriminate].
    destruct (Ascii.eqb_spec x "0") as [->|]; [|discriminate].
    rewrite IH by auto. change (digit_val "0") with 0.
    rewrite Nat2Z.inj_succ, Z.pow_succ_r by lia. ring.
Qed.

Lemma digitsValue_dropZeros (s : string) : forall a : Z,
  all_digits s = true ->
  (String.length (dropZeros s) <= String.length s)%nat
  /\ all_digits (dropZeros s) = true
  /\ digitsValue s a
     = digitsValue (dropZeros s) a
       * 10 ^ Z.of_nat (String.length s - String.length (dropZeros s)).
Proof.
  induction s as [|x s IH]; intros a Hd.
  - cbn. repeat split; lia.
  - cbn [all_digits] in Hd. apply andb_true_iff in Hd as [Hx Hs].
    destruct (IH (a * 10 + digit_val x) Hs) as (Hl & Ha & Hv).
    cbn [dropZeros]. destruct (dropZeros s) as [|c' t] eqn:E.
    + destruct (Ascii.eqb_spec x "0") as [->|Hne].
      * cbn [String.length digitsValue all_digits].
        split; [lia|]. split; [reflexivity|].
        rewrite (digitsValue_zero s) by assumption. change (digit_val "0") with 0.
        rewrite Nat.sub_0_r, Nat2Z.inj_succ, Z.pow_succ_r by lia. ring.
      * cbn [String.length digitsValue all_digits]. rewrite Hx.
        split; [lia|]. split; [reflexivity|].
        rewrite (digitsValue_zero s) by assumption.
        replace (S (String.length s) - 1)%nat with (String.length s) by lia. reflexivity.
    + cbn [String.length] in Hl |- *.
      split; [lia|]. split.
      * change (all_digits (String x (String c' t)))
          with (is_digit x && all_digits (String c' t)). now rewrite Hx.
      * change (digitsValue (String x s) a) with (digitsValue s (a * 10 + digit_val x)).
        change (digitsValue (String x (String c' t)) a)
          with (digitsValue (String c' t) (a * 10 + digit_val x)).
        rewrite Hv. reflexivity.
Qed.

(** The first digit and the other digits of a printed integer. *)
Lemma decimal_value (m : Z) (c : ascii) (rest : string) : 0 <= m ->
  decimal m = String c rest ->
  is_digit c = true /\ all_digits rest = true /\ digitsValue rest (digit_val c) = m.
Proof.
  intros Hm E. pose proof (decimal_all_digits m) as Hd. rewrite E in Hd.
  cbn [all_digits] in Hd. apply andb_true_iff in Hd as [Hc Hr].
  split; [exact Hc|]. split; [exact Hr|].
  destruct (decimal_eat m Hm) as [nd [_ Heat]]. specialize (Heat EmptyString O).
  rewrite sapp_nil_r, E in Heat. cbn [eat_digits] in Heat. rewrite Hc in Heat.
  pose proof (eat_all_digits rest EmptyString (0 * 10 + digit_val c) 1 Hr) as H.
  rewrite sapp_nil_r in H. rewrite H in Heat. cbn [eat_digits] in Heat.
  injection Heat as Hv _. exact Hv.
Qed.

Lemma eat_exponent_plus (e : Z) : 0 <= e ->
  eat_exponent ("e+" +++ decimal e) = e.
Proof.
  intros He. change ("e+" +++ decimal e) with (String "e" (String "+" (decimal e))).
  cbn [eat_exponent Ascii.eqb Bool.eqb orb eat_sign].
  destruct (decimal_eat e He) as [nd [Hnd Heat]]. specialize (Heat EmptyString O).
  rewrite sapp_nil_r in Heat. rewrite Heat. cbn [eat_digits].
  destruct nd; [lia|]. cbn. lia.
Qed.

Lemma pow10_pos (e : Z) : 0 <= e -> pow10 e = Q2Qc (inject_Z (10 ^ e)).
Proof. intros He. unfold pow10. destruct (Z.leb_spec 0 e); [reflexivity|lia]. Qed.

(** What [parseFloat] makes of an optional minus sign and what follows a
    first digit. *)
Lemma parseFloat_signed (neg : bool) (c : ascii) (rest : string) (M e : Z) (cnt : nat) :
  is_digit c = true ->
  (let '(n1, count1, s2) := eat_digits (String c rest) 0 0 in
   let '(m1, count2, s3) :=
     match s2 with
     | String "."%char s2' => eat_digits s2' n1 O
     | _ => (n1, O, s2)
     end in
   (m1, (count1 + count2)%nat, eat_exponent s3 - Z.of_nat count2)) = (M, S cnt, e) ->
  parseFloat ((if neg then "-"%string else ""%string) +++ String c rest)
  = Fin (Q2Qc (inject_Z ((if neg then -1 else 1) * M)) * pow10 e)%Qc.
Proof.
  intros Hc H. unfold parseFloat. destruct neg.
  - change ("-"%string +++ String c rest) with (String "-" (String c rest)).
    cbn [trimStart]. change (is_space "-") with false. cbv iota. cbn [eat_sign].
    destruct (eat_digits (String c rest) 0 0) as [[n1 count1] s2].
    destruct (match s2 with String "."%char s2' => eat_digits s2' n1 O | _ => (n1, O, s2) end)
      as [[m1 count2] s3].
    injection H as -> Hc1 <-. rewrite Hc1. reflexivity.
  - change (""%string +++ String c rest) with (String c rest).
    cbn [trimStart]. rewrite (digit_not_space c Hc).
    rewrite digit_not_sign by assumption.
    destruct (eat_digits (String c rest) 0 0) as [[n1 count1] s2].
    destruct (match s2 with String "."%char s2' => eat_digits s2' n1 O | _ => (n1, O, s2) end)
      as [[m1 count2] s3].
    injection H as -> Hc1 <-. rewrite Hc1. reflexivity.
Qed.

Lemma exactDecimal_finite (q : Qc) : exactDecimal q -> finiteDecimal q.
Proof.
  unfold exactDecimal, finiteDecimal. intros H.
  apply (Z.divide_trans _ _ _ H). exists (10 ^ (Z.of_nat maxFraction - 17)).
  rewrite <- Z.pow_add_r by (unfold maxFraction; lia). f_equal; unfold maxFraction; lia.
Qed.

Lemma digit_val_range (c : ascii) : is_digit c = true -> 0 <= digit_val c <= 9.
Proof.
  unfold is_digit, digit_val. intros H. apply andb_true_iff in H as [H1 H2].
  apply Z.leb_le in H1, H2. lia.
Qed.

Lemma decimal_nonempty (m : Z) : decimal m <> EmptyString.
Proof.
  destruct (decimal_head m EmptyString) as [c [rest [E _]]].
  rewrite sapp_nil_r in E. rewrite E. discriminate.
Qed.

(** An integer from 1e21 up, printed and read back by [parseFloat]. *)
Lemma parseFloat_exponential (neg : bool) (m : Z) : 0 <= m ->
  parseFloat ((if neg then "-"%string else ""%string) +++ exponential m)
  = ofZ ((if neg then -1 else 1) * m).
Proof.
  intros Hm. unfold exponential.
  destruct (decimal m) as [|c rest] eqn:Edec; [now destruct (decimal_nonempty m)|].
  destruct (decimal_value m c rest Hm Edec) as (Hc & Hr & Hv).
  destruct (digitsValue_dropZeros rest (digit_val c) Hr) as (Hl & Hza & Hzv).
  assert (HE : 0 <= Z.of_nat (String.length rest)) by lia.
  destruct (dropZeros rest) as [|c' t] eqn:Ez.
  - change (String c EmptyString +++ "e+" +++ decimal (Z.of_nat (String.length rest)))
      with (String c ("e+" +++ decimal (Z.of_nat (String.length rest)))).
    rewrite (parseFloat_signed neg c _ (digit_val c) (Z.of_nat (String.length rest)) O Hc).
    + cbn [digitsValue String.length] in Hzv. rewrite Nat.sub_0_r in Hzv.
      rewrite pow10_pos by lia. unfold ofZ, ofQ. f_equal. apply Qc_is_canon. qc2q.
      rewrite <- inject_Z_mult. rewrite <- Hv, Hzv. now rewrite Z.mul_assoc.
    + cbn [eat_digits]. rewrite Hc.
      change ("e+" +++ decimal (Z.of_nat (String.length rest)))
        with (String "e" (String "+" (decimal (Z.of_nat (String.length rest))))).
      cbn [eat_digits]. change (is_digit "e") with false. cbv iota.
      change (String "e" (String "+" (decimal (Z.of_nat (String.length rest)))))
        with ("e+" +++ decimal (Z.of_nat (String.length rest))).
      rewrite eat_exponent_plus by lia. cbn [Nat.add Z.of_nat].
      rewrite Z.sub_0_r. reflexivity.
  - set (z := String c' t) in *.
    change (String c (String "." z) +++ "e+" +++ decimal (Z.of_nat (String.length rest)))
      with (String c (String "." (z +++ "e+" +++ decimal (Z.of_nat (String.length rest))))).
    rewrite (parseFloat_signed neg c _ (digitsValue z (digit_val c))
               (Z.of_nat (String.length rest) - Z.of_nat (String.length z))
               (String.length z) Hc).
    + rewrite pow10_pos by lia. unfold ofZ, ofQ. f_equal. apply Qc_is_canon. qc2q.
      rewrite <- inject_Z_mult. rewrite <- Hv, Hzv.
      rewrite Nat2Z.inj_sub by lia. now rewrite Z.mul_assoc.
    + cbn [eat_digits]. rewrite Hc. change (is_digit ".") with false. cbv iota.
      rewrite (eat_all_digits z _ _ _ Hza).
      change ("e+" +++ decimal (Z.of_nat (String.length rest)))
        with (String "e" (String "+" (decimal (Z.of_nat (String.length rest))))).
      cbn [eat_digits]. change (is_digit "e") with false. cbv iota.
      change (String "e" (String "+" (decimal (Z.of_nat (String.length rest)))))
        with ("e+" +++ decimal (Z.of_nat (String.length rest))).
      rewrite eat_exponent_plus by lia. cbn [Nat.add].
      reflexivity.
Qed.

Lemma parseFloat_numToString (q : Qc) : finiteDecimal q ->
  parseFloat (numToString (Fin q)) = Fin q.
Proof.
  intros Hex. unfold numToString. cbv zeta.
  set (n := Qnum q). set (d := Z.pos (Qden q)). set (m := Z.abs n).
  assert (Hd : 0 < d) by (unfold d; lia).
  assert (Hm : 0 <= m) by apply Z.abs_nonneg.
  destruct ((d =? 1) && (10 ^ 21 <=? m)) eqn:Ebig.
  { apply andb_true_iff in Ebig as [Ed _]. apply Z.eqb_eq in Ed.
    rewrite (parseFloat_exponential (n <? 0) m Hm).
    unfold ofZ, ofQ. f_equal. apply Qc_is_canon. rewrite this_ofZ.
    unfold n, d, m in *. destruct (this q) as [qn qd]. cbn [Qnum Qden] in *.
    unfold Qeq, inject_Z. cbn [Qnum Qden]. injection Ed as ->.
    destruct (Z.ltb_spec qn 0); lia. }
  assert (Hip : 0 <= m / d) by (apply Z.div_pos; lia).
  assert (Hrem : 0 <= m mod d < d) by (apply Z.mod_pos_bound; lia).
  set (frac := if m mod d =? 0 then ""%string
               else "."%string +++ fraction_digits maxFraction (m mod d) d).
  destruct (decimal_head (m / d) frac) as [c [rest [Ehead Hc]]].
  destruct (decimal_eat (m / d) Hip) as [nd [Hnd Heat]].
  specialize (Heat frac O).
  (* what the digits denote *)
  assert (Hparse : exists (k : nat) (M : Z),
    (let '(n1, count1, s2) := eat_digits (decimal (m / d) +++ frac) 0 0 in
     let '(m1, count2, s3) :=
       match s2 with
       | String "."%char s2' => eat_digits s2' n1 O
       | _ => (n1, O, s2)
       end in
     (m1, (count1 + count2)%nat, eat_exponent s3 - Z.of_nat count2))
    = (M, S (nd + k - 1), 0 - Z.of_nat k)
    /\ M * d = 10 ^ Z.of_nat k * m).
  { rewrite Heat. unfold frac. destruct (Z.eqb_spec (m mod d) 0) as [E0|Hne].
    - exists O, (m / d). cbn. split; [f_equal; f_equal; lia|].
      pose proof (Z.div_mod m d ltac:(lia)). lia.
    - change ("."%string +++ fraction_digits maxFraction (m mod d) d)
        with (String "." (fraction_digits maxFraction (m mod d) d)).
      cbn [eat_digits is_digit]. change (is_digit ".") with false. cbv iota.
      destruct (eat_fraction d Hd maxFraction (m mod d) (m / d) O Hrem) as [k [a' [Hk Hval]]].
      rewrite Hk. exists k, a'. split; [cbn [eat_exponent]; f_equal; f_equal; lia|].
      rewrite fraction_rest_0 in Hval; auto.
      + pose proof (Z.div_mod m d ltac:(lia)). nia.
      + apply Z.divide_mul_r. exact Hex. }
  destruct Hparse as [k [M [Hparse HM]]].
  rewrite Ehead in Hparse |- *.
  rewrite (parseFloat_signed (n <? 0) c rest M (0 - Z.of_nat k) (nd + k - 1) Hc Hparse).
  f_equal. apply Qc_is_canon. unfold Qcmult, Q2Qc. cbn [this]. rewrite !Qred_correct.
  rewrite pow10_neg.
  transitivity (inject_Z n / inject_Z d)%Q.
  - apply Qdiv_Z_eq; [apply Z.pow_pos_nonneg; lia|lia|].
    unfold m in HM. destruct (Z.ltb_spec n 0); nia.
  - unfold n, d. symmetry. destruct (this q) as [qn qd]. apply Qmake_Qdiv.
Qed.

(** An integer from 1e21 up prints in exponent notation, of which [parseInt]
    reads the first digit. *)
Lemma parseInt_numToString_big (n : Z) : 10 ^ 21 <= Z.abs n ->
  exists k : Z, -9 <= k <= 9 /\ parseInt (numToString (ofZ n)) = ofZ k.
Proof.
  intros Hn. unfold numToString, ofZ at 1, ofQ. rewrite this_Q2Qc_Z. cbn [Qnum Qden]. cbv zeta.
  destruct (Z.leb_spec (10 ^ 21) (Z.abs n)) as [_|H]; [|lia].
  change (1 =? 1) with true. cbn [andb].
  unfold exponential.
  destruct (decimal (Z.abs n)) as [|c rest] eqn:Edec;
    [now destruct (decimal_nonempty (Z.abs n))|].
  destruct (decimal_value _ c rest (Z.abs_nonneg n) Edec) as (Hc & _ & _).
  pose proof (digit_val_range c Hc) as Hv.
  assert (Hstop : exists (x : ascii) (tl : string),
            (match dropZeros rest with
             | EmptyString => String c EmptyString
             | t => String c (String "." t)
             end) +++ "e+" +++ decimal (Z.of_nat (String.length rest))
            = String c (String x tl) /\ is_digit x = false).
  { destruct (dropZeros rest); eexists _, _; (split; [reflexivity|reflexivity]). }
  destruct Hstop as [x [tl [E Hx]]]. rewrite E.
  unfold parseInt. destruct (Z.ltb_spec n 0).
  - exists (- digit_val c). split; [lia|].
    change ("-"%string +++ String c (String x tl)) with (String "-" (String c (String x tl))).
    cbn [trimStart]. change (is_space "-") with false. cbv iota. cbn [eat_sign eat_digits].
    rewrite Hc, Hx. f_equal; lia.
  - exists (digit_val c). split; [lia|].
    change (""%string +++ String c (String x tl)) with (String c (String x tl)).
    cbn [trimStart]. rewrite (digit_not_space c Hc).
    rewrite digit_not_sign by assumption. cbn [eat_digits].
    rewrite Hc, Hx. f_equal; lia.
Qed.

(** Every finite double prints exactly. *)
Lemma binary64_finiteAlpha (x : num) : binary64 x -> finiteAlpha x.
Proof.
  intros [m ->]. unfold ofQ. eexists. split; [reflexivity|].
  unfold finiteDecimal, Q2Qc. cbn [this]. unfold Qred.
  pose proof (Z.ggcd_correct_divisors m (Z.pos (2 ^ 1074))) as Hdiv.
  pose proof (Z.ggcd_gcd m (Z.pos (2 ^ 1074))) as Hg.
  destruct (Z.ggcd m (Z.pos (2 ^ 1074))) as [g [n' d']]. cbn [fst] in Hg.
  destruct Hdiv as [_ Hd].
  assert (Hg0 : 0 <= g) by (rewrite Hg; apply Z.gcd_nonneg).
  assert (Hd' : 0 < d') by nia.
  cbn [snd Qden]. rewrite Z2Pos.id by assumption.
  apply (Z.divide_trans _ (Z.pos (2 ^ 1074))).
  - exists g. exact Hd.
  - exists (5 ^ 1074). vm_compute. reflexivity.
Qed.

(** ** The string written by [imageToString] *)

Lemma sconcat_app (l1 l2 : list string) : sconcat (l1 ++ l2) = sconcat l1 +++ sconcat l2.
Proof.
  induction l1 as [|a l1 IH]; simpl; [reflexivity|]. now rewrite IH, sapp_assoc.
Qed.

Lemma fold_left_sapp {A} (g : A -> string) (l : list A) (acc : string) :
  fold_left (fun acc i => acc +++ g i) l acc = acc +++ sconcat (map g l).
Proof.
  revert acc. induction l as [|i l IH]; intros acc; simpl.
  - now rewrite sapp_nil_r.
  - rewrite IH. now rewrite sapp_assoc.
Qed.

Lemma fold_left_sapp_nested {A} (g : A -> list string) (l : list A) (acc : string) :
  fold_left (fun acc i => acc +++ sconcat (g i)) l acc = acc +++ sconcat (concat (map g l)).
Proof.
  revert acc. induction l as [|i l IH]; intros acc; simpl.
  - now rewrite sapp_nil_r.
  - rewrite IH. now rewrite sconcat_app, sapp_assoc.
Qed.

Section ImageToString.

Variables (s : Store) (v : nat) (vw : MinimalView.t).
Hypothesis Hv : views s !! v = Some vw.
Hypothesis Hfull : forall x y,
  0 <= x < MinimalView.width vw -> 0 <= y < MinimalView.height vw ->
  is_Some (pixel s v x y).

Lemma imageToString_payload :
  imageToString v s
  = Ret (payload (MinimalView.width vw) (MinimalView.height vw)
           (rowMajor s v (MinimalView.width vw) (MinimalView.height vw))) s.
Proof.
  unfold imageToString.
  rewrite (bind_Ret _ _ _ _ _ (getWidth_eq _ _ _ Hv)).
  rewrite (bind_Ret _ _ _ _ _ (getHeight_eq _ _ _ Hv)).
  rewrite (bind_Ret _ _ _ _ _ (getHeight_eq _ _ _ Hv)).
  rewrite (foldM_pure _ _
    (fun acc y => acc +++ sconcat (map (fun x => fieldsString (colorAt s v x y) +++ ";")
                                        (seqZ 0 (MinimalView.width vw))))).
  - f_equal. rewrite fold_left_sapp_nested. unfold payload, rowMajor.
    rewrite !sapp_assoc. do 4 f_equal.
    rewrite !concat_map, map_map. f_equal. f_equal. apply map_ext. intros y. now rewrite map_map.
  - intros acc y Hy. apply elem_of_seqZ in Hy.
    rewrite (bind_Ret _ _ _ _ _ (getWidth_eq _ _ _ Hv)).
    rewrite (foldM_pure _ _ (fun acc x => acc +++ (fieldsString (colorAt s v x y) +++ ";"))).
    + f_equal. apply fold_left_sapp.
    + intros acc' x Hx. apply elem_of_seqZ in Hx.
      rewrite (bind_Ret _ _ _ _ _ (getColor_eq _ _ _ _ _ Hv)).
      destruct (Hfull x y) as [c Hc]; [lia|lia|].
      unfold colorAt. rewrite Hc. cbn [default from_option id].
      unfold pixel in Hc. rewrite Hv in Hc.
      destruct (rows_get (MinimalView.colors vw) x y) as [l|]; [|discriminate].
      simpl deref. rewrite (bind_Ret _ _ _ _ _ (read_eq _ _ _ Hc)).
      unfold ret. f_equal. unfold fieldsString. now rewrite !sapp_assoc.
Qed.

End ImageToString.

Lemma semicolon_not_num : num_char ";" = false. Proof. reflexivity. Qed.
Lemma comma_not_num : num_char "," = false. Proof. reflexivity. Qed.

Lemma fieldsString_clean (c : Color.t) : Filters.indexOf (fieldsString c) ";" = false.
Proof.
  unfold fieldsString. rewrite !occurs_app.
  rewrite !numToString_clean by apply semicolon_not_num. reflexivity.
Qed.

Lemma split_fields (c : Color.t) :
  split "," (fieldsString c)
  = [numToString (Color.r c); numToString (Color.g c);
     numToString (Color.b c); numToString (Color.a c)].
Proof.
  unfold fieldsString.
  set (R := numToString (Color.r c)). set (G := numToString (Color.g c)).
  set (B := numToString (Color.b c)). set (A := numToString (Color.a c)).
  change (split "," (R +++ String "," (G +++ String "," (B +++ String "," A)))
          = [R; G; B; A]).
  rewrite (split_app "," R), (split_app "," G), (split_app "," B), (split_clean "," A);
    auto; apply numToString_clean, comma_not_num.
Qed.

Lemma split_groups (cs : list Color.t) :
  split ";" (sconcat (map (fun c => fieldsString c +++ ";") cs))
  = map fieldsString cs ++ [EmptyString].
Proof.
  induction cs as [|c cs IH]; simpl; [reflexivity|].
  rewrite sapp_assoc.
  change (split ";" (fieldsString c +++ String ";" (sconcat (map (fun c => fieldsString c +++ ";") cs)))
          = fieldsString c :: map fieldsString cs ++ [EmptyString]).
  rewrite split_app by apply fieldsString_clean. now rewrite IH.
Qed.

Lemma split_payload (w h : Z) (cs : list Color.t) :
  split ";" (payload w h cs)
  = numToString (ofZ w) :: numToString (ofZ h) :: map fieldsString cs ++ [EmptyString].
Proof.
  unfold payload.
  set (W := numToString (ofZ w)). set (H := numToString (ofZ h)).
  set (G := sconcat _).
  change (split ";" (W +++ String ";" (H +++ String ";" G)) = W :: H :: map fieldsString cs ++ [EmptyString]).
  rewrite (split_app ";" W), (split_app ";" H) by (apply numToString_clean, semicolon_not_num).
  unfold G. now rewrite split_groups.
Qed.

(** ** The loop of [imageFromString] *)

Lemma foldM_seqZ_inv {St} (P : Z -> St -> Store -> Prop) (body : St -> Z -> M St) (len : nat) :
  forall k0 : Z,
  (forall k acc t, k0 <= k < k0 + Z.of_nat len -> P k acc t ->
     exists acc' t', body acc k t = Ret acc' t' /\ P (k + 1) acc' t') ->
  forall acc t, P k0 acc t ->
  exists acc' t', foldM (seqZ k0 (Z.of_nat len)) acc body t = Ret acc' t'
                  /\ P (k0 + Z.of_nat len) acc' t'.
Proof.
  induction len as [|len IH]; intros k0 Hstep acc t HP.
  - exists acc, t. simpl. rewrite Z.add_0_r. auto.
  - rewrite seqZ_cons by lia. cbn [foldM].
    destruct (Hstep k0 acc t ltac:(lia) HP) as [acc1 [t1 [E1 HP1]]].
    rewrite (bind_Ret _ _ _ _ _ E1).
    replace (Z.pred (Z.of_nat (S len))) with (Z.of_nat len) by lia.
    destruct (IH (Z.succ k0)) with (acc := acc1) (t := t1) as [acc2 [t2 [E2 HP2]]].
    + intros k a t' Hk. apply Hstep. lia.
    + exact HP1.
    + exists acc2, t2. split; [exact E2|].
      replace (k0 + Z.of_nat (S len)) with (Z.succ k0 + Z.of_nat len) by lia. exact HP2.
Qed.

Lemma loadGroup_group (tgt : nat) (imageData : list string) (w : Z) (xPos yPos k : Z)
    (c : Color.t) (t : Store) :
  imageData !! Z.to_nat (k + 2) = Some (fieldsString c) ->
  printable c ->
  is_Some (views t !! tgt) ->
  loadGroup tgt imageData w (xPos, yPos) k t
  = Ret (if 0 =? Z.rem (xPos + 1) w then (0, yPos + 1) else (xPos + 1, yPos))
        (final (setColor tgt xPos yPos (Some (length (heap t)))
                  (mkStore (heap t ++ [reloaded c]) (views t)))).
Proof.
  intros Hdata ([kr [Hkr Hr]] & [kg [Hkg Hg]] & [kb [Hkb Hb]] & Ha) Hview.
  assert (Ea : parseFloat (numToString (Color.a c)) = Color.a c).
  { destruct Ha as [-> | [qa [-> Hex]]]; [reflexivity|].
    now apply parseFloat_numToString. }
  assert (Ec : reloaded c = Color.mk (ofZ kr) (ofZ kg) (ofZ kb) (Color.a c) false false)
    by (unfold reloaded; now rewrite Hr, Hg, Hb).
  rewrite Ec.
  unfold loadGroup. rewrite Hdata, split_fields.
  cbn [length nth Nat.eqb andb]. rewrite numToString_not_null. cbn [negb].
  rewrite Ea, Hr, Hg, Hb, !parseInt_numToString by assumption.
  unfold bind at 1. unfold alloc at 1.
  set (t1 := mkStore _ (views t)).
  assert (Hset : setColor tgt xPos yPos (Some (length (heap t))) t1
                 = Ret tt (final (setColor tgt xPos yPos (Some (length (heap t))) t1)))
    by (apply setColor_Ret; exact Hview).
  rewrite (bind_Ret _ _ _ _ _ Hset).
  destruct (0 =? Z.rem (xPos + 1) w); reflexivity.
Qed.

Lemma next_position (w k : Z) : 0 < w -> 0 <= k ->
  (if 0 =? Z.rem (k mod w + 1) w then (0, k / w + 1) else (k mod w + 1, k / w))
  = ((k + 1) mod w, (k + 1) / w).
Proof.
  intros Hw Hk.
  pose proof (Z.mod_pos_bound k w Hw) as Hm.
  pose proof (Z.div_mod k w ltac:(lia)) as Hdm.
  rewrite Z.rem_mod_nonneg by lia.
  destruct (Z.eq_dec (k mod w + 1) w) as [E|Hne].
  - rewrite E, Z.mod_same by lia. cbn.
    assert (E1 : k + 1 = (k / w + 1) * w + 0) by nia.
    f_equal.
    + apply (Z.mod_unique _ _ (k / w + 1)); lia.
    + apply (Z.div_unique _ _ _ 0); lia.
  - rewrite (Z.mod_small (k mod w + 1)) by lia.
    destruct (Z.eqb_spec 0 (k mod w + 1)); [lia|].
    f_equal.
    + apply (Z.mod_unique _ _ (k / w)); lia.
    + apply (Z.div_unique _ _ _ (k mod w + 1)); lia.
Qed.

Lemma concat_rows_lookup {A} (f : Z -> list A) (w : nat) (n : nat) :
  (forall y, length (f y) = w) ->
  forall (y0 : Z) (j : nat), (j < w * n)%nat ->
  concat (map f (seqZ y0 (Z.of_nat n))) !! j
  = f (y0 + Z.of_nat (j / w)) !! (j mod w)%nat.
Proof.
  intros Hlen. induction n as [|n IH]; intros y0 j Hj; [lia|].
  assert (Hw : (0 < w)%nat) by lia.
  rewrite seqZ_cons by lia. cbn [map concat].
  replace (Z.pred (Z.of_nat (S n))) with (Z.of_nat n) by lia.
  destruct (decide (j < w)%nat) as [Hlt|Hge].
  - rewrite lookup_app_l by (rewrite Hlen; lia).
    rewrite Nat.div_small, Nat.mod_small by lia. now rewrite Z.add_0_r.
  - rewrite lookup_app_r by (rewrite Hlen; lia). rewrite Hlen.
    rewrite IH by nia.
    assert (E : j = ((j - w) + 1 * w)%nat) by lia.
    rewrite E at 3 4. rewrite Nat.div_add, Nat.Div0.mod_add by lia.
    f_equal. f_equal. lia.
Qed.

Lemma rowMajor_lookup (s : Store) (v : nat) (w h j : Z) :
  0 < w -> 0 <= j < w * h ->
  rowMajor s v w h !! Z.to_nat j = Some (colorAt s v (j mod w) (j / w)).
Proof.
  intros Hw Hj.
  assert (Hh : 0 < h) by nia.
  unfold rowMajor.
  rewrite <- (Z2Nat.id h) at 1 by lia.
  rewrite (concat_rows_lookup _ (Z.to_nat w)).
  - rewrite list_lookup_fmap, lookup_seqZ_lt.
    + cbn. do 2 f_equal.
      * rewrite Nat2Z.inj_mod, !Z2Nat.id by lia. lia.
      * rewrite Nat2Z.inj_div, !Z2Nat.id by lia. lia.
    + rewrite Nat2Z.inj_mod, !Z2Nat.id by lia. apply Z.mod_pos_bound. lia.
  - intros y. now rewrite length_map, length_seqZ.
  - rewrite <- Z2Nat.inj_mul by lia. apply Z2Nat.inj_lt; lia.
Qed.

Lemma rowMajor_length (s : Store) (v : nat) (w h : Z) :
  0 <= w -> 0 <= h -> length (rowMajor s v w h) = Z.to_nat (w * h).
Proof.
  intros Hw Hh. unfold rowMajor.
  assert (H : forall (n : nat) y0,
    length (concat (map (fun y => map (fun x => colorAt s v x y) (seqZ 0 w))
                        (seqZ y0 (Z.of_nat n)))) = (Z.to_nat w * n)%nat).
  { induction n as [|n IH]; intros y0; [simpl; lia|].
    rewrite (seqZ_cons y0) by lia. cbn [map concat].
    replace (Z.pred (Z.of_nat (S n))) with (Z.of_nat n) by lia.
    rewrite length_app, length_map, length_seqZ, IH. lia. }
  specialize (H (Z.to_nat h) 0). rewrite Z2Nat.id in H by lia.
  rewrite H. now rewrite Z2Nat.inj_mul by lia.
Qed.

Section LoadLoop.

Variables (s : Store) (tgt : nat) (w h : Z) (cs : list Color.t) (imageData : list string).
Hypothesis Hw : 0 < w.
Hypothesis Hdata : imageData
  = numToString (ofZ w) :: numToString (ofZ h) :: map fieldsString cs ++ [EmptyString].
Hypothesis Hser : Forall printable cs.
Hypothesis Hlen : length cs = Z.to_nat (w * h).
Hypothesis Htgt : forall x y, 0 <= x < w -> 0 <= y < h -> is_Some (cell s tgt x y).

Lemma position_inj (j k : Z) : (j mod w, j / w) = (k mod w, k / w) -> j = k.
Proof.
  intros E. injection E as Em Ed.
  rewrite (Z.div_mod j w), (Z.div_mod k w) by lia. now rewrite Em, Ed.
Qed.

Lemma loadInv_step (k : Z) (pos : Z * Z) (t : Store) :
  0 <= k < 0 + Z.of_nat (Z.to_nat (w * h)) -> loadInv s tgt w cs k pos t ->
  exists pos' t', loadGroup tgt imageData w pos k t = Ret pos' t'
                  /\ loadInv s tgt w cs (k + 1) pos' t'.
Proof.
  intros Hk (-> & Hcells & Hpix).
  assert (Hk' : 0 <= k < w * h) by lia.
  assert (Hh : 0 < h) by nia.
  pose proof (Z.mod_pos_bound k w Hw) as Hx.
  assert (Hy : 0 <= k / w < h).
  { split; [apply Z.div_pos; lia|]. apply Z.div_lt_upper_bound; lia. }
  destruct (lookup_lt_is_Some_2 cs (Z.to_nat k)) as [c Hc]; [lia|].
  assert (Hcser : printable c).
  { rewrite Forall_forall in Hser. apply Hser. apply list_elem_of_In.
    eapply list_elem_of_lookup_2; eauto. }
  assert (Hgroup : imageData !! Z.to_nat (k + 2) = Some (fieldsString c)).
  { rewrite Hdata. replace (Z.to_nat (k + 2)) with (S (S (Z.to_nat k))) by lia.
    change ((map fieldsString cs ++ [EmptyString]) !! Z.to_nat k = Some (fieldsString c)).
    rewrite lookup_app_l by (rewrite length_map; lia).
    rewrite list_lookup_fmap, Hc. reflexivity. }
  assert (Hcell : is_Some (cell t tgt (k mod w) (k / w))) by (apply Hcells, Htgt; lia).
  pose proof (cell_is_Some_view _ _ _ _ Hcell) as Hview.
  rewrite (loadGroup_group tgt imageData w _ _ k c t Hgroup Hcser Hview).
  rewrite next_position by lia.
  eexists _, _. split; [reflexivity|].
  set (l := length (heap t)).
  set (t1 := mkStore (heap t ++ [reloaded c]) (views t)).
  set (t' := final (setColor tgt (k mod w) (k / w) (Some l) t1)).
  assert (Hnew : cell t' tgt (k mod w) (k / w) = Some l)
    by (apply setColor_cell_eq; exact Hcell).
  assert (Hheap : heap t' = heap t ++ [reloaded c]) by apply setColor_heap.
  assert (Hold : forall x y, (x, y) <> (k mod w, k / w) ->
                   cell t' tgt x y = cell t tgt x y).
  { intros x y Hne. unfold t'. rewrite setColor_cell_ne by (now right). reflexivity. }
  split; [reflexivity|split].
  - intros x y Hs. destruct (decide ((x, y) = (k mod w, k / w))) as [E|Hne].
    + injection E as -> ->. rewrite Hnew. eauto.
    + rewrite Hold by assumption. now apply Hcells.
  - intros j cj Hj Hcj. destruct (decide (j = k)) as [->|Hjk].
    + assert (cj = c) by congruence. subst cj.
      rewrite pixel_cell, Hnew, Hheap. unfold l.
      rewrite lookup_app_r by lia. now rewrite Nat.sub_diag.
    + assert (Hne : (j mod w, j / w) <> (k mod w, k / w))
        by (intros E; apply Hjk, position_inj, E).
      specialize (Hpix j cj ltac:(lia) Hcj).
      rewrite pixel_cell in Hpix |- *. rewrite Hold, Hheap by assumption.
      destruct (cell t tgt (j mod w) (j / w)) as [lj|]; [|discriminate].
      now apply lookup_app_l_Some.
Qed.

Lemma loadInv_init : loadInv s tgt w cs 0 (0, 0) s.
Proof.
  split; [|split].
  - now rewrite Z.mod_0_l, Z.div_0_l by lia.
  - auto.
  - intros j c Hj. lia.
Qed.

Lemma load_loop :
  exists pos' s',
    foldM (seqZ 0 (w * h)) (0, 0) (loadGroup tgt imageData w) s = Ret pos' s'
    /\ forall j c, 0 <= j < w * h -> cs !! Z.to_nat j = Some c ->
         pixel s' tgt (j mod w) (j / w) = Some (reloaded c).
Proof.
  destruct (Z.le_gt_cases (w * h) 0) as [Hle|Hgt].
  - exists (0, 0), s. rewrite seqZ_nil by lia. split; [reflexivity|]. intros; lia.
  - destruct (foldM_seqZ_inv (loadInv s tgt w cs) (loadGroup tgt imageData w) (Z.to_nat (w * h)) 0
                loadInv_step (0, 0) s loadInv_init) as [pos' [s' [E (_ & _ & Hpix)]]].
    rewrite Z2Nat.id in E, Hpix by lia.
    exists pos', s'. split; [exact E|]. intros j c Hj. apply Hpix. lia.
Qed.

End LoadLoop.

Lemma truthy_ofZ (z : Z) : truthy (ofZ z) = negb (z =? 0).
Proof.
  unfold truthy, Qc_is_zero, ofZ, ofQ. rewrite this_ofZ. f_equal.
  change 0%Q with (inject_Z 0).
  pose proof (num_eqb_ofZ z 0) as H. unfold num_eqb, ofZ, ofQ in H.
  now rewrite !this_ofZ in H.
Qed.

Section RoundTrip.

Variables (s : Store) (src tgt : nat) (vs vt : MinimalView.t) (w h : Z).
Hypothesis Hsrc : views s !! src = Some vs.
Hypothesis Htgt : views s !! tgt = Some vt.
Hypothesis Hw : MinimalView.width vs = w.
Hypothesis Hh : MinimalView.height vs = h.
Hypothesis Hwidth : MinimalView.width vt = w.
Hypothesis Hheight : MinimalView.height vt = h.
Hypothesis Hfull : forall x y, 0 <= x < w -> 0 <= y < h ->
  exists c, pixel s src x y = Some c /\ printable c.
Hypothesis Hcells : forall x y, 0 <= x < w -> 0 <= y < h -> is_Some (cell s tgt x y).
Hypothesis Hwmax : w < 10 ^ 21.
Hypothesis Hhmax : h < 10 ^ 21.

Lemma roundtrip_toString :
  imageToString src s = Ret (payload w h (rowMajor s src w h)) s.
Proof.
  rewrite <- Hw, <- Hh. apply imageToString_payload; auto.
  rewrite Hw, Hh. intros x y Hx Hy.
  destruct (Hfull x y Hx Hy) as [c [Hc _]]. rewrite Hc. eauto.
Qed.

Lemma roundtrip_printable : 0 < w -> Forall printable (rowMajor s src w h).
Proof.
  intros Hpos. apply Forall_forall. intros c Hc.
  apply list_elem_of_In, list_elem_of_lookup in Hc as [j Hj].
  assert (Hlt : (j < length (rowMajor s src w h))%nat) by (eapply lookup_lt_Some; eauto).
  assert (Hh0 : 0 <= h).
  { destruct (Z.le_gt_cases 0 h); auto. unfold rowMajor in Hlt.
    rewrite (seqZ_nil 0 h) in Hlt by lia. simpl in Hlt. lia. }
  rewrite rowMajor_length in Hlt by lia.
  assert (Hjr : 0 <= Z.of_nat j < w * h) by lia.
  pose proof (rowMajor_lookup s src w h (Z.of_nat j) Hpos Hjr) as Hl.
  rewrite Nat2Z.id in Hl. rewrite Hl in Hj. injection Hj as <-.
  assert (0 < h) by nia.
  destruct (Hfull (Z.of_nat j mod w) (Z.of_nat j / w)) as [c [Hc Hser]].
  - apply Z.mod_pos_bound. lia.
  - split; [apply Z.div_pos; lia|]. apply Z.div_lt_upper_bound; lia.
  - unfold colorAt. now rewrite Hc.
Qed.

Lemma roundtrip_run : 0 < w -> 0 < h ->
  exists s', imageFromString tgt (payload w h (rowMajor s src w h)) s = Ret tt s'
    /\ forall j c, 0 <= j < w * h -> rowMajor s src w h !! Z.to_nat j = Some c ->
         pixel s' tgt (j mod w) (j / w) = Some (reloaded c).
Proof.
  intros Hwpos Hhpos.
  set (cs := rowMajor s src w h). set (str := payload w h cs).
  assert (Hlen : length cs = Z.to_nat (w * h)) by (apply rowMajor_length; lia).
  pose proof (split_payload w h cs) as Hsplit. fold str in Hsplit.
  destruct (load_loop s tgt w h cs (split ";" str) Hwpos Hsplit
              (roundtrip_printable Hwpos) Hlen Hcells) as [pos' [s' [Hloop Hpix]]].
  exists s'. split; [|exact Hpix].
  unfold imageFromString.
  destruct (String.eqb_spec str EmptyString) as [E|_].
  { rewrite E in Hsplit. discriminate. }
  assert (Hl : length (split ";" str) = S (S (S (length cs)))).
  { rewrite Hsplit. cbn [length]. rewrite length_app, length_map. simpl. lia. }
  rewrite Hl. cbn [Nat.ltb Nat.leb].
  rewrite Hsplit. cbn [nth]. rewrite <- Hsplit.
  rewrite !parseInt_numToString by lia.
  rewrite (bind_Ret _ _ _ _ _ (getWidth_eq _ _ _ Htgt)).
  rewrite (bind_Ret _ _ _ _ _ (getHeight_eq _ _ _ Htgt)).
  rewrite Hwidth, Hheight.
  rewrite !truthy_ofZ, !num_eqb_ofZ, !Z.eqb_refl.
  destruct (Z.eqb_spec w 0); [lia|]. destruct (Z.eqb_spec h 0); [lia|].
  cbn [negb orb].
  rewrite nmul_ofZ, nadd_ofZ, num_eqb_ofZ, Hlen.
  destruct (Z.eqb_spec (Z.of_nat (S (S (S (Z.to_nat (w * h)))))) (w * h + 3)); [|nia].
  cbn [negb].
  now rewrite (bind_Ret _ _ _ _ _ Hloop).
Qed.

Lemma roundtrip_pixel (x y : Z) (c : Color.t) :
  0 <= x < w -> 0 <= y < h -> pixel s src x y = Some c ->
  exists s', imageFromString tgt (payload w h (rowMajor s src w h)) s = Ret tt s'
             /\ pixel s' tgt x y = Some (reloaded c).
Proof.
  intros Hx Hy Hc.
  destruct roundtrip_run as [s' [Hrun Hpix]]; [lia|lia|].
  exists s'. split; [exact Hrun|].
  specialize (Hpix (y * w + x) c).
  assert (Em : (y * w + x) mod w = x).
  { rewrite Z.add_comm, Z.mod_add by lia. apply Z.mod_small. lia. }
  assert (Ed : (y * w + x) / w = y).
  { rewrite Z.add_comm, Z.div_add by lia. rewrite Z.div_small by lia. lia. }
  rewrite Em, Ed in Hpix. apply Hpix; [nia|].
  rewrite rowMajor_lookup by (try nia; lia). rewrite Em, Ed.
  unfold colorAt. now rewrite Hc.
Qed.

End RoundTrip.

(** C7, as amended.  Take a surface less than 10^21 wide and high, with no
    absent pixel, whose colours have integer red, green and blue below 10^21
    in magnitude (where JavaScript prints an integer with all its digits) and
    a numeric alpha: [NaN] or a number whose decimal expansion ends within
    1074 digits, as that of every finite double does
    ([binary64_finiteAlpha]).  [imageToString] returns a string, and
    [imageFromString] of that string on a surface of the same width and
    height with all its cells in place makes every pixel of the target a new
    colour with the red, green, blue and alpha of the corresponding pixel of
    the original, which is that pixel's colour when it is a plain 255-mode
    colour (not flagged transparent or normalized). *)
Theorem imageFromString_imageToString
    (s : Store) (src tgt : nat) (vs vt : MinimalView.t) :
  views s !! src = Some vs ->
  views s !! tgt = Some vt ->
  MinimalView.width vt = MinimalView.width vs ->
  MinimalView.height vt = MinimalView.height vs ->
  MinimalView.width vs < 10 ^ 21 ->
  MinimalView.height vs < 10 ^ 21 ->
  (forall x y, 0 <= x < MinimalView.width vs -> 0 <= y < MinimalView.height vs ->
     exists c, pixel s src x y = Some c /\ printable c) ->
  (forall x y, 0 <= x < MinimalView.width vs -> 0 <= y < MinimalView.height vs ->
     is_Some (cell s tgt x y)) ->
  exists (str : string) (s' : Store),
    imageToString src s = Ret str s
    /\ final (imageFromString tgt str s) = s'
    /\ (0 < MinimalView.width vs -> 0 < MinimalView.height vs ->
        imageFromString tgt str s = Ret tt s')
    /\ forall x y c,
         0 <= x < MinimalView.width vs -> 0 <= y < MinimalView.height vs ->
         pixel s src x y = Some c ->
         pixel s' tgt x y = Some (reloaded c)
         /\ (Color.transparent c = false -> Color.normalized c = false ->
             pixel s' tgt x y = Some c).
Proof.
  intros Hsrc Htgt Hwidth Hheight Hwmax Hhmax Hfull Hcells.
  set (w := MinimalView.width vs) in *. set (h := MinimalView.height vs) in *.
  exists (payload w h (rowMajor s src w h)).
  eexists. split; [now apply (roundtrip_toString s src vs w h Hsrc eq_refl eq_refl Hfull)|].
  split; [reflexivity|].
  pose proof (roundtrip_pixel s src tgt vt w h Htgt Hwidth Hheight Hfull Hcells
                Hwmax Hhmax) as Hmain.
  split.
  - intros Hw Hh.
    destruct (Hfull 0 0) as [c [Hc _]]; [lia|lia|].
    destruct (Hmain 0 0 c ltac:(lia) ltac:(lia) Hc) as [s' [Hrun _]].
    now rewrite Hrun.
  - intros x y c Hx Hy Hc.
    destruct (Hmain x y c Hx Hy Hc) as [s' [Hrun Hp]]. rewrite Hrun. cbn [final].
    split; [exact Hp|]. intros Ht Hn. rewrite Hp. f_equal.
    destruct c; simpl in *; now subst.
Qed.

(** ** The source of a point filter (C1) *)

(** C1 (the code departs from the claim).  The point filters that change a
    colour ([invert], [grayscale], [assignChannelValue], [blend]) call the
    mutating [Color] method on the very object the source view holds and then
    store that object in the destination.  On the 1x1 source holding
    (10, 20, 30, 1) with a distinct destination, the source pixel reads
    (245, 235, 225, 1) after [invert], (18, 18, 18, 1) after [grayscale],
    (7, 20, 30, 1) after assigning 7 to the red channel and (0, 0, 0, 0) after
    a MULTIPLIED blend with the all-zero view: it is not what it was before
    the call. *)
Theorem point_filters_mutate_source :
  pixel scenePoint 0 0 0 = Some (rgba 10 20 30 1)
  /\ pixel (final (Filters.invert 0 1 scenePoint)) 0 0 0 = Some (rgba 245 235 225 1)
  /\ pixel (final (Filters.grayscale 0 1 scenePoint)) 0 0 0 = Some (rgba 18 18 18 1)
  /\ pixel (final (Filters.assignChannelValue 0 1 "r" "7" scenePoint)) 0 0 0
     = Some (rgba 7 20 30 1)
  /\ pixel (final (Filters.blend 0 1 1 Color.MULTIPLIED scenePoint)) 0 0 0
     = Some (rgba 0 0 0 0).
Proof. repeat split; vm_compute; reflexivity. Qed.

(** The sibling filter [threshold] builds a new colour and leaves the source
    pixel as it was. *)
Lemma threshold_keeps_source :
  pixel (final (Filters.threshold 0 1 (Some 1%nat) (Some 1%nat) (Some 1%nat) false scenePoint))
        0 0 0
  = Some (rgba 10 20 30 1).
Proof. vm_compute. reflexivity. Qed.

(** ** translate (C2) *)

(** [fill()] without a colour changes nothing: [setColor] ignores an
    undefined colour. *)
Lemma forEach_noop {A} (l : list A) (body : A -> M unit) (s : Store) :
  (forall i, body i s = Ret tt s) -> forEach l body s = Ret tt s.
Proof.
  intros H. induction l as [|i l IH]; simpl; [reflexivity|].
  now rewrite (bind_Ret _ _ _ _ _ (H i)).
Qed.

Lemma fill_undefined (s : Store) (v : nat) (w : MinimalView.t) :
  views s !! v = Some w -> fill v None s = Ret tt s.
Proof.
  intros Hv. unfold fill.
  rewrite (bind_Ret _ _ _ _ _ (getWidth_eq _ _ _ Hv)).
  apply forEach_noop. intros x.
  rewrite (bind_Ret _ _ _ _ _ (getHeight_eq _ _ _ Hv)).
  apply forEach_noop. intros y. reflexivity.
Qed.

(** C2 (the code departs from the claim).  [translate] stores the fill colour
    in [backgroundColor] and calls [fill()] without an argument, which writes
    nothing.  Translating the 1x1 source (10, 20, 30, 1) by (1, 0) into the
    2x1 destination holding (7, 7, 7, 1) and (8, 8, 8, 1), with the fill
    colour white: the destination pixel (0, 0), which no source pixel covers,
    still holds (7, 7, 7, 1) and not white; pixel (1, 0) holds the source
    pixel. *)
Theorem translate_does_not_fill :
  let s' := final (Filters.translate 0 1 1 0 (Some 6%nat) sceneTranslate) in
  heap sceneTranslate !! 6%nat = Some (rgba 255 255 255 1)
  /\ pixel sceneTranslate 1 0 0 = Some (rgba 7 7 7 1)
  /\ pixel s' 1 0 0 = Some (rgba 7 7 7 1)
  /\ pixel s' 1 1 0 = Some (rgba 10 20 30 1)
  /\ (MinimalView.backgroundColor <$> views s' !! 1%nat) = Some (Some 6%nat).
Proof. repeat split; vm_compute; reflexivity. Qed.

(** ** Histograms (C3) *)




(** ** erosion on a uniform 3x3 block (C4) *)

(** C4, counterexample.  On the 3x3 source filled with white, with white as
    erosion and neighbour colour, tolerance 0 and threshold 7, the interior
    pixel (1, 1) of the destination does not hold the replacement colour
    (black). *)
Lemma erosion_threshold_7_not_replaced :
  pixel (final (Filters.erosion 0 1 (Some 19%nat) (ofZ 7) (ofZ 0)
                  (Some 20%nat) (Some 21%nat) sceneErosion)) 1 1 1
  <> heap sceneErosion !! 21%nat.
Proof. vm_compute. discriminate. Qed.

(** The amended C4 on the 3x3 white scene with tolerance 0. *)
Lemma erosion_3x3_uniform_witness :
  let s' := final (Filters.erosion 0 1 (Some 19%nat) (ofZ 7) (ofZ 0)
                     (Some 20%nat) (Some 21%nat) sceneErosion) in
  (cell s' 1 1 1 = if ngt (ofZ 6) (ofZ 7) then Some 21%nat else cell sceneErosion 0 1 1)
  /\ (pixel s' 1 1 1
      = if ngt (ofZ 6) (ofZ 7) then Some (rgba 0 0 0 1) else Some (rgba 255 255 255 1))
  /\ (ofZ 7 = ofZ 7 -> pixel s' 1 1 1 = Some (rgba 255 255 255 1))
  /\ (ofZ 7 = ofZ 5 -> pixel s' 1 1 1 = Some (rgba 0 0 0 1)).
Proof.
  apply (erosion_3x3_uniform sceneErosion 0 1
           (MinimalView.mk 3 3 [[9; 9; 9]; [9; 9; 9]; [9; 9; 9]]%nat None)
           19%nat 20%nat 21%nat (rgba 255 255 255 1) (rgba 255 255 255 1) (rgba 0 0 0 1)).
  - vm_compute; reflexivity.
  - reflexivity.
  - reflexivity.
  - intros x y Hx Hy.
    assert (Ex : x = 0 \/ x = 1 \/ x = 2) by lia.
    assert (Ey : y = 0 \/ y = 1 \/ y = 2) by lia.
    destruct Ex as [-> | [-> | ->]], Ey as [-> | [-> | ->]]; vm_compute; reflexivity.
  - vm_compute; reflexivity.
  - vm_compute; reflexivity.
  - vm_compute; reflexivity.
  - vm_compute; reflexivity.
  - vm_compute; reflexivity.
  - vm_compute. eexists. reflexivity.
Defined.

(** ** maskFilter with the identity kernel (C5) *)

(** C5 (the code departs from the claim).  The sampled coordinate is
    [Math.round((x - 1/2 + 0 + width) % width)]: the remainder is taken before
    the rounding, so for [x = 0] it is [round(width - 1/2) = width], outside
    the surface, and the sample is skipped.  With the kernel [[1]], factor 1
    and bias 0 on the 2x2 source, only the destination pixel (1, 1) holds its
    source pixel; every pixel of row 0 and of column 0 holds (0, 0, 0, 0). *)
Theorem maskFilter_identity_loses_first_row_and_column :
  let s' := final (Filters.maskFilter 0 1 [[ofZ 1]] (ofZ 1) (ofZ 0) sceneMask) in
  pixel sceneMask 0 0 0 = Some (rgba 10 20 30 1)
  /\ pixel sceneMask 0 1 0 = Some (rgba 40 50 60 1)
  /\ pixel sceneMask 0 0 1 = Some (rgba 70 80 90 1)
  /\ pixel sceneMask 0 1 1 = Some (rgba 100 110 120 1)
  /\ pixel s' 1 0 0 = Some (rgba 0 0 0 0)
  /\ pixel s' 1 1 0 = Some (rgba 0 0 0 0)
  /\ pixel s' 1 0 1 = Some (rgba 0 0 0 0)
  /\ pixel s' 1 1 1 = Some (rgba 100 110 120 1)
  /\ Filters.wrapCoord 0 1 0 2 = ofZ 2
  /\ Filters.wrapCoord 1 1 0 2 = ofZ 1.
Proof. repeat split; vm_compute; reflexivity. Qed.

(** ** bilinearInterpolatePixel (C6) *)

(** C6 at the only pixel of a 1x1 view. *)
Lemma bilinearInterpolatePixel_at_integer_witness :
  exists (l' : loc) (s' : Store),
    Filters.bilinearInterpolatePixel 0 (ofZ 0) (ofZ 0) scenePoint = Ret (Some l') s'
    /\ heap s' !! l' = Some (rgba 10 20 30 1).
Proof.
  destruct (bilinearInterpolatePixel_at_integer scenePoint 0
              (MinimalView.mk 1 1 [[1%nat]] None) 0 0 1%nat (rgba 10 20 30 1))
    as [l' [s' [Hrun [Hval _]]]].
  - vm_compute; reflexivity.
  - cbn. lia.
  - cbn. lia.
  - vm_compute; reflexivity.
  - vm_compute; reflexivity.
  - repeat split; try (eexists; split; [|reflexivity]; lia).
    exists (Q2Qc 1). repeat split; discriminate.
  - exists l', s'. split; [exact Hrun|exact Hval].
Defined.

(** ** The image string (C7, C8) *)

(** C7, counterexample.  From 1e21 up JavaScript prints an integer in
    exponent notation, of which [parseInt] reads the digits before the point
    or the exponent: the 1x1 surface holding (10^21, 2, 3, 1), whose channels
    are integers, is written as ["1;1;1e+21,2,3,1;"], and loading that string
    leaves (1, 2, 3, 1) in the target. *)
Lemma image_string_channel_1e21 :
  pixel sceneHuge 0 0 0 = Some (rgba (10 ^ 21) 2 3 1)
  /\ imageToString 0 sceneHuge = Ret "1;1;1e+21,2,3,1;"%string sceneHuge
  /\ pixel (final (imageFromString 1 "1;1;1e+21,2,3,1;" sceneHuge)) 1 0 0
     = Some (rgba 1 2 3 1)
  /\ Color.r (rgba 1 2 3 1) <> Color.r (rgba (10 ^ 21) 2 3 1).
Proof. repeat split; try (vm_compute; reflexivity). vm_compute; discriminate. Qed.

(** C7 on a 2x1 source with the colours (1, 2, 3, a) and (4, 5, 6, 1), where
    [a] is the double next to 128/255. *)
Lemma imageFromString_imageToString_witness :
  exists (str : string) (s' : Store),
    imageToString 0 sceneAlpha = Ret str sceneAlpha
    /\ final (imageFromString 1 str sceneAlpha) = s'
    /\ pixel s' 1 0 0 = Some (rgba 1 2 3 (282578800148737 # 2 ^ 49))
    /\ pixel s' 1 1 0 = Some (rgba 4 5 6 1).
Proof.
  destruct (imageFromString_imageToString sceneAlpha 0 1
              (MinimalView.mk 2 1 [[2; 3]]%nat None)
              (MinimalView.mk 2 1 [[4; 5]]%nat None))
    as [str [s' [Hstr [Hfin [_ Hpix]]]]].
  - vm_compute; reflexivity.
  - vm_compute; reflexivity.
  - reflexivity.
  - reflexivity.
  - reflexivity.
  - reflexivity.
  - intros x y Hx Hy. cbn in Hx, Hy.
    assert (Ey : y = 0) by lia. assert (Ex : x = 0 \/ x = 1) by lia. subst y.
    destruct Ex as [-> | ->].
    + exists (rgba 1 2 3 (282578800148737 # 2 ^ 49)). split; [vm_compute; reflexivity|].
      repeat split; try (eexists; split; [|reflexivity]; reflexivity).
      right. exists (Q2Qc (282578800148737 # 2 ^ 49)). split; [reflexivity|].
      exists (10 ^ 1074 / 2 ^ 49). vm_compute; reflexivity.
    + exists (rgba 4 5 6 1). split; [vm_compute; reflexivity|].
      repeat split; try (eexists; split; [|reflexivity]; reflexivity).
      right. exists (Q2Qc 1). split; [reflexivity|].
      exists (10 ^ 1074). vm_compute; reflexivity.
  - intros x y Hx Hy. cbn in Hx, Hy.
    assert (Ey : y = 0) by lia. assert (Ex : x = 0 \/ x = 1) by lia. subst y.
    destruct Ex as [-> | ->]; vm_compute; eexists; reflexivity.
  - exists str, s'. split; [exact Hstr|]. split; [exact Hfin|]. split.
    + destruct (Hpix 0 0 (rgba 1 2 3 (282578800148737 # 2 ^ 49))) as [_ H];
        [cbn; lia|cbn; lia|vm_compute; reflexivity|].
      apply H; reflexivity.
    + destruct (Hpix 1 0 (rgba 4 5 6 1)) as [_ H];
        [cbn; lia|cbn; lia|vm_compute; reflexivity|].
      apply H; reflexivity.
Defined.

(** C8 (the code departs from the claim).  [xPos] advances only inside the
    branch that applies a group, so a skipped group does not consume its
    coordinate and every later group lands one pixel early.  Loading
    ["2;1;null,0,0,0;1,2,3,1;"] into the 2x1 target holding (9, 9, 9, 1) and
    (8, 8, 8, 1): pixel (0, 0), the coordinate of the skipped group, receives
    (1, 2, 3, 1), and pixel (1, 0), the coordinate of the second group, keeps
    (8, 8, 8, 1). *)
Theorem imageFromString_null_group_shifts_the_rest :
  let s' := final (imageFromString 0 "2;1;null,0,0,0;1,2,3,1;" sceneLoad) in
  pixel sceneLoad 0 0 0 = Some (rgba 9 9 9 1)
  /\ pixel sceneLoad 0 1 0 = Some (rgba 8 8 8 1)
  /\ pixel s' 0 0 0 = Some (rgba 1 2 3 1)
  /\ pixel s' 0 1 0 = Some (rgba 8 8 8 1).
Proof. repeat split; vm_compute; reflexivity. Qed.

(** ** Color.blend under CROSS (C9) *)



(** ** detectEdges (C10) *)

(** C10, counterexample.  The loops run over the interior of the source and
    [setColor] checks the coordinates against the destination only: with the
    5x5 source of [sceneEdges] and its 3x3 destination, [detectEdges] stores
    (255, 255, 255, 0) at (2, 2), a corner of the destination, which held
    (0, 0, 0, 0). *)
Lemma detectEdges_rewrites_smaller_destination :
  let s' := final (Filters.detectEdges 0 1 sceneEdges) in
  Filters.detectEdges 0 1 sceneEdges = Ret tt s'
  /\ dims sceneEdges 0 = Some (5, 5) /\ dims sceneEdges 1 = Some (3, 3)
  /\ pixel sceneEdges 0 2 2 = Some (rgba 128 128 128 1)
  /\ pixel sceneEdges 1 2 2 = Some (rgba 0 0 0 0)
  /\ pixel s' 1 2 2 = Some (rgba 255 255 255 0).
Proof. repeat split; vm_compute; reflexivity. Qed.

(** C10, as amended.  [detectEdges] scans the interior of the source
    rectangle only, [1 <= x <= width - 2] and [1 <= y <= height - 2], and
    writes nothing else: every cell of the destination outside that interior
    refers to the object it referred to before, and that object is unchanged.
    In particular, for a destination at least as wide and as tall as the
    source, each pixel on the outermost border of the destination ([x = 0],
    [x = width - 1], [y = 0] or [y = height - 1]) holds exactly its prior
    value.  This holds whether the call returns or throws, and when source and
    destination are one view. *)
Theorem detectEdges_leaves_border (s : Store) (src dst : nat) (ws : MinimalView.t) :
  views s !! src = Some ws ->
  let s' := final (Filters.detectEdges src dst s) in
  (forall x y,
     x <= 0 \/ MinimalView.width ws - 1 <= x \/ y <= 0 \/ MinimalView.height ws - 1 <= y ->
     cell s' dst x y = cell s dst x y
     /\ forall c, pixel s dst x y = Some c -> pixel s' dst x y = Some c)
  /\ (forall wd,
        views s !! dst = Some wd ->
        MinimalView.width ws <= MinimalView.width wd ->
        MinimalView.height ws <= MinimalView.height wd ->
        dims s' dst = dims s dst
        /\ forall x y,
             x = 0 \/ x = MinimalView.width wd - 1 \/ y = 0 \/ y = MinimalView.height wd - 1 ->
             cell s' dst x y = cell s dst x y
             /\ forall c, pixel s dst x y = Some c -> pixel s' dst x y = Some c).
Proof.
  intros Hsrc s'.
  assert (Hframe : forall x y,
    x <= 0 \/ MinimalView.width ws - 1 <= x \/ y <= 0 \/ MinimalView.height ws - 1 <= y ->
    cell s' dst x y = cell s dst x y
    /\ forall c, pixel s dst x y = Some c -> pixel s' dst x y = Some c).
  { intros x y Hb.
    destruct (detectEdges_edgeInv s src dst x y ws Hsrc Hb) as (Hheap & _ & Hcell).
    fold s' in Hheap, Hcell. split; [exact Hcell|].
    intros c. rewrite !pixel_cell, Hcell.
    destruct (cell s dst x y); [apply Hheap|discriminate]. }
  split; [exact Hframe|].
  intros wd Hdst Hw Hh. split.
  - destruct (detectEdges_edgeInv s src dst 0 0 ws Hsrc (or_introl (Z.le_refl 0)))
      as (_ & Hdims & _).
    apply Hdims.
  - intros x y Hb. apply Hframe. lia.
Qed.

(** C10 on the 3x3 scene: two border cells and the corner pixel (2, 2). *)
Lemma detectEdges_leaves_border_witness :
  let s' := final (Filters.detectEdges 0 1 sceneErosion) in
  cell s' 1 0 0 = cell sceneErosion 1 0 0
  /\ cell s' 1 2 1 = cell sceneErosion 1 2 1
  /\ pixel s' 1 2 2 = Some (rgba 0 0 0 0).
Proof.
  destruct (detectEdges_leaves_border sceneErosion 0 1
              (MinimalView.mk 3 3 [[9; 9; 9]; [9; 9; 9]; [9; 9; 9]]%nat None) eq_refl)
    as [Hframe _].
  split; [|split].
  - apply (Hframe 0 0). cbn. lia.
  - apply (Hframe 2 1). cbn. lia.
  - apply (Hframe 2 2); [cbn; lia|vm_compute; reflexivity].
Defined.

(** * More properties of the code *)

(** ** Helper lemmas on numbers *)

Lemma Qc_round_bounds (q : Qc) (lo hi : Z) :
  (inject_Z lo <= this q)%Q -> (this q <= inject_Z hi)%Q -> lo <= Qc_round q <= hi.
Proof.
  intros Hlo Hhi. unfold Qc_round. split.
  - rewrite <- (Qfloor_half lo). apply Qfloor_resp_le. lra.
  - rewrite <- (Qfloor_half hi). apply Qfloor_resp_le. lra.
Qed.

Lemma nlt_Fin_true (p q : Qc) : (this p < this q)%Q -> nlt (Fin p) (Fin q) = true.
Proof.
  intros H. unfold nlt. apply negb_true_iff.
  destruct (Qle_bool (this q) (this p)) eqn:E; auto.
  apply Qle_bool_iff in E. lra.
Qed.

Lemma nlt_Fin_iff (p q : Qc) : nlt (Fin p) (Fin q) = true <-> (this p < this q)%Q.
Proof.
  split; [|apply nlt_Fin_true].
  intros H. destruct (Qlt_le_dec (this p) (this q)) as [|Hle]; auto.
  rewrite nlt_Fin_false in H by assumption. discriminate.
Qed.

(** isKindaSortaEqual on finite numbers *)
Lemma isKindaSortaEqual_Fin (p q t : Qc) :
  isKindaSortaEqual (Fin p) (Fin q) (Fin t) = true
  <-> (this q - this t <= this p)%Q /\ (this p <= this q + this t)%Q.
Proof.
  unfold isKindaSortaEqual, ngt, nadd, nsub, lift2.
  assert (E1 : (this (q + t)%Qc == this q + this t)%Q) by (qc2q; reflexivity).
  assert (E2 : (this (q - t)%Qc == this q - this t)%Q) by (qc2q; reflexivity).
  destruct (nlt (Fin (q + t)%Qc) (Fin p)) eqn:A.
  - apply nlt_Fin_iff in A. split; [discriminate|]. intros [_ H]. lra.
  - destruct (nlt (Fin p) (Fin (q - t)%Qc)) eqn:B.
    + apply nlt_Fin_iff in B. split; [discriminate|]. intros [H _]. lra.
    + split; [|reflexivity]. intros _.
      destruct (Qlt_le_dec (this (q + t)%Qc) (this p)) as [H|H];
        [apply nlt_Fin_true in H; congruence|].
      destruct (Qlt_le_dec (this p) (this (q - t)%Qc)) as [H'|H'];
        [apply nlt_Fin_true in H'; congruence|].
      lra.
Qed.

Lemma inject_Z_le (a b : Z) : a <= b -> (inject_Z a <= inject_Z b)%Q.
Proof. intros H. unfold Qle. simpl. lia. Qed.

(** ** Color.isEqual *)

Lemma within_iff (t p q : Qc) :
  within t (Fin p) (Fin q) <-> isKindaSortaEqual (Fin p) (Fin q) (Fin t) = true.
Proof.
  rewrite isKindaSortaEqual_Fin. split.
  - intros (p' & q' & Ep & Eq & H1 & H2). injection Ep as <-. injection Eq as <-. lra.
  - intros H. exists p, q. repeat split; auto; lra.
Qed.

Lemma Qc_zero_eq (t : Qc) : Qc_is_zero t = true -> Fin t = ofZ 0.
Proof.
  intros H. unfold ofZ, ofQ. f_equal. apply Qc_is_canon.
  apply Qeq_bool_iff in H. rewrite H. reflexivity.
Qed.

Lemma within_0 (p q : Qc) : within (Q2Qc 0) (Fin p) (Fin q) <-> Fin p = Fin q.
Proof.
  split.
  - intros (p' & q' & Ep & Eq & H1 & H2). injection Ep as <-. injection Eq as <-.
    f_equal. apply Qc_is_canon.
    change (this (Q2Qc 0)) with 0%Q in H1, H2. lra.
  - intros E. injection E as ->. exists q, q.
    change (this (Q2Qc 0)) with 0%Q. repeat split; auto; lra.
Qed.

Lemma isEqual_Fin (c d : Color.t) (t : Qc) : numericColor c -> numericColor d ->
  Color.isEqual c d (Fin t) = true
  <-> within t (Color.r c) (Color.r d) /\ within t (Color.g c) (Color.g d)
      /\ within t (Color.b c) (Color.b d) /\ within t (Color.a c) (Color.a d)
      /\ Color.transparent c = Color.transparent d.
Proof.
  intros ([pr Hr] & [pg Hg] & [pb Hb] & [pa Ha]) ([qr Hr'] & [qg Hg'] & [qb Hb'] & [qa Ha']).
  unfold Color.isEqual. rewrite Hr, Hg, Hb, Ha, Hr', Hg', Hb', Ha'.
  assert (Et : (if truthy (Fin t) then Fin t else ofZ 0) = Fin t).
  { simpl. destruct (Qc_is_zero t) eqn:E; simpl; auto. symmetry. now apply Qc_zero_eq. }
  rewrite Et. rewrite !within_iff.
  destruct (isKindaSortaEqual (Fin pr) (Fin qr) (Fin t)); simpl; [|intuition discriminate].
  destruct (isKindaSortaEqual (Fin pg) (Fin qg) (Fin t)); simpl; [|intuition discriminate].
  destruct (isKindaSortaEqual (Fin pb) (Fin qb) (Fin t)); simpl; [|intuition discriminate].
  destruct (isKindaSortaEqual (Fin pa) (Fin qa) (Fin t)); simpl; [|intuition discriminate].
  destruct (Color.transparent c), (Color.transparent d); simpl; intuition discriminate.
Qed.

Lemma validPixel_numeric (c : Color.t) : validPixel c -> numericColor c.
Proof.
  intros ([kr [_ Hr]] & [kg [_ Hg]] & [kb [_ Hb]] & [qa [Ha _]]).
  repeat split; eexists; eassumption.
Qed.

(** X1.  For two colours whose four channels are numbers, [isEqual] without
    a tolerance ([undefined]) or with the tolerance 0 is true exactly when the
    four channels are equal and the [transparent] flags agree.  For two
    colours with integer red, green and blue from 0 to 255 and an alpha in
    [0, 1], [isEqual] with an integer tolerance [k] (up to 2^52 in magnitude,
    where the sums and differences of integers are exact in doubles) is true
    exactly when red, green, blue and alpha each differ by at most [k] and
    the flags agree.  The flag [normalized] is not compared. *)
Theorem isEqual_tolerance (c d : Color.t) :
  numericColor c -> numericColor d ->
  (Color.isEqual c d NaN = true
   <-> Color.r c = Color.r d /\ Color.g c = Color.g d /\ Color.b c = Color.b d
       /\ Color.a c = Color.a d /\ Color.transparent c = Color.transparent d)
  /\ Color.isEqual c d (ofZ 0) = Color.isEqual c d NaN
  /\ (validPixel c -> validPixel d ->
      forall k : Z, Z.abs k <= 2 ^ 52 ->
      let t := Q2Qc (inject_Z k) in
      Color.isEqual c d (ofZ k) = true
      <-> within t (Color.r c) (Color.r d) /\ within t (Color.g c) (Color.g d)
          /\ within t (Color.b c) (Color.b d) /\ within t (Color.a c) (Color.a d)
          /\ Color.transparent c = Color.transparent d).
Proof.
  intros Hc Hd. split; [|split].
  - assert (E : Color.isEqual c d NaN = Color.isEqual c d (Fin (Q2Qc 0))) by reflexivity.
    rewrite E, (isEqual_Fin c d _ Hc Hd).
    destruct Hc as ([pr Hr] & [pg Hg] & [pb Hb] & [pa Ha]).
    destruct Hd as ([qr Hr'] & [qg Hg'] & [qb Hb'] & [qa Ha']).
    rewrite Hr, Hg, Hb, Ha, Hr', Hg', Hb', Ha', !within_0. reflexivity.
  - reflexivity.
  - intros _ _ k _ t. now apply isEqual_Fin.
Qed.

(** X1 on (10, 20, 30, 1) and (12, 19, 30, 1): equal within the tolerance 2, not
    equal without a tolerance. *)
Lemma isEqual_tolerance_witness :
  Color.isEqual (rgba 10 20 30 1) (rgba 12 19 30 1) (ofZ 2) = true
  /\ Color.isEqual (rgba 10 20 30 1) (rgba 12 19 30 1) NaN <> true.
Proof.
  assert (V1 : validPixel (rgba 10 20 30 1)).
  { repeat split; try (eexists; split; [|reflexivity]; lia).
    exists (Q2Qc 1). repeat split; discriminate. }
  assert (V2 : validPixel (rgba 12 19 30 1)).
  { repeat split; try (eexists; split; [|reflexivity]; lia).
    exists (Q2Qc 1). repeat split; discriminate. }
  assert (H1 : numericColor (rgba 10 20 30 1)) by (repeat split; eexists; reflexivity).
  assert (H2 : numericColor (rgba 12 19 30 1)) by (repeat split; eexists; reflexivity).
  destruct (isEqual_tolerance _ _ H1 H2) as (Hn & _ & Ht).
  split.
  - apply (Ht V1 V2 2); [lia|].
    repeat split; try (eexists _, _; repeat split; vm_compute; discriminate).
  - intros E. apply Hn in E. destruct E as [E _]. vm_compute in E. discriminate.
Defined.

(** ** Invert *)

(** X2.  On a colour whose red, green and blue are integers from 0 to 255,
    [invert] gives red, green and blue in the same range, keeps alpha, and
    applied twice gives the colour back. *)
Theorem invert_involution (c : Color.t) :
  channel255 (Color.r c) -> channel255 (Color.g c) -> channel255 (Color.b c) ->
  channel255 (Color.r (Color.invert c)) /\ channel255 (Color.g (Color.invert c))
  /\ channel255 (Color.b (Color.invert c))
  /\ Color.a (Color.invert c) = Color.a c
  /\ Color.invert (Color.invert c) = c.
Proof.
  intros [kr [Hkr Hr]] [kg [Hkg Hg]] [kb [Hkb Hb]].
  destruct c as [cr cg cb ca ct cn]; cbn [Color.r Color.g Color.b] in *; subst.
  unfold Color.invert; cbn [Color.r Color.g Color.b Color.a Color.transparent Color.normalized].
  rewrite !nsub_ofZ.
  repeat split; try (eexists; split; [|reflexivity]; lia).
  f_equal; f_equal; lia.
Qed.

(** X2 on (10, 20, 30, 1). *)
Lemma invert_involution_witness :
  Color.invert (Color.invert (rgba 10 20 30 1)) = rgba 10 20 30 1.
Proof.
  apply (invert_involution (rgba 10 20 30 1));
    (eexists; split; [|reflexivity]; lia).
Defined.

Ltac color_fields :=
  cbn [Color.r Color.g Color.b Color.a Color.transparent Color.normalized].

(** ** Grayscale *)

Lemma luminance_bounds (kr kg kb lo hi : Z) :
  lo <= kr <= hi -> lo <= kg <= hi -> lo <= kb <= hi ->
  exists k, lo <= k <= hi
    /\ Math_round (nadd (nadd (nmul (ofZ kr) (ofQ (299 # 1000)))
                              (nmul (ofZ kg) (ofQ (587 # 1000))))
                        (nmul (ofZ kb) (ofQ (114 # 1000)))) = ofZ k.
Proof.
  intros Hr Hg Hb. unfold nadd, nmul, lift2, ofZ at 1 2 3, ofQ. unfold Math_round.
  eexists. split; [|reflexivity].
  apply Qc_round_bounds; qc2q.
  - assert (inject_Z lo <= inject_Z kr)%Q by (apply inject_Z_le; lia).
    assert (inject_Z lo <= inject_Z kg)%Q by (apply inject_Z_le; lia).
    assert (inject_Z lo <= inject_Z kb)%Q by (apply inject_Z_le; lia).
    lra.
  - assert (inject_Z kr <= inject_Z hi)%Q by (apply inject_Z_le; lia).
    assert (inject_Z kg <= inject_Z hi)%Q by (apply inject_Z_le; lia).
    assert (inject_Z kb <= inject_Z hi)%Q by (apply inject_Z_le; lia).
    lra.
Qed.

(** X3.  On a 255-mode colour whose red, green and blue are integers from 0
    to 255, [grayscale] sets the three channels to one integer that lies
    between the least and the greatest of them and keeps alpha and the flags;
    a second [grayscale] changes nothing. *)
Theorem grayscale_255 (c : Color.t) (kr kg kb : Z) :
  Color.normalized c = false ->
  Color.r c = ofZ kr -> Color.g c = ofZ kg -> Color.b c = ofZ kb ->
  0 <= kr <= 255 -> 0 <= kg <= 255 -> 0 <= kb <= 255 ->
  exists k : Z,
    Z.min kr (Z.min kg kb) <= k <= Z.max kr (Z.max kg kb)
    /\ Color.grayscale c
       = Color.mk (ofZ k) (ofZ k) (ofZ k) (Color.a c) (Color.transparent c) false
    /\ Color.grayscale (Color.grayscale c) = Color.grayscale c.
Proof.
  intros Hn Hr Hg Hb Hkr Hkg Hkb.
  destruct (luminance_bounds kr kg kb (Z.min kr (Z.min kg kb)) (Z.max kr (Z.max kg kb)))
    as [k [Hk Ek]]; [lia|lia|lia|].
  exists k. split; [exact Hk|].
  assert (E : Color.grayscale c
              = Color.mk (ofZ k) (ofZ k) (ofZ k) (Color.a c) (Color.transparent c) false).
  { unfold Color.grayscale. rewrite Hn, Hr, Hg, Hb. cbv zeta. now rewrite Ek. }
  split; [exact E|]. rewrite E.
  destruct (luminance_bounds k k k k k) as [k' [Hk' Ek']]; [lia|lia|lia|].
  unfold Color.grayscale. color_fields. cbv zeta. rewrite Ek'.
  now replace k' with k by lia.
Qed.

(** X3 on (10, 20, 30, 1). *)
Lemma grayscale_255_witness :
  exists k : Z, 10 <= k <= 30
    /\ Color.grayscale (rgba 10 20 30 1) = rgba k k k 1
    /\ Color.grayscale (Color.grayscale (rgba 10 20 30 1)) = Color.grayscale (rgba 10 20 30 1).
Proof.
  destruct (grayscale_255 (rgba 10 20 30 1) 10 20 30) as [k [Hk HE]];
    try reflexivity; try lia.
  exists k. split; [simpl in Hk; lia|exact HE].
Defined.

(** ** Clamp *)

Lemma clamp_clampTo (c : Color.t) :
  Color.clamp c
  = let m := if Color.normalized c then ofZ 1 else ofZ 255 in
    Color.mk (clampTo m (Color.r c)) (clampTo m (Color.g c)) (clampTo m (Color.b c))
             (clampTo (ofZ 1) (Color.a c)) (Color.transparent c) (Color.normalized c).
Proof. reflexivity. Qed.

Lemma clampTo_bounded (hi : Z) (p : Qc) : 0 <= hi -> bounded hi (clampTo (ofZ hi) (Fin p)).
Proof.
  intros Hhi. unfold clampTo, ngt. cbv zeta.
  assert (H0 : (0 <= inject_Z hi)%Q) by (change 0%Q with (inject_Z 0); apply inject_Z_le; lia).
  destruct (nlt (Fin p) (ofZ 0)) eqn:E0.
  - rewrite nlt_ofZ. destruct (Z.ltb_spec hi 0); [lia|].
    exists (Q2Qc (inject_Z 0)). split; [reflexivity|]. rewrite this_ofZ. split; [apply Qle_refl|exact H0].
  - destruct (nlt (ofZ hi) (Fin p)) eqn:E1.
    + exists (Q2Qc (inject_Z hi)). split; [reflexivity|]. rewrite this_ofZ. split; [exact H0|apply Qle_refl].
    + exists p. split; [reflexivity|].
      unfold ofZ, ofQ in E0, E1. split.
      * destruct (Qlt_le_dec (this p) (this (Q2Qc (inject_Z 0)))) as [H|H];
          [apply nlt_Fin_true in H; congruence|]. now rewrite this_ofZ in H.
      * destruct (Qlt_le_dec (this (Q2Qc (inject_Z hi))) (this p)) as [H|H];
          [apply nlt_Fin_true in H; congruence|]. now rewrite this_ofZ in H.
Qed.

Lemma clampTo_fix (hi : Z) (x : num) : bounded hi x -> clampTo (ofZ hi) x = x.
Proof.
  intros [p (-> & H0 & H1)]. unfold clampTo, ngt. cbv zeta. unfold ofZ, ofQ.
  rewrite (nlt_Fin_false p) by (now rewrite this_ofZ).
  now rewrite (nlt_Fin_false _ p) by (now rewrite this_ofZ).
Qed.

(** X4.  On a colour whose four channels are numbers, [clamp] brings red,
    green and blue into [0, 255] (into [0, 1] for a normalized colour) and
    alpha into [0, 1]; clamping twice is clamping once, and a colour that is
    in range already is left as it is. *)
Theorem clamp_range (c : Color.t) :
  numericColor c ->
  let m := if Color.normalized c then 1 else 255 in
  let inRange (d : Color.t) :=
    bounded m (Color.r d) /\ bounded m (Color.g d) /\ bounded m (Color.b d)
    /\ bounded 1 (Color.a d) in
  inRange (Color.clamp c)
  /\ Color.clamp (Color.clamp c) = Color.clamp c
  /\ (inRange c -> Color.clamp c = c).
Proof.
  intros ([pr Hr] & [pg Hg] & [pb Hb] & [pa Ha]) m inRange.
  assert (Hm : (if Color.normalized c then ofZ 1 else ofZ 255) = ofZ m)
    by (unfold m; now destruct (Color.normalized c)).
  assert (Hm0 : 0 <= m) by (unfold m; destruct (Color.normalized c); lia).
  assert (Hfix : forall d, Color.normalized d = Color.normalized c -> inRange d ->
                   Color.clamp d = d).
  { intros d Hn (Br & Bg & Bb & Ba). rewrite clamp_clampTo. cbv zeta. rewrite Hn, Hm.
    rewrite !clampTo_fix by assumption. destruct d; simpl in *. now subst. }
  assert (Hin : inRange (Color.clamp c)).
  { unfold inRange. rewrite clamp_clampTo. cbv zeta. color_fields.
    rewrite Hm, Hr, Hg, Hb, Ha. repeat split; apply clampTo_bounded; lia. }
  split; [exact Hin|]. split; [|now apply Hfix].
  apply Hfix; [reflexivity|exact Hin].
Qed.

(** X4 on (300, -5, 20, 2), which clamps to (255, 0, 20, 1). *)
Lemma clamp_range_witness :
  Color.clamp (Color.new (ofZ 300) (ofZ (-5)) (ofZ 20) (ofZ 2))
  = Color.new (ofZ 255) (ofZ 0) (ofZ 20) (ofZ 1)
  /\ Color.clamp (Color.clamp (Color.new (ofZ 300) (ofZ (-5)) (ofZ 20) (ofZ 2)))
     = Color.clamp (Color.new (ofZ 300) (ofZ (-5)) (ofZ 20) (ofZ 2)).
Proof.
  split; [vm_compute; reflexivity|].
  apply (clamp_range (Color.new (ofZ 300) (ofZ (-5)) (ofZ 20) (ofZ 2))).
  repeat split; eexists; reflexivity.
Defined.

(** ** Normalisation round trip *)

Lemma unit_norm (k : Z) : 0 <= k <= 255 ->
  unitValue (Fin (Q2Qc (inject_Z k) / Q2Qc (inject_Z 255))%Qc).
Proof. intros Hk. eexists. split; [reflexivity|]. now apply norm_le1. Qed.

Lemma getNormalizedColor_unit (c : Color.t) :
  color255 c -> colorUnit (Color.getNormalizedColor c).
Proof.
  intros (Hn & [kr [Hkr Hr]] & [kg [Hkg Hg]] & [kb [Hkb Hb]] & Ha).
  unfold Color.getNormalizedColor. rewrite Hn. cbn [negb].
  rewrite Hr, Hg, Hb, !xlate255_ofZ by assumption.
  repeat split; color_fields; auto using unit_norm.
Qed.

(** X5.  For a 255-mode colour with integer red, green and blue from 0 to
    255 and alpha in [0, 1], [getNormalizedColor] gives a normalized colour
    with every channel in [0, 1], and [get255Color] of that colour has the
    red, green, blue and alpha of the original, with the flags of a new
    colour. *)
Theorem get255Color_getNormalizedColor (c : Color.t) :
  color255 c ->
  colorUnit (Color.getNormalizedColor c)
  /\ Color.get255Color (Color.getNormalizedColor c)
     = Color.mk (Color.r c) (Color.g c) (Color.b c) (Color.a c) false false.
Proof.
  intros H. split; [now apply getNormalizedColor_unit|].
  destruct H as (Hn & [kr [Hkr Hr]] & [kg [Hkg Hg]] & [kb [Hkb Hb]] & Ha).
  unfold Color.getNormalizedColor. rewrite Hn. cbn [negb].
  rewrite Hr, Hg, Hb, !xlate255_ofZ by assumption.
  unfold Color.get255Color. color_fields. cbn [negb].
  now rewrite !xlateTo255_norm by assumption.
Qed.

(** X5 on (10, 20, 30, 0.5). *)
Lemma get255Color_getNormalizedColor_witness :
  Color.get255Color (Color.getNormalizedColor (rgba 10 20 30 (1 # 2))) = rgba 10 20 30 (1 # 2).
Proof.
  apply (get255Color_getNormalizedColor (rgba 10 20 30 (1 # 2))).
  repeat split; try (eexists; split; [|reflexivity]; lia).
  exists (Q2Qc (1 # 2)). repeat split; discriminate.
Defined.

(** ** Color.blend *)

Lemma nlt_cases (p q : Qc) :
  (nlt (Fin p) (Fin q) = true /\ (this p < this q)%Q)
  \/ (nlt (Fin p) (Fin q) = false /\ (this q <= this p)%Q).
Proof.
  destruct (Qlt_le_dec (this p) (this q)) as [H|H].
  - left. split; [now apply nlt_Fin_true|exact H].
  - right. split; [now apply nlt_Fin_false|exact H].
Qed.

Lemma xlateTo255_channel (p : Qc) : channel255 (xlateNormalizedColorTo255Color (Fin p)).
Proof.
  unfold xlateNormalizedColorTo255Color, ngt.
  change (ofZ 0) with (Fin (Q2Qc (inject_Z 0))). change (ofZ 1) with (Fin (Q2Qc (inject_Z 1))).
  assert (R : forall x : Qc, (0 <= this x)%Q -> (this x <= 1)%Q ->
            channel255 (Math_round (nmul (Fin x) (ofZ 255)))).
  { intros x H0 H1. unfold nmul, lift2, ofZ at 1, ofQ, Math_round.
    eexists. split; [|reflexivity]. apply Qc_round_bounds; qc2q.
    - change (inject_Z 0) with 0%Q. change (inject_Z 255) with 255%Q. nra.
    - change (inject_Z 255) with 255%Q. nra. }
  destruct (nlt_cases p (Q2Qc (inject_Z 0))) as [[-> H0]|[-> H0]];
    [destruct (nlt_cases (Q2Qc (inject_Z 1)) (Q2Qc (inject_Z 0))) as [[-> H1]|[-> H1]]
    |destruct (nlt_cases (Q2Qc (inject_Z 1)) p) as [[-> H1]|[-> H1]]];
    rewrite ?this_ofZ in *; apply R; rewrite ?this_ofZ;
    change (inject_Z 0) with 0%Q in *; change (inject_Z 1) with 1%Q in *; lra.
Qed.

Lemma top_unitValue (v : Qc) : (0 <= this v)%Q ->
  unitValue (if nlt (ofZ 1) (Fin v) then ofZ 1 else Fin v).
Proof.
  intros H0. unfold ofZ, ofQ.
  destruct (nlt_cases (Q2Qc (inject_Z 1)) v) as [[-> H1]|[-> H1]].
  - eexists. split; [reflexivity|]. rewrite this_ofZ. split; discriminate.
  - eexists. split; [reflexivity|]. rewrite this_ofZ in H1. split; assumption.
Qed.

Lemma mix_unit (op : Color.blendOperation) (d s sa : num) :
  unitValue d -> unitValue s -> unitValue sa ->
  unitValue
    (let v := match op with
              | Color.CROSS => nadd (nmul d (nsub (ofZ 1) sa)) (nmul s sa)
              | Color.ADDITIVE => nadd d s
              | Color.ADDITIVE_ALPHA => nadd d (nmul s sa)
              | Color.MULTIPLIED => nmul d s
              end in
     if nlt (ofZ 1) v then ofZ 1 else v).
Proof.
  intros [pd (-> & Hd0 & Hd1)] [ps (-> & Hs0 & Hs1)] [pa (-> & Ha0 & Ha1)]. cbv zeta.
  destruct op; unfold nadd, nmul, nsub, lift2, ofZ at 2, ofQ;
    apply top_unitValue; qc2q; change (inject_Z 1) with 1%Q; nra.
Qed.

Lemma colorUnit_normalized (s : Color.t) :
  color255 s \/ colorUnit s -> colorUnit (Color.getNormalizedColor s).
Proof.
  intros [H|H].
  - now apply getNormalizedColor_unit.
  - destruct H as (Hn & Hr & Hg & Hb & Ha). unfold Color.getNormalizedColor.
    rewrite Hn. cbn [negb]. repeat split; assumption.
Qed.

(** X6.  [blend] of a 255-mode colour (integer channels from 0 to 255, alpha
    in [0, 1]) with a source colour that is such a 255-mode colour or a
    normalized colour with channels in [0, 1] gives, in each of the four blend
    modes, a 255-mode colour with integer channels from 0 to 255 and alpha in
    [0, 1]. *)
Theorem blend_valid (d s : Color.t) (op : Color.blendOperation) :
  color255 d -> color255 s \/ colorUnit s -> color255 (Color.blend d s op).
Proof.
  intros Hd Hs.
  pose proof (colorUnit_normalized d (or_introl Hd)) as (_ & Dr & Dg & Db & Da).
  pose proof (colorUnit_normalized s Hs) as (_ & Sr & Sg & Sb & Sa).
  destruct Hd as (Hn & _).
  unfold Color.blend. cbv zeta.
  set (nd := Color.getNormalizedColor d) in *. set (ns := Color.getNormalizedColor s) in *.
  repeat split; color_fields; [exact Hn| | | |].
  - destruct (mix_unit op _ _ _ Dr Sr Sa) as [q [E _]]. cbv zeta in E. rewrite E.
    apply xlateTo255_channel.
  - destruct (mix_unit op _ _ _ Dg Sg Sa) as [q [E _]]. cbv zeta in E. rewrite E.
    apply xlateTo255_channel.
  - destruct (mix_unit op _ _ _ Db Sb Sa) as [q [E _]]. cbv zeta in E. rewrite E.
    apply xlateTo255_channel.
  - apply (mix_unit op _ _ _ Da Sa Sa).
Qed.

(** X6 on the ADDITIVE blend of (200, 100, 50, 0.5) with (100, 200, 250, 0.5). *)
Lemma blend_valid_witness :
  color255 (Color.blend (rgba 200 100 50 (1 # 2)) (rgba 100 200 250 (1 # 2)) Color.ADDITIVE).
Proof.
  apply blend_valid; [|left];
    (repeat split; try (eexists; split; [|reflexivity]; lia);
     exists (Q2Qc (1 # 2)); repeat split; discriminate).
Defined.

(** ** The string methods of Color *)

Lemma removeAll_app (c : ascii) (a b : string) :
  ColorStrings.removeAll c (a +++ b) = ColorStrings.removeAll c a +++ ColorStrings.removeAll c b.
Proof.
  induction a as [|x a IH]; simpl; [reflexivity|].
  destruct (Ascii.eqb x c); simpl; now rewrite IH.
Qed.

Lemma removeAll_clean (c : ascii) (a : string) :
  Filters.indexOf a c = false -> ColorStrings.removeAll c a = a.
Proof.
  induction a as [|x a IH]; simpl; intros H; [reflexivity|].
  apply orb_false_iff in H as [Hx Ha]. now rewrite Hx, IH.
Qed.

Lemma removeAll_num (c : ascii) (x : num) :
  num_char c = false -> ColorStrings.removeAll c (numToString x) = numToString x.
Proof. intros H. apply removeAll_clean. now apply numToString_clean. Qed.

Lemma prefix_app (p s : string) : String.prefix p (p +++ s) = true.
Proof.
  induction p as [|x p IH]; simpl; [now destruct s|].
  destruct (ascii_dec x x); [exact IH|congruence].
Qed.

Lemma dropChars_app (p s : string) : ColorStrings.dropChars (String.length p) (p +++ s) = s.
Proof. induction p as [|x p IH]; simpl; [now destruct s|exact IH]. Qed.

Lemma removeFirst_prefix (x : ascii) (p s : string) :
  ColorStrings.removeFirst (String x p) (String x p +++ s) = s.
Proof.
  change (String x p +++ s) with (String x (p +++ s)).
  cbn [ColorStrings.removeFirst].
  change (String x (p +++ s)) with (String x p +++ s).
  now rewrite prefix_app, dropChars_app.
Qed.

Lemma paren_not_num : num_char ")" = false. Proof. reflexivity. Qed.
Lemma space_not_num : num_char " " = false. Proof. reflexivity. Qed.

(** the text between the parentheses, once the spaces are gone *)
Lemma strip_fields (c : Color.t) :
  ColorStrings.removeAll " " (ColorStrings.removeAll ")"
    (numToString (Color.r c) +++ ", " +++ numToString (Color.g c) +++ ", "
     +++ numToString (Color.b c) +++ ", " +++ numToString (Color.a c) +++ ")"))
  = fieldsString c.
Proof.
  rewrite !removeAll_app. rewrite !(removeAll_num ")") by apply paren_not_num.
  cbn [ColorStrings.removeAll Ascii.eqb Bool.eqb]. rewrite ?removeAll_app.
  rewrite ?(removeAll_num ")") by apply paren_not_num.
  rewrite !(removeAll_num " ") by apply space_not_num.
  cbn [ColorStrings.removeAll Ascii.eqb Bool.eqb]. unfold fieldsString.
  now rewrite !sapp_nil_r.
Qed.

(** X7.  For a colour [c] with integer red, green and blue (below 10^21 in
    magnitude) and an alpha with at most 17 decimals, [fromStringWithAlpha] of
    the string [c.toStringWithAlpha()] assigns the red, green, blue and alpha
    of [c] to the receiver and leaves the receiver's flags as they were. *)
Theorem fromStringWithAlpha_toStringWithAlpha (this c : Color.t) :
  serializable c ->
  ColorStrings.fromStringWithAlpha this (ColorStrings.toStringWithAlpha c)
  = Color.mk (Color.r c) (Color.g c) (Color.b c) (Color.a c)
             (Color.transparent this) (Color.normalized this).
Proof.
  intros ([kr [Hkr Hr]] & [kg [Hkg Hg]] & [kb [Hkb Hb]] & [qa [Ha Hex]]).
  apply exactDecimal_finite in Hex.
  unfold ColorStrings.fromStringWithAlpha, ColorStrings.toStringWithAlpha. cbv zeta.
  rewrite removeFirst_prefix, strip_fields, split_fields.
  unfold ColorStrings.element. cbn [nth].
  rewrite Hr, Hg, Hb, Ha, !parseInt_numToString, parseFloat_numToString by assumption.
  reflexivity.
Qed.

(** X7 on (10, 20, 30, 0.5), loaded into a new colour. *)
Lemma fromStringWithAlpha_toStringWithAlpha_witness :
  ColorStrings.fromStringWithAlpha Color.new0 (ColorStrings.toStringWithAlpha (rgba 10 20 30 (1 # 2)))
  = rgba 10 20 30 (1 # 2).
Proof.
  apply (fromStringWithAlpha_toStringWithAlpha Color.new0 (rgba 10 20 30 (1 # 2))).
  repeat split; try (eexists; split; [|reflexivity]; reflexivity).
  exists (Q2Qc (1 # 2)). split; [reflexivity|]. exists (10 ^ 17 / 2). vm_compute; reflexivity.
Defined.

Lemma strip_fields3 (c : Color.t) :
  ColorStrings.removeAll " " (ColorStrings.removeAll ")"
    (numToString (Color.r c) +++ ", " +++ numToString (Color.g c) +++ ", "
     +++ numToString (Color.b c) +++ ")"))
  = numToString (Color.r c) +++ "," +++ numToString (Color.g c) +++ ","
    +++ numToString (Color.b c).
Proof.
  rewrite !removeAll_app. rewrite !(removeAll_num ")") by apply paren_not_num.
  cbn [ColorStrings.removeAll Ascii.eqb Bool.eqb]. rewrite ?removeAll_app.
  rewrite ?(removeAll_num ")") by apply paren_not_num.
  rewrite !(removeAll_num " ") by apply space_not_num.
  cbn [ColorStrings.removeAll Ascii.eqb Bool.eqb].
  now rewrite !sapp_nil_r.
Qed.

Lemma split_fields3 (c : Color.t) :
  split "," (numToString (Color.r c) +++ "," +++ numToString (Color.g c) +++ ","
             +++ numToString (Color.b c))
  = [numToString (Color.r c); numToString (Color.g c); numToString (Color.b c)].
Proof.
  set (R := numToString (Color.r c)). set (G := numToString (Color.g c)).
  set (B := numToString (Color.b c)).
  change (split "," (R +++ String "," (G +++ String "," B)) = [R; G; B]).
  rewrite (split_app "," R), (split_app "," G), (split_clean "," B);
    auto; apply numToString_clean, comma_not_num.
Qed.

(** X8.  For a colour [c] with integer red, green and blue (below 10^21 in
    magnitude), [fromString] of the string [c.toString()] assigns the red,
    green and blue of [c] to the receiver and keeps the receiver's alpha and
    flags; when [c] is flagged transparent the string is the word
    "transparent" and the receiver becomes (0, 0, 0, 0), flagged transparent. *)
Theorem fromString_toString (this c : Color.t) :
  intChannel (Color.r c) -> intChannel (Color.g c) -> intChannel (Color.b c) ->
  ColorStrings.fromString this (ColorStrings.toString c)
  = if Color.transparent c
    then Color.mk (ofZ 0) (ofZ 0) (ofZ 0) (ofZ 0) true (Color.normalized this)
    else Color.mk (Color.r c) (Color.g c) (Color.b c) (Color.a this)
                  (Color.transparent this) (Color.normalized this).
Proof.
  intros [kr [Hkr Hr]] [kg [Hkg Hg]] [kb [Hkb Hb]].
  unfold ColorStrings.fromString, ColorStrings.toString. destruct (Color.transparent c); [reflexivity|].
  change (String.eqb "transparent" ("rgb(" +++ ?x)) with false. cbv iota zeta.
  rewrite removeFirst_prefix, strip_fields3, split_fields3.
  unfold ColorStrings.element. cbn [nth].
  now rewrite Hr, Hg, Hb, !parseInt_numToString by assumption.
Qed.

(** X8 on (10, 20, 30, 1), plain and flagged transparent, loaded into
    (1, 2, 3, 0.5). *)
Lemma fromString_toString_witness :
  ColorStrings.fromString (rgba 1 2 3 (1 # 2)) (ColorStrings.toString (rgba 10 20 30 1)) = rgba 10 20 30 (1 # 2)
  /\ ColorStrings.fromString (rgba 1 2 3 (1 # 2))
       (ColorStrings.toString (Color.mk (ofZ 10) (ofZ 20) (ofZ 30) (ofZ 1) true false))
     = Color.mk (ofZ 0) (ofZ 0) (ofZ 0) (ofZ 0) true false.
Proof.
  split.
  - apply (fromString_toString (rgba 1 2 3 (1 # 2)) (rgba 10 20 30 1));
      (eexists; split; [|reflexivity]; reflexivity).
  - apply (fromString_toString (rgba 1 2 3 (1 # 2))
             (Color.mk (ofZ 10) (ofZ 20) (ofZ 30) (ofZ 1) true false));
      (eexists; split; [|reflexivity]; reflexivity).
Defined.






(** ** The string methods of HistogramResult *)

(** the values after the first, each behind its comma *)
Lemma appendValues_succ (vs : list num) (n : nat) (acc : string) :
  HistogramResult.appendValues vs (S n) acc = acc +++ sconcat (map (fun x => "," +++ numToString x) vs).
Proof.
  revert n acc. induction vs as [|x vs IH]; intros n acc; cbn [HistogramResult.appendValues map sconcat].
  - now rewrite sapp_nil_r.
  - cbn [Nat.eqb]. rewrite IH. now rewrite !sapp_assoc.
Qed.

Lemma appendValues_cons (x : num) (vs : list num) (acc : string) :
  HistogramResult.appendValues (x :: vs) 0 acc
  = acc +++ numToString x +++ sconcat (map (fun x => "," +++ numToString x) vs).
Proof. cbn [HistogramResult.appendValues Nat.eqb]. rewrite appendValues_succ. now rewrite sapp_assoc. Qed.

Lemma split_values (a : string) (vs : list num) :
  Filters.indexOf a "," = false ->
  split "," (a +++ sconcat (map (fun x => "," +++ numToString x) vs))
  = a :: map numToString vs.
Proof.
  revert a. induction vs as [|x vs IH]; intros a Ha; cbn [map sconcat].
  - rewrite sapp_nil_r. now apply split_clean.
  - change (a +++ ("," +++ numToString x) +++ sconcat (map (fun x => "," +++ numToString x) vs))
      with (a +++ String "," (numToString x
                               +++ sconcat (map (fun x => "," +++ numToString x) vs))).
    rewrite split_app by assumption. f_equal. apply IH.
    apply numToString_clean, comma_not_num.
Qed.

Lemma values_clean (vs : list num) :
  Filters.indexOf (sconcat (map (fun x => "," +++ numToString x) vs)) ";" = false.
Proof.
  induction vs as [|x vs IH]; cbn [map sconcat]; [reflexivity|].
  rewrite !occurs_app, IH. now rewrite numToString_clean by apply semicolon_not_num.
Qed.

Lemma loadValues_lookup (vs : list num) : Forall intChannel vs ->
  forall (k : nat) (bucket : list num), (k + length vs <= length bucket)%nat ->
  length (HistogramResult.loadValues (map numToString vs) k bucket) = length bucket
  /\ forall i : nat,
       HistogramResult.loadValues (map numToString vs) k bucket !! i
       = if decide (k <= i < k + length vs)%nat then vs !! (i - k)%nat else bucket !! i.
Proof.
  induction 1 as [|x vs [n [Hn Hx]] _ IH]; intros k bucket Hlen; cbn [map HistogramResult.loadValues length].
  - split; [reflexivity|]. intros i. destruct (decide _); [lia|reflexivity].
  - cbn [length] in Hlen. subst x. rewrite parseInt_numToString by assumption.
    unfold arr_set. rewrite toZ_ofZ. destruct (Z.ltb_spec (Z.of_nat k) 0); [lia|].
    rewrite Nat2Z.id. destruct (Nat.ltb_spec k (length bucket)); [|lia].
    destruct (IH (S k) (<[k := ofZ n]> bucket)) as [Hl Hi]; [rewrite length_insert; lia|].
    rewrite length_insert in Hl. split; [exact Hl|].
    intros i. rewrite Hi.
    destruct (decide (S k <= i < S k + length vs)%nat) as [H1|H1].
    + destruct (decide (k <= i < k + S (length vs))%nat); [|lia].
      replace (i - k)%nat with (S (i - S k)) by lia. reflexivity.
    + destruct (decide (k <= i < k + S (length vs))%nat) as [H2|H2].
      * assert (i = k) by lia. subst i. rewrite Nat.sub_diag.
        rewrite list_lookup_insert_eq by lia. reflexivity.
      * rewrite list_lookup_insert_ne by lia. reflexivity.
Qed.

Lemma loadValues_all (vs bucket : list num) :
  Forall intChannel vs -> length bucket = length vs ->
  HistogramResult.loadValues (map numToString vs) 0 bucket = vs.
Proof.
  intros Hvs Hlen. destruct (loadValues_lookup vs Hvs 0 bucket) as [Hl Hi]; [lia|].
  apply list_eq. intros i. rewrite Hi.
  destruct (decide (0 <= i < 0 + length vs)%nat) as [H|H].
  - now rewrite Nat.sub_0_r.
  - rewrite !lookup_ge_None_2; auto; lia.
Qed.

(** the text of one channel *)
Lemma channel_text (arr : list num) (acc : string) : intTable arr ->
  exists T : string,
    HistogramResult.appendValues arr 0 acc = acc +++ T
    /\ Filters.indexOf T ";" = false
    /\ split "," T = map numToString arr.
Proof.
  intros [Hlen _]. destruct arr as [|x vs]; [discriminate|].
  exists (numToString x +++ sconcat (map (fun x => "," +++ numToString x) vs)).
  split; [apply appendValues_cons|]. split.
  - rewrite occurs_app, values_clean. now rewrite numToString_clean by apply semicolon_not_num.
  - apply split_values. apply numToString_clean, comma_not_num.
Qed.

(** X10.  For a histogram result [h] whose four tables hold 256 integers each
    (below 10^21 in magnitude), [fromString] of the string [h.toString()], on
    a receiver whose four tables have 256 entries, makes the receiver equal to
    [h]. *)
Theorem HistogramResult_fromString_toString (this h : HistogramResult.t) :
  intTable (HistogramResult.red h) -> intTable (HistogramResult.green h) ->
  intTable (HistogramResult.blue h) -> intTable (HistogramResult.alpha h) ->
  length (HistogramResult.red this) = 256%nat ->
  length (HistogramResult.green this) = 256%nat ->
  length (HistogramResult.blue this) = 256%nat ->
  length (HistogramResult.alpha this) = 256%nat ->
  HistogramResult.fromString this (HistogramResult.toString h) = h.
Proof.
  intros Hr Hg Hb Ha Lr Lg Lb La.
  unfold HistogramResult.toString. cbv zeta.
  destruct (channel_text _ ""%string Hr) as [R (ER & CR & SR)]. rewrite ER.
  destruct (channel_text _ (("" +++ R) +++ ";") Hg) as [G (EG & CG & SG)]. rewrite EG.
  destruct (channel_text _ (((("" +++ R) +++ ";") +++ G) +++ ";") Hb) as [B (EB & CB & SB)].
  rewrite EB.
  destruct (channel_text _ (((((("" +++ R) +++ ";") +++ G) +++ ";") +++ B) +++ ";") Ha)
    as [A (EA & CA & SA)].
  rewrite EA.
  assert (Hsplit : split ";" ((((((("" +++ R) +++ ";") +++ G) +++ ";") +++ B) +++ ";") +++ A)
                   = [R; G; B; A]).
  { cbn [String.append]. rewrite !sapp_assoc.
    change (split ";" (R +++ String ";" (G +++ String ";" (B +++ String ";" A))) = [R; G; B; A]).
    now rewrite !split_app, split_clean by assumption. }
  unfold HistogramResult.fromString. rewrite Hsplit. cbn [HistogramResult.loadElements].
  rewrite SR, SG, SB, SA.
  destruct Hr as [Hr1 Hr2], Hg as [Hg1 Hg2], Hb as [Hb1 Hb2], Ha as [Ha1 Ha2].
  cbn [HistogramResult.red HistogramResult.green HistogramResult.blue HistogramResult.alpha].
  rewrite !loadValues_all by (auto; congruence).
  now destruct h.
Qed.

Lemma intTable_table (f : Z -> Z) :
  (forall k, 0 <= k < 256 -> Z.abs (f k) < 10 ^ 21) -> intTable (table f).
Proof.
  intros H. split; [apply table_length|].
  apply Forall_forall. intros x Hx.
  apply list_elem_of_In in Hx. unfold table in Hx.
  apply list_elem_of_fmap in Hx as [k [-> Hk]]. apply elem_of_seqZ in Hk.
  exists (f k). split; [apply H; lia|reflexivity].
Qed.

(** X10 on four tables of 256 integers, loaded into a new histogram result. *)
Lemma HistogramResult_fromString_toString_witness :
  HistogramResult.fromString HistogramResult.new
    (HistogramResult.toString (HistogramResult.mk (table (fun k => k)) (table (fun k => 2 * k))
                                  (table (fun _ => 7)) (table (fun k => 255 - k))))
  = HistogramResult.mk (table (fun k => k)) (table (fun k => 2 * k))
                       (table (fun _ => 7)) (table (fun k => 255 - k)).
Proof.
  apply HistogramResult_fromString_toString;
    try (apply intTable_table; intros; cbn [HistogramResult.red]; lia);
    reflexivity.
Defined.

(** ** Loops that return *)

Lemma forEach_inv {A} (P : Store -> Prop) (l : list A) (body : A -> M unit) :
  (forall i t, i ∈ l -> P t -> exists t', body i t = Ret tt t' /\ P t') ->
  forall s, P s -> exists s', forEach l body s = Ret tt s' /\ P s'.
Proof.
  induction l as [|i l IH]; intros Hb s Hs; cbn [forEach].
  - exists s. split; [reflexivity|exact Hs].
  - destruct (Hb i s (list_elem_of_here _ _) Hs) as [t [E Ht]].
    rewrite (bind_Ret _ _ _ _ _ E). apply IH; [|exact Ht].
    intros j t' Hj. apply Hb. now right.
Qed.

(** A loop that visits [a] at most once: [I false] holds until the visit and
    [I true] from then on. *)
Lemma forEach_track {A} `{EqDecision A} (a : A) (I : bool -> Store -> Prop)
    (l : list A) (body : A -> M unit) :
  NoDup l ->
  (forall i t b, i ∈ l -> i <> a -> I b t -> exists t', body i t = Ret tt t' /\ I b t') ->
  (forall t, a ∈ l -> I false t -> exists t', body a t = Ret tt t' /\ I true t') ->
  forall s, I false s ->
  exists s', forEach l body s = Ret tt s' /\ I (bool_decide (a ∈ l)) s'.
Proof.
  intros Hnd Hother Hhit.
  assert (G : forall (b : bool) s, I b s -> (b = true -> a ∉ l) ->
            exists s', forEach l body s = Ret tt s' /\ I (b || bool_decide (a ∈ l)) s').
  { induction l as [|i l IH]; intros b s Hs Hb; cbn [forEach].
    - exists s. split; [reflexivity|]. rewrite bool_decide_eq_false_2 by apply not_elem_of_nil.
      now rewrite orb_false_r.
    - apply list.NoDup_cons in Hnd as [Hi Hnd].
      destruct (decide (i = a)) as [->|Hne].
      + destruct b; [exfalso; apply Hb; [reflexivity|left]|].
        destruct (Hhit s (list_elem_of_here _ _) Hs) as [t [E Ht]].
        rewrite (bind_Ret _ _ _ _ _ E).
        destruct (IH Hnd) with (b := true) (s := t) as [s' [E' Hs']]; auto.
        * intros j t' b' Hj. apply Hother. now right.
        * intros t' Ha. apply Hhit. now right.
        * exists s'. split; [exact E'|].
          rewrite bool_decide_eq_true_2 by left. exact Hs'.
      + destruct (Hother i s b (list_elem_of_here _ _) Hne Hs) as [t [E Ht]].
        rewrite (bind_Ret _ _ _ _ _ E).
        destruct (IH Hnd) with (b := b) (s := t) as [s' [E' Hs']]; auto.
        * intros j t' b' Hj. apply Hother. now right.
        * intros t' Ha. apply Hhit. now right.
        * intros Hbt Ha. apply (Hb Hbt). now right.
        * exists s'. split; [exact E'|].
          replace (bool_decide (a ∈ i :: l)) with (bool_decide (a ∈ l)); [exact Hs'|].
          apply bool_decide_ext. rewrite elem_of_cons. intuition congruence. }
  intros s Hs. destruct (G false s Hs) as [s' [E Hs']]; [discriminate|].
  exists s'. split; [exact E|exact Hs'].
Qed.

Lemma dims_view (s : Store) (v : nat) (w h : Z) :
  dims s v = Some (w, h) ->
  exists vw, views s !! v = Some vw /\ MinimalView.width vw = w /\ MinimalView.height vw = h.
Proof.
  unfold dims. destruct (views s !! v) as [vw|]; [|discriminate].
  intros E. injection E as <- <-. eauto.
Qed.

Lemma getWidth_dims (s : Store) (v : nat) (w h : Z) :
  dims s v = Some (w, h) -> getWidth v s = Ret w s.
Proof. intros H. destruct (dims_view _ _ _ _ H) as (vw & E & <- & _). now apply getWidth_eq. Qed.

Lemma getHeight_dims (s : Store) (v : nat) (w h : Z) :
  dims s v = Some (w, h) -> getHeight v s = Ret h s.
Proof. intros H. destruct (dims_view _ _ _ _ H) as (vw & E & _ & <-). now apply getHeight_eq. Qed.

(** ** The two nested loops of a filter, tracked at one coordinate *)

Section RectLoop.

Variables (src : nat) (w h : Z) (LX LY : Z -> list Z) (body : Z -> Z -> M unit).
Variables (x0 y0 : Z) (I : bool -> Store -> Prop).
Hypothesis Hdims : forall b t, I b t -> dims t src = Some (w, h).
Hypothesis HLX : NoDup (LX w).
Hypothesis HLY : NoDup (LY h).
Hypothesis Hother : forall x y b t, x ∈ LX w -> y ∈ LY h -> (x, y) <> (x0, y0) ->
  I b t -> exists t', body x y t = Ret tt t' /\ I b t'.
Hypothesis Hhit : forall t, x0 ∈ LX w -> y0 ∈ LY h ->
  I false t -> exists t', body x0 y0 t = Ret tt t' /\ I true t'.

Lemma loop_xy_track (s : Store) : I false s ->
  exists s',
    (do w' <- getWidth src;
     forEach (LX w') (fun x => do h' <- getHeight src; forEach (LY h') (body x))) s
    = Ret tt s'
    /\ I (bool_decide (x0 ∈ LX w) && bool_decide (y0 ∈ LY h)) s'.
Proof.
  intros Hs. rewrite (bind_Ret _ _ _ _ _ (getWidth_dims _ _ _ _ (Hdims _ _ Hs))).
  apply (forEach_track x0 (fun b => I (b && bool_decide (y0 ∈ LY h)))); auto.
  - intros x t b Hx Hne Ht.
    rewrite (bind_Ret _ _ _ _ _ (getHeight_dims _ _ _ _ (Hdims _ _ Ht))).
    apply forEach_inv; [|exact Ht].
    intros y t' Hy Ht'. apply Hother; auto. congruence.
  - intros t Hx Ht. cbn [andb] in Ht |- *.
    rewrite (bind_Ret _ _ _ _ _ (getHeight_dims _ _ _ _ (Hdims _ _ Ht))).
    apply (forEach_track y0 I); auto.
    intros y t' b Hy Hne Ht'. apply Hother; auto. congruence.
Qed.

Lemma loop_yx_track (s : Store) : I false s ->
  exists s',
    (do h' <- getHeight src;
     forEach (LY h') (fun y => do w' <- getWidth src; forEach (LX w') (fun x => body x y))) s
    = Ret tt s'
    /\ I (bool_decide (x0 ∈ LX w) && bool_decide (y0 ∈ LY h)) s'.
Proof.
  intros Hs. rewrite (bind_Ret _ _ _ _ _ (getHeight_dims _ _ _ _ (Hdims _ _ Hs))).
  rewrite andb_comm.
  apply (forEach_track y0 (fun b => I (b && bool_decide (x0 ∈ LX w)))); auto.
  - intros y t b Hy Hne Ht.
    rewrite (bind_Ret _ _ _ _ _ (getWidth_dims _ _ _ _ (Hdims _ _ Ht))).
    apply forEach_inv; [|exact Ht].
    intros x t' Hx Ht'. apply Hother; auto. congruence.
  - intros t Hy Ht. cbn [andb] in Ht |- *.
    rewrite (bind_Ret _ _ _ _ _ (getWidth_dims _ _ _ _ (Hdims _ _ Ht))).
    apply (forEach_track x0 I); auto.
    intros x t' b Hx Hne Ht'. apply Hother; auto. congruence.
Qed.

End RectLoop.

(** ** One cell written *)

Lemma rows_set_absent (cs : list (list loc)) (i j : Z) (l : loc) :
  rows_get cs i j = None -> rows_set cs i j l = cs.
Proof.
  unfold rows_get, rows_set.
  destruct ((0 >? i) || (0 >? j) || (j >=? Z.of_nat (length cs))) eqn:Eg; auto.
  destruct (cs !! Z.to_nat j) as [row|] eqn:Erow; auto.
  destruct (i >=? Z.of_nat (length row)) eqn:Ei; auto.
  intros H. apply lookup_ge_None in H.
  apply orb_false_iff in Eg as [Eg _]. apply orb_false_iff in Eg as [Eg _]. lia.
Qed.

Lemma setColor_cell (s : Store) (v : nat) (i j : Z) (o : option loc) :
  cell (final (setColor v i j o s)) v i j = written (cell s v i j) o.
Proof.
  destruct o as [l|];
    [|change (cell s v i j = written (cell s v i j) None); now destruct (cell s v i j)].
  destruct (cell s v i j) as [l0|] eqn:E.
  - cbn [written]. apply setColor_cell_eq. rewrite E. eauto.
  - cbn [written]. cbn [setColor]. unfold bind, view, cell in *.
    destruct (views s !! v) as [vw|] eqn:Ev; cbn [final]; [|now rewrite Ev].
    unfold setView. cbn [final views].
    rewrite list_lookup_insert_eq by (eapply lookup_lt_Some; eauto).
    cbn [MinimalView.colors]. now rewrite rows_set_absent.
Qed.

Lemma setColor_views_some (s : Store) (v : nat) (i j : Z) (o : option loc) (u : nat) :
  is_Some (views s !! u) -> is_Some (views (final (setColor v i j o s)) !! u).
Proof.
  intros Hu. apply lookup_lt_is_Some in Hu. apply lookup_lt_is_Some.
  destruct o as [l|]; cbn [setColor]; [|exact Hu].
  unfold bind, view. destruct (views s !! v); cbn [final]; [|exact Hu].
  unfold setView. cbn [final views]. now rewrite length_insert.
Qed.

Lemma dims_is_Some (s : Store) (v : nat) (w h : Z) :
  dims s v = Some (w, h) -> is_Some (views s !! v).
Proof. intros H. destruct (dims_view _ _ _ _ H) as (vw & E & _). eauto. Qed.

Lemma is_Some_dims (s : Store) (v : nat) : is_Some (views s !! v) -> is_Some (dims s v).
Proof. intros [vw E]. unfold dims. rewrite E. eauto. Qed.

Lemma getColor_cell (s : Store) (v : nat) (x y : Z) :
  is_Some (views s !! v) -> getColor v x y s = Ret (cell s v x y) s.
Proof. intros [vw E]. unfold cell. rewrite E. now apply getColor_eq. Qed.

(** Two nested loops over fixed ranges, the inner one over [lx]. *)
Lemma loop_plain_yx_track (lx ly : list Z) (body : Z -> Z -> M unit) (x0 y0 : Z)
    (I : bool -> Store -> Prop) :
  NoDup lx -> NoDup ly ->
  (forall x y b t, x ∈ lx -> y ∈ ly -> (x, y) <> (x0, y0) ->
     I b t -> exists t', body x y t = Ret tt t' /\ I b t') ->
  (forall t, x0 ∈ lx -> y0 ∈ ly ->
     I false t -> exists t', body x0 y0 t = Ret tt t' /\ I true t') ->
  forall s, I false s ->
  exists s',
    forEach ly (fun y => forEach lx (fun x => body x y)) s = Ret tt s'
    /\ I (bool_decide (x0 ∈ lx) && bool_decide (y0 ∈ ly)) s'.
Proof.
  intros Hlx Hly Hother Hhit s Hs. rewrite andb_comm.
  apply (forEach_track y0 (fun b => I (b && bool_decide (x0 ∈ lx)))); auto.
  - intros y t b Hy Hne Ht.
    apply forEach_inv; [|exact Ht].
    intros x t' Hx Ht'. apply Hother; auto. congruence.
  - intros t Hy Ht. cbn [andb] in Ht |- *.
    apply (forEach_track x0 I); auto.
    intros x t' b Hx Hne Ht'. apply Hother; auto. congruence.
Qed.

(** ** setColor and getColor *)

(** X11.  [setColor(i, j, colour)] on a view returns, and [getColor(i, j)]
    then returns that colour object when [(i, j)] is a cell of the view and
    the colour is not [null], and what the cell held before otherwise; no other
    cell of any view, no colour object and no width or height changes. *)
Theorem getColor_setColor (s : Store) (v : nat) (i j : Z) (o : option loc) :
  is_Some (views s !! v) ->
  let s' := final (setColor v i j o s) in
  setColor v i j o s = Ret tt s'
  /\ getColor v i j s' = Ret (written (cell s v i j) o) s'
  /\ (forall u x y, (u, x, y) <> (v, i, j) -> cell s' u x y = cell s u x y)
  /\ heap s' = heap s
  /\ (forall u, dims s' u = dims s u).
Proof.
  intros Hv s'. split; [now apply setColor_Ret|]. split; [|split; [|split]].
  - rewrite getColor_cell by (now apply setColor_views_some).
    f_equal. apply setColor_cell.
  - intros u x y Hne. apply setColor_cell_ne.
    destruct (decide (u = v)) as [->|]; [right|now left]. congruence.
  - apply setColor_heap.
  - intros u. apply setColor_dims.
Qed.

(** X11 on the scene [sceneMask]. *)
Lemma getColor_setColor_witness :
  getColor 1 1 1 (final (setColor 1 1 1 (Some 2%nat) sceneMask))
  = Ret (Some 2%nat) (final (setColor 1 1 1 (Some 2%nat) sceneMask))
  /\ getColor 1 5 5 (final (setColor 1 5 5 (Some 2%nat) sceneMask))
     = Ret None (final (setColor 1 5 5 (Some 2%nat) sceneMask)).
Proof.
  split.
  - apply (getColor_setColor sceneMask 1 1 1 (Some 2%nat)). vm_compute; eauto.
  - apply (getColor_setColor sceneMask 1 5 5 (Some 2%nat)). vm_compute; eauto.
Defined.

(** ** fill *)

Lemma fillInv_other s v l x0 y0 x y b t :
  is_Some (views s !! v) -> (x, y) <> (x0, y0) -> fillInv s v l x0 y0 b t ->
  exists t', setColor v x y (Some l) t = Ret tt t' /\ fillInv s v l x0 y0 b t'.
Proof.
  intros Hv Hne (Hh & Hd & Ho & Hc).
  assert (Hvt : is_Some (views t !! v)).
  { destruct (is_Some_dims _ _ Hv) as [[w h] E]. apply (dims_is_Some _ _ w h). now rewrite Hd. }
  eexists. split; [now apply setColor_Ret|].
  repeat split.
  - now rewrite setColor_heap.
  - intros u. now rewrite setColor_dims.
  - intros u x' y' Hu. rewrite setColor_cell_ne by (now left). now apply Ho.
  - rewrite setColor_cell_ne by (right; congruence). exact Hc.
Qed.

Lemma fillInv_hit s v l x0 y0 t :
  is_Some (views s !! v) -> fillInv s v l x0 y0 false t ->
  exists t', setColor v x0 y0 (Some l) t = Ret tt t' /\ fillInv s v l x0 y0 true t'.
Proof.
  intros Hv (Hh & Hd & Ho & Hc).
  assert (Hvt : is_Some (views t !! v)).
  { destruct (is_Some_dims _ _ Hv) as [[w h] E]. apply (dims_is_Some _ _ w h). now rewrite Hd. }
  eexists. split; [now apply setColor_Ret|].
  repeat split.
  - now rewrite setColor_heap.
  - intros u. now rewrite setColor_dims.
  - intros u x' y' Hu. rewrite setColor_cell_ne by (now left). now apply Ho.
  - rewrite setColor_cell. now rewrite Hc.
Qed.

Lemma inrect_true (x y w h : Z) : 0 <= x < w -> 0 <= y < h ->
  bool_decide (x ∈ seqZ 0 w) && bool_decide (y ∈ seqZ 0 h) = true.
Proof.
  intros Hx Hy. rewrite !bool_decide_eq_true_2; [reflexivity| |]; apply elem_of_seqZ; lia.
Qed.

Lemma inrect_false (x y w h : Z) : ~ (0 <= x < w /\ 0 <= y < h) ->
  bool_decide (x ∈ seqZ 0 w) && bool_decide (y ∈ seqZ 0 h) = false.
Proof.
  intros H. apply andb_false_iff.
  destruct (decide (0 <= x < w)) as [Hx|Hx].
  - right. apply bool_decide_eq_false_2. rewrite elem_of_seqZ. lia.
  - left. apply bool_decide_eq_false_2. rewrite elem_of_seqZ. lia.
Qed.

(** X12.  [fill(colour)] with a colour object makes every cell of the view
    within its width and height refer to that one object, so that all the
    filled pixels share it; it creates no object and changes no cell outside
    that rectangle and no cell of another view. *)
Theorem fill_cells (s : Store) (v : nat) (vw : MinimalView.t) (l : loc) :
  views s !! v = Some vw ->
  let s' := final (fill v (Some l) s) in
  fill v (Some l) s = Ret tt s'
  /\ heap s' = heap s
  /\ (forall x y, 0 <= x < MinimalView.width vw -> 0 <= y < MinimalView.height vw ->
        cell s' v x y = written (cell s v x y) (Some l))
  /\ (forall x y, ~ (0 <= x < MinimalView.width vw /\ 0 <= y < MinimalView.height vw) ->
        cell s' v x y = cell s v x y)
  /\ (forall u x y, u <> v -> cell s' u x y = cell s u x y).
Proof.
  intros Hv s'.
  assert (Hsv : is_Some (views s !! v)) by eauto.
  assert (Hdim : dims s v = Some (MinimalView.width vw, MinimalView.height vw))
    by (unfold dims; now rewrite Hv).
  assert (Hrun : forall x0 y0, exists t,
    fill v (Some l) s = Ret tt t
    /\ fillInv s v l x0 y0
         (bool_decide (x0 ∈ seqZ 0 (MinimalView.width vw))
          && bool_decide (y0 ∈ seqZ 0 (MinimalView.height vw))) t).
  { intros x0 y0. unfold fill.
    apply (loop_xy_track v (MinimalView.width vw) (MinimalView.height vw) (seqZ 0) (seqZ 0)
             (fun x y => setColor v x y (Some l)) x0 y0 (fillInv s v l x0 y0)).
    - intros b t (_ & Hd & _). now rewrite Hd.
    - apply NoDup_seqZ.
    - apply NoDup_seqZ.
    - intros x y b t _ _ Hne. now apply fillInv_other.
    - intros t _ _. now apply fillInv_hit.
    - repeat split; auto. }
  destruct (Hrun 0 0) as [t0 [E0 (Hh0 & _ & Ho0 & _)]].
  assert (Es : s' = t0) by (unfold s'; now rewrite E0). rewrite Es.
  split; [exact E0|]. split; [exact Hh0|]. split; [|split; [|exact Ho0]].
  - intros x y Hx Hy. destruct (Hrun x y) as [t [E (_ & _ & _ & Hc)]].
    rewrite inrect_true in Hc by assumption. congruence.
  - intros x y Hxy. destruct (Hrun x y) as [t [E (_ & _ & _ & Hc)]].
    rewrite inrect_false in Hc by assumption. congruence.
Qed.

(** X12 on the scene [sceneMask]. *)
Lemma fill_cells_witness :
  cell (final (fill 1 (Some 3%nat) sceneMask)) 1 0 0 = Some 3%nat
  /\ cell (final (fill 1 (Some 3%nat) sceneMask)) 1 1 1 = Some 3%nat.
Proof.
  destruct (fill_cells sceneMask 1
              (MinimalView.mk 2 2 [[8; 9]; [10; 11]]%nat None) 3%nat eq_refl)
    as (_ & _ & Hin & _).
  split; [apply (Hin 0 0)|apply (Hin 1 1)]; cbn; lia.
Defined.

(** ** copy and translate: the source cell (x0 - dx, y0 - dy) lands on the
    destination cell (x0, y0) *)

Lemma moveInv_views s src dst dx dy x0 y0 b t u :
  is_Some (views s !! u) -> moveInv s src dst dx dy x0 y0 b t -> is_Some (views t !! u).
Proof.
  intros Hu (_ & Hd & _).
  destruct (is_Some_dims _ _ Hu) as [[w h] E]. apply (dims_is_Some _ _ w h). now rewrite Hd.
Qed.

(** One iteration keeps the cells of the source: the views differ, or the
    offset is zero and the cell is written onto itself. *)
Lemma move_step s src dst dx dy x0 y0 x y b t :
  is_Some (views s !! src) -> is_Some (views s !! dst) ->
  src <> dst \/ (dx = 0 /\ dy = 0) ->
  moveInv s src dst dx dy x0 y0 b t ->
  exists t',
    (do o <- getColor src x y; setColor dst (x + dx) (y + dy) o) t = Ret tt t'
    /\ moveInv s src dst dx dy x0 y0
         (if decide ((x, y) = (x0 - dx, y0 - dy)) then true else b) t'
    /\ ((x, y) = (x0 - dx, y0 - dy) -> b = false ->
        moveInv s src dst dx dy x0 y0 true t').
Proof.
  intros Hsrc Hdst Hcase HI.
  pose proof (moveInv_views _ _ _ _ _ _ _ _ _ _ Hsrc HI) as Hsrct.
  pose proof (moveInv_views _ _ _ _ _ _ _ _ _ _ Hdst HI) as Hdstt.
  destruct HI as (Hh & Hd & Hs & Ho & Hc).
  rewrite (bind_Ret _ _ _ _ _ (getColor_cell _ _ _ _ Hsrct)).
  set (o := cell t src x y).
  set (t' := final (setColor dst (x + dx) (y + dy) o t)).
  assert (Hsrc' : forall x' y', cell t' src x' y' = cell s src x' y').
  { intros x' y'. rewrite <- Hs. unfold t'. destruct Hcase as [Hne|[-> ->]].
    - apply setColor_cell_ne. now left.
    - rewrite !Z.add_0_r. destruct (decide (src = dst)) as [<-|Hne].
      + unfold o. destruct (cell t src x y) as [l|] eqn:E; [|reflexivity].
        now apply setColor_cell_same.
      + apply setColor_cell_ne. now left. }
  assert (Hbase : heap t' = heap s /\ (forall u, dims t' u = dims s u)
                  /\ (forall u x' y', u <> dst -> cell t' u x' y' = cell s u x' y')).
  { unfold t'. repeat split.
    - now rewrite setColor_heap.
    - intros u. now rewrite setColor_dims.
    - intros u x' y' Hu. rewrite setColor_cell_ne by (now left). now apply Ho. }
  destruct Hbase as (Hh' & Hd' & Ho').
  exists t'. split; [now apply setColor_Ret|].
  assert (Hhit : (x, y) = (x0 - dx, y0 - dy) -> b = false ->
                 moveInv s src dst dx dy x0 y0 true t').
  { intros E ->. injection E as -> ->. repeat split; auto.
    unfold t'. replace (x0 - dx + dx) with x0 by lia. replace (y0 - dy + dy) with y0 by lia.
    rewrite setColor_cell. rewrite Hc. unfold o. now rewrite Hs. }
  split; [|exact Hhit].
  destruct (decide ((x, y) = (x0 - dx, y0 - dy))) as [E|Hne].
  - destruct b; [|now apply Hhit].
    injection E as -> ->. repeat split; auto.
    unfold t'. replace (x0 - dx + dx) with x0 by lia. replace (y0 - dy + dy) with y0 by lia.
    rewrite setColor_cell. unfold o. rewrite Hs.
    rewrite Hc. now destruct (cell s dst x0 y0), (cell s src (x0 - dx) (y0 - dy)).
  - repeat split; auto. unfold t'. rewrite setColor_cell_ne; [exact Hc|].
    right. intros E. apply Hne. injection E as E1 E2. f_equal; lia.
Qed.

Lemma copy_run (s : Store) (src dst : nat) (vs : MinimalView.t) :
  views s !! src = Some vs -> is_Some (views s !! dst) ->
  let s' := final (Filters.copy src dst s) in
  Filters.copy src dst s = Ret tt s'
  /\ heap s' = heap s
  /\ (forall u, dims s' u = dims s u)
  /\ (forall x y, 0 <= x < MinimalView.width vs -> 0 <= y < MinimalView.height vs ->
        cell s' dst x y = written (cell s dst x y) (cell s src x y))
  /\ (forall x y, ~ (0 <= x < MinimalView.width vs /\ 0 <= y < MinimalView.height vs) ->
        cell s' dst x y = cell s dst x y)
  /\ (forall u x y, u <> dst -> cell s' u x y = cell s u x y).
Proof.
  intros Hv Hdst s'.
  assert (Hsrc : is_Some (views s !! src)) by eauto.
  assert (Hdim : dims s src = Some (MinimalView.width vs, MinimalView.height vs))
    by (unfold dims; now rewrite Hv).
  assert (Hrun : forall x0 y0, exists t,
    Filters.copy src dst s = Ret tt t
    /\ moveInv s src dst 0 0 x0 y0
         (bool_decide (x0 ∈ seqZ 0 (MinimalView.width vs))
          && bool_decide (y0 ∈ seqZ 0 (MinimalView.height vs))) t).
  { intros x0 y0. unfold Filters.copy.
    apply (loop_xy_track src (MinimalView.width vs) (MinimalView.height vs) (seqZ 0) (seqZ 0)
             (fun x y => do o <- getColor src x y; setColor dst x y o)
             x0 y0 (moveInv s src dst 0 0 x0 y0)).
    - intros b t (_ & Hd & _). now rewrite Hd.
    - apply NoDup_seqZ.
    - apply NoDup_seqZ.
    - intros x y b t _ _ Hne HI.
      destruct (move_step s src dst 0 0 x0 y0 x y b t Hsrc Hdst (or_intror (conj eq_refl eq_refl)) HI)
        as [t' [E [HI' _]]].
      rewrite !Z.add_0_r in E. exists t'. split; [exact E|].
      rewrite !Z.sub_0_r in HI'. destruct (decide ((x, y) = (x0, y0))); [contradiction|exact HI'].
    - intros t _ _ HI.
      destruct (move_step s src dst 0 0 x0 y0 x0 y0 false t Hsrc Hdst
                  (or_intror (conj eq_refl eq_refl)) HI) as [t' [E [_ HI']]].
      rewrite !Z.add_0_r in E. exists t'. split; [exact E|].
      apply HI'; [now rewrite !Z.sub_0_r|reflexivity].
    - repeat split; auto. }
  destruct (Hrun 0 0) as [t0 [E0 (Hh0 & Hd0 & _ & Ho0 & _)]].
  assert (Es : s' = t0) by (unfold s'; now rewrite E0). rewrite Es.
  split; [exact E0|]. split; [exact Hh0|]. split; [exact Hd0|]. split; [|split; [|exact Ho0]].
  - intros x y Hx Hy. destruct (Hrun x y) as [t [E (_ & _ & _ & _ & Hc)]].
    rewrite inrect_true in Hc by assumption. rewrite !Z.sub_0_r in Hc. congruence.
  - intros x y Hxy. destruct (Hrun x y) as [t [E (_ & _ & _ & _ & Hc)]].
    rewrite inrect_false in Hc by assumption. congruence.
Qed.

(** X13.  [copy] returns and makes every destination cell within the width
    and height of the source refer to the colour object of the source cell at
    the same coordinate, where both cells exist: the two views then share the
    object.  No colour object is created, and the other cells of the
    destination and the cells of every other view are unchanged. *)
Theorem copy_cells (s : Store) (src dst : nat) (vs : MinimalView.t) :
  views s !! src = Some vs -> is_Some (views s !! dst) ->
  let s' := final (Filters.copy src dst s) in
  Filters.copy src dst s = Ret tt s'
  /\ heap s' = heap s
  /\ (forall x y, 0 <= x < MinimalView.width vs -> 0 <= y < MinimalView.height vs ->
        cell s' dst x y = written (cell s dst x y) (cell s src x y))
  /\ (forall x y, ~ (0 <= x < MinimalView.width vs /\ 0 <= y < MinimalView.height vs) ->
        cell s' dst x y = cell s dst x y)
  /\ (forall u x y, u <> dst -> cell s' u x y = cell s u x y)
  /\ (forall x y, 0 <= x < MinimalView.width vs -> 0 <= y < MinimalView.height vs ->
        is_Some (cell s src x y) -> is_Some (cell s dst x y) ->
        cell s' dst x y = cell s src x y /\ pixel s' dst x y = pixel s src x y).
Proof.
  intros Hv Hdst s'.
  destruct (copy_run s src dst vs Hv Hdst) as (E & Hh & _ & Hin & Hout & Ho).
  fold s' in E, Hh, Hin, Hout, Ho.
  repeat (split; [assumption|]).
  intros x y Hx Hy [l Hl] [l0 Hl0].
  assert (Hc : cell s' dst x y = cell s src x y) by (now rewrite Hin, Hl, Hl0).
  split; [exact Hc|]. now rewrite !pixel_cell, Hc, Hh.
Qed.

(** X13 on the scene [sceneMask]. *)
Lemma copy_cells_witness :
  cell (final (Filters.copy 0 1 sceneMask)) 1 1 0 = cell sceneMask 0 1 0
  /\ heap (final (Filters.copy 0 1 sceneMask)) = heap sceneMask.
Proof.
  destruct (copy_cells sceneMask 0 1
              (MinimalView.mk 2 2 [[4; 5]; [6; 7]]%nat None) eq_refl)
    as (_ & Hh & _ & _ & _ & Hsame).
  - vm_compute; eauto.
  - split; [apply (Hsame 1 0); try (cbn; lia); vm_compute; eauto|exact Hh].
Defined.

Lemma setBackgroundColor_run (s : Store) (v : nat) (c : option loc) :
  is_Some (views s !! v) ->
  exists t, setBackgroundColor v c s = Ret tt t
    /\ heap t = heap s /\ (forall u, dims t u = dims s u)
    /\ (forall u x y, cell t u x y = cell s u x y)
    /\ (MinimalView.backgroundColor <$> views t !! v) = Some c.
Proof.
  intros [vw Hv]. unfold setBackgroundColor.
  rewrite (bind_Ret _ _ _ _ _ (view_eq _ _ _ Hv)). unfold setView.
  eexists. split; [reflexivity|]. cbn [heap views].
  assert (Hlt : (v < length (views s))%nat) by (eapply lookup_lt_Some; eauto).
  repeat split.
  - intros u. unfold dims. cbn [views]. destruct (decide (u = v)) as [->|Hne].
    + rewrite list_lookup_insert_eq by assumption. now rewrite Hv.
    + now rewrite list_lookup_insert_ne by auto.
  - intros u x y. unfold cell. cbn [views]. destruct (decide (u = v)) as [->|Hne].
    + rewrite list_lookup_insert_eq by assumption. now rewrite Hv.
    + now rewrite list_lookup_insert_ne by auto.
  - now rewrite list_lookup_insert_eq by assumption.
Qed.

(** X14.  [translate] from a source to a different destination returns and
    makes the destination cell [(x, y)] refer to the colour object of the
    source cell [(x - dx, y - dy)] whenever that is a coordinate of the
    source.  Every other destination cell keeps what it held: the fill colour
    is not painted.  The only object created is the default white fill colour,
    when no fill colour is passed. *)
Theorem translate_cells (s : Store) (src dst : nat) (vs : MinimalView.t)
    (dx dy : Z) (inFillColor : option loc) :
  views s !! src = Some vs -> is_Some (views s !! dst) -> src <> dst ->
  let s' := final (Filters.translate src dst dx dy inFillColor s) in
  Filters.translate src dst dx dy inFillColor s = Ret tt s'
  /\ heap s' = match inFillColor with
               | Some _ => heap s
               | None => heap s ++ [Color.mk (ofZ 255) (ofZ 255) (ofZ 255) (ofZ 1) false false]
               end
  /\ (forall x y,
        0 <= x - dx < MinimalView.width vs -> 0 <= y - dy < MinimalView.height vs ->
        cell s' dst x y = written (cell s dst x y) (cell s src (x - dx) (y - dy)))
  /\ (forall x y,
        ~ (0 <= x - dx < MinimalView.width vs /\ 0 <= y - dy < MinimalView.height vs) ->
        cell s' dst x y = cell s dst x y)
  /\ (forall u x y, u <> dst -> cell s' u x y = cell s u x y).
Proof.
  intros Hv Hdst Hne s'.
  set (white := Color.mk (ofZ 255) (ofZ 255) (ofZ 255) (ofZ 1) false false).
  set (s0 := match inFillColor with
             | Some _ => s
             | None => mkStore (heap s ++ [white]) (views s)
             end).
  set (lf := match inFillColor with Some l => l | None => length (heap s) end).
  assert (Halloc : (match inFillColor with
                    | Some l => ret l
                    | None => alloc white
                    end) s = Ret lf s0) by (unfold s0, lf; now destruct inFillColor).
  assert (Hviews0 : views s0 = views s) by (unfold s0; now destruct inFillColor).
  assert (Hheap0 : heap s0 = match inFillColor with
                             | Some _ => heap s | None => heap s ++ [white] end)
    by (unfold s0; now destruct inFillColor).
  assert (Hdst0 : is_Some (views s0 !! dst)) by (now rewrite Hviews0).
  destruct (setBackgroundColor_run s0 dst (Some lf) Hdst0) as [s1 (Ebg & Hh1 & Hd1 & Hc1 & _)].
  assert (Hcell1 : forall u x y, cell s1 u x y = cell s u x y).
  { intros u x y. rewrite Hc1. unfold cell. now rewrite Hviews0. }
  assert (Hdims1 : forall u, dims s1 u = dims s u).
  { intros u. rewrite Hd1. unfold dims. now rewrite Hviews0. }
  assert (Hsrc1 : is_Some (views s1 !! src)).
  { apply (dims_is_Some _ _ (MinimalView.width vs) (MinimalView.height vs)).
    rewrite Hdims1. unfold dims. now rewrite Hv. }
  assert (Hdst1 : is_Some (views s1 !! dst)).
  { destruct (is_Some_dims _ _ Hdst) as [[w h] E]. apply (dims_is_Some _ _ w h).
    now rewrite Hdims1. }
  assert (Hfill : fill dst None s1 = Ret tt s1).
  { destruct Hdst1 as [vd E]. now apply (fill_undefined _ _ vd). }
  assert (Hrun : forall x0 y0, exists t,
    Filters.translate src dst dx dy inFillColor s = Ret tt t
    /\ moveInv s1 src dst dx dy x0 y0
         (bool_decide (x0 - dx ∈ seqZ 0 (MinimalView.width vs))
          && bool_decide (y0 - dy ∈ seqZ 0 (MinimalView.height vs))) t).
  { intros x0 y0. unfold Filters.translate.
    rewrite (bind_Ret _ _ _ _ _ Halloc).
    rewrite (bind_Ret _ _ _ _ _ Ebg).
    rewrite (bind_Ret _ _ _ _ _ Hfill).
    apply (loop_yx_track src (MinimalView.width vs) (MinimalView.height vs) (seqZ 0) (seqZ 0)
             (fun x y => do o <- getColor src x y; setColor dst (x + dx) (y + dy) o)
             (x0 - dx) (y0 - dy) (moveInv s1 src dst dx dy x0 y0)).
    - intros b t (_ & Hd & _). rewrite Hd, Hdims1. unfold dims. now rewrite Hv.
    - apply NoDup_seqZ.
    - apply NoDup_seqZ.
    - intros x y b t _ _ Hxy HI.
      destruct (move_step s1 src dst dx dy x0 y0 x y b t Hsrc1 Hdst1 (or_introl Hne) HI)
        as [t' [E [HI' _]]].
      exists t'. split; [exact E|].
      destruct (decide ((x, y) = (x0 - dx, y0 - dy))); [contradiction|exact HI'].
    - intros t _ _ HI.
      destruct (move_step s1 src dst dx dy x0 y0 (x0 - dx) (y0 - dy) false t Hsrc1 Hdst1
                  (or_introl Hne) HI) as [t' [E [_ HI']]].
      exists t'. split; [exact E|]. now apply HI'.
    - repeat split; auto. }
  destruct (Hrun 0 0) as [t0 [E0 (Hh0 & _ & _ & Ho0 & _)]].
  assert (Es : s' = t0) by (unfold s'; now rewrite E0). rewrite Es.
  split; [exact E0|]. split; [now rewrite Hh0, Hh1|]. split; [|split].
  - intros x y Hx Hy. destruct (Hrun x y) as [t [E (_ & _ & _ & _ & Hc)]].
    rewrite inrect_true in Hc by assumption. rewrite !Hcell1 in Hc. congruence.
  - intros x y Hxy. destruct (Hrun x y) as [t [E (_ & _ & _ & _ & Hc)]].
    rewrite inrect_false in Hc by assumption. rewrite !Hcell1 in Hc. congruence.
  - intros u x y Hu. rewrite Ho0 by assumption. apply Hcell1.
Qed.

(** X14 on the scene [sceneTranslate]. *)
Lemma translate_cells_witness :
  let s' := final (Filters.translate 0 1 1 0 (Some 6%nat) sceneTranslate) in
  cell s' 1 1 0 = cell sceneTranslate 0 0 0
  /\ cell s' 1 0 0 = cell sceneTranslate 1 0 0.
Proof.
  destruct (translate_cells sceneTranslate 0 1
              (MinimalView.mk 1 1 [[1]]%nat None) 1 0 (Some 6%nat) eq_refl)
    as (_ & _ & Hin & Hout & _).
  - vm_compute; eauto.
  - discriminate.
  - split; [apply (Hin 1 0); cbn; lia|apply (Hout 0 0); cbn; lia].
Defined.

(** ** sumHistogram: running totals *)

Lemma get_table (f : Z -> Z) (k : Z) : 0 <= k < 256 -> arr_get (table f) (ofZ k) = ofZ (f k).
Proof.
  intros Hk. unfold arr_get. rewrite toZ_ofZ. destruct (Z.ltb_spec k 0); [lia|].
  rewrite table_lookup by lia. cbn [default from_option id]. now rewrite Z2Nat.id by lia.
Qed.

Lemma set_table (f : Z -> Z) (k v : Z) : 0 <= k < 256 ->
  arr_set (table f) (ofZ k) (ofZ v) = table (fun j => if j =? k then v else f j).
Proof.
  intros Hk. unfold arr_set. rewrite toZ_ofZ. destruct (Z.ltb_spec k 0); [lia|].
  rewrite table_length. destruct (Nat.ltb_spec (Z.to_nat k) 256); [|lia].
  apply list_eq. intros i.
  destruct (decide (i < 256)%nat) as [Hi|Hi].
  - rewrite (table_lookup _ i Hi).
    destruct (decide (i = Z.to_nat k)) as [->|Hne].
    + rewrite list_lookup_insert_eq by (rewrite table_length; lia).
      rewrite Z2Nat.id by lia. now rewrite Z.eqb_refl.
    + rewrite list_lookup_insert_ne by auto. rewrite table_lookup by auto.
      destruct (Z.eqb_spec (Z.of_nat i) k); [lia|reflexivity].
  - rewrite !lookup_ge_None_2; auto.
    + rewrite table_length; lia.
    + rewrite length_insert, table_length; lia.
Qed.

Lemma sumStep_table (fr fg fb fa : Z -> Z) (n : nat) : (n < 256)%nat ->
  let part (f : Z -> Z) (m : nat) := table (fun k => if k <? Z.of_nat m then running f k else 0) in
  Filters.sumStep (HistogramResult.mk (table fr) (table fg) (table fb) (table fa))
    (ofZ (upto fr n), ofZ (upto fg n), ofZ (upto fb n), ofZ (upto fa n),
     HistogramResult.mk (part fr n) (part fg n) (part fb n) (part fa n)) n
  = (ofZ (upto fr (S n)), ofZ (upto fg (S n)), ofZ (upto fb (S n)), ofZ (upto fa (S n)),
     HistogramResult.mk (part fr (S n)) (part fg (S n)) (part fb (S n)) (part fa (S n))).
Proof.
  intros Hn part. unfold Filters.sumStep.
  cbn [HistogramResult.red HistogramResult.green HistogramResult.blue HistogramResult.alpha].
  rewrite !get_table, !nadd_ofZ by lia. cbn [upto].
  assert (E : forall f, arr_set (part f n) (ofZ (Z.of_nat n)) (ofZ (upto f n + f (Z.of_nat n)))
                        = part f (S n)).
  { intros f. unfold part. rewrite set_table by lia. apply table_ext. intros k Hk.
    destruct (Z.eqb_spec k (Z.of_nat n)) as [->|Hne].
    - destruct (Z.ltb_spec (Z.of_nat n) (Z.of_nat (S n))); [|lia].
      unfold running. replace (Z.to_nat (Z.of_nat n + 1)) with (S n) by lia. reflexivity.
    - destruct (Z.ltb_spec k (Z.of_nat n)), (Z.ltb_spec k (Z.of_nat (S n))); auto; lia. }
  now rewrite !E.
Qed.

Lemma sumHistogram_tables (fr fg fb fa : Z -> Z) :
  Filters.sumHistogram (HistogramResult.mk (table fr) (table fg) (table fb) (table fa))
  = HistogramResult.mk (table (running fr)) (table (running fg))
                       (table (running fb)) (table (running fa)).
Proof.
  unfold Filters.sumHistogram. cbn [HistogramResult.red]. rewrite table_length.
  set (h := HistogramResult.mk (table fr) (table fg) (table fb) (table fa)).
  set (part := fun (f : Z -> Z) (m : nat) =>
                 table (fun k => if k <? Z.of_nat m then running f k else 0)).
  assert (G : forall n, (n <= 256)%nat ->
    fold_left (Filters.sumStep h) (seq 0 n)
      (ofZ 0, ofZ 0, ofZ 0, ofZ 0, HistogramResult.new)
    = (ofZ (upto fr n), ofZ (upto fg n), ofZ (upto fb n), ofZ (upto fa n),
       HistogramResult.mk (part fr n) (part fg n) (part fb n) (part fa n))).
  { induction n as [|n IH]; intros Hn.
    - cbn [seq fold_left upto]. unfold HistogramResult.new. rewrite zeros_table.
      do 2 f_equal; apply table_ext; intros k Hk; destruct (Z.ltb_spec k (Z.of_nat 0)); auto; lia.
    - rewrite seq_S, fold_left_app, IH by lia. cbn [fold_left Nat.add].
      apply sumStep_table. lia. }
  rewrite G by lia. cbn [snd].
  f_equal; apply table_ext; intros k Hk; destruct (Z.ltb_spec k (Z.of_nat 256)); auto; lia.
Qed.



(** ** histogram: totals *)

Lemma count_ext (p q : Color.t -> bool) (cs : list Color.t) :
  (forall c, c ∈ cs -> p c = q c) -> count p cs = count q cs.
Proof.
  induction cs as [|c cs IH]; intros H; cbn [count]; [reflexivity|].
  rewrite (H c) by left. rewrite IH; [reflexivity|].
  intros c' Hc'. apply H. now right.
Qed.

Lemma count_or (p q : Color.t -> bool) (cs : list Color.t) :
  (forall c, c ∈ cs -> p c && q c = false) ->
  count p cs + count q cs = count (fun c => p c || q c) cs.
Proof.
  induction cs as [|c cs IH]; intros H; cbn [count]; [reflexivity|].
  rewrite <- IH by (intros c' Hc'; apply H; now right).
  specialize (H c (list_elem_of_here _ _)).
  destruct (p c), (q c); cbn in *; try discriminate; lia.
Qed.

Lemma count_all (p : Color.t -> bool) (cs : list Color.t) :
  (forall c, c ∈ cs -> p c = true) -> count p cs = Z.of_nat (length cs).
Proof.
  induction cs as [|c cs IH]; intros H; cbn [count length]; [reflexivity|].
  rewrite (H c) by left. rewrite IH by (intros c' Hc'; apply H; now right). lia.
Qed.

Lemma below_succ (n : nat) (x : num) :
  below (Z.of_nat (S n)) x = below (Z.of_nat n) x || num_eqb x (ofZ (Z.of_nat n)).
Proof.
  unfold below. destruct x as [q|]; [|reflexivity].
  destruct (toZ (Fin q)) as [z|] eqn:E.
  - assert (Eq : Fin q = ofZ z).
    { unfold toZ in E.
      destruct (Qeq_bool (this q) (inject_Z (Qc_floor q))) eqn:E1; [|discriminate].
      injection E as <-. unfold ofZ, ofQ. f_equal. apply Qc_is_canon.
      apply Qeq_bool_iff in E1. rewrite E1. rewrite this_ofZ. reflexivity. }
    rewrite Eq, num_eqb_ofZ.
    destruct (Z.leb_spec 0 z), (Z.ltb_spec z (Z.of_nat (S n))), (Z.ltb_spec z (Z.of_nat n)),
      (Z.eqb_spec z (Z.of_nat n)); cbn; auto; lia.
  - symmetry. cbn [orb].
    destruct (num_eqb (Fin q) (ofZ (Z.of_nat n))) eqn:E1; [|reflexivity].
    apply num_eqb_eq in E1. rewrite E1, toZ_ofZ in E. discriminate.
Qed.

Lemma upto_count (f : Color.t -> num) (cs : list Color.t) (n : nat) :
  upto (fun k => count (fun c => num_eqb (f c) (ofZ k)) cs) n
  = count (fun c => below (Z.of_nat n) (f c)) cs.
Proof.
  induction n as [|n IH]; cbn [upto].
  - symmetry. rewrite (count_ext _ (fun _ => false)).
    + induction cs as [|c cs IHc]; cbn [count]; [reflexivity|]. now rewrite IHc.
    + intros c _. unfold below. destruct (toZ (f c)) as [z|]; [|reflexivity].
      destruct (Z.leb_spec 0 z), (Z.ltb_spec z (Z.of_nat 0)); cbn; auto; lia.
  - rewrite IH, count_or.
    + apply count_ext. intros c _. now rewrite below_succ.
    + intros c _. destruct (num_eqb (f c) (ofZ (Z.of_nat n))) eqn:E; [|apply andb_false_r].
      apply num_eqb_eq in E. rewrite E. unfold below. rewrite toZ_ofZ.
      destruct (Z.leb_spec 0 (Z.of_nat n)), (Z.ltb_spec (Z.of_nat n) (Z.of_nat n)); cbn; auto; lia.
Qed.

Lemma running_count (f : Color.t -> num) (cs : list Color.t) (k : Z) : 0 <= k ->
  running (fun j => count (fun c => num_eqb (f c) (ofZ j)) cs) k
  = count (fun c => below (k + 1) (f c)) cs.
Proof.
  intros Hk. unfold running. rewrite upto_count. now rewrite Z2Nat.id by lia.
Qed.

Lemma below_channel (n : Z) (x : num) : channel255 x -> 256 <= n -> below n x = true.
Proof.
  intros [k [Hk ->]] Hn. unfold below. rewrite toZ_ofZ.
  destruct (Z.leb_spec 0 k), (Z.ltb_spec k n); auto; lia.
Qed.

(** what [histogram] returns on valid pixels *)
Lemma histogram_tables (s : Store) (v : nat) (w : MinimalView.t) :
  views s !! v = Some w ->
  (forall x y l,
     0 <= x < MinimalView.width w -> 0 <= y < MinimalView.height w ->
     rows_get (MinimalView.colors w) x y = Some l ->
     exists c, heap s !! l = Some c /\ validPixel c) ->
  Filters.histogram v s
  = Ret (HistogramResult.mk
           (table (fun k => count (fun c => num_eqb (Color.r c) (ofZ k)) (scan s v)))
           (table (fun k => count (fun c => num_eqb (Color.g c) (ofZ k)) (scan s v)))
           (table (fun k => count (fun c => num_eqb (Color.b c) (ofZ k)) (scan s v)))
           (table (fun k => count (fun c => num_eqb (alphaBucket c) (ofZ k)) (scan s v)))) s.
Proof.
  intros Hv Hvalid. rewrite (histogram_scan s v w Hv Hvalid). f_equal.
  unfold HistogramResult.new. rewrite zeros_table.
  rewrite (fold_histogramPixel _ (scan_valid s v w Hv Hvalid)).
  f_equal; apply table_ext; intros; lia.
Qed.

(** X16.  For a view whose pixels have integer red, green and blue from 0 to
    255 and alpha in [0, 1], [histogram] returns, and the last bucket (255) of
    each of the four channels of its [sumHistogram] is the number of pixels of
    the view. *)
Theorem sumHistogram_histogram_total (s : Store) (v : nat) (w : MinimalView.t) :
  views s !! v = Some w ->
  (forall x y l,
     0 <= x < MinimalView.width w -> 0 <= y < MinimalView.height w ->
     rows_get (MinimalView.colors w) x y = Some l ->
     exists c, heap s !! l = Some c /\ validPixel c) ->
  exists h : HistogramResult.t,
    Filters.histogram v s = Ret h s
    /\ let total := ofZ (Z.of_nat (length (scan s v))) in
       let sums := Filters.sumHistogram h in
       arr_get (HistogramResult.red sums) (ofZ 255) = total
       /\ arr_get (HistogramResult.green sums) (ofZ 255) = total
       /\ arr_get (HistogramResult.blue sums) (ofZ 255) = total
       /\ arr_get (HistogramResult.alpha sums) (ofZ 255) = total.
Proof.
  intros Hv Hvalid. eexists. split; [now apply (histogram_tables s v w)|].
  cbv zeta. rewrite sumHistogram_tables.
  cbn [HistogramResult.red HistogramResult.green HistogramResult.blue HistogramResult.alpha].
  rewrite !get_table by lia. rewrite !running_count by lia.
  pose proof (scan_valid s v w Hv Hvalid) as Hall. rewrite Forall_forall in Hall.
  repeat split; f_equal; apply count_all; intros c Hc;
    destruct (Hall c (proj1 (list_elem_of_In _ _) Hc)) as (Hr & Hg & Hb & Ha);
    try (apply below_channel; [assumption|lia]).
  destruct (alphaBucket_range c Ha) as [k [Hk ->]].
  apply below_channel; [|lia]. now exists k.
Qed.

Lemma scenePoint_valid (x y : Z) (l : loc) :
  0 <= x < 1 -> 0 <= y < 1 -> rows_get [[1%nat]] x y = Some l ->
  exists c, heap scenePoint !! l = Some c /\ validPixel c.
Proof.
  intros Hx Hy. assert (x = 0) by lia. assert (y = 0) by lia. subst x y.
  intros Hl. injection Hl as <-.
  exists (rgba 10 20 30 1). split; [reflexivity|].
  repeat split; try (eexists; split; [|reflexivity]; lia).
  exists (Q2Qc 1). repeat split; discriminate.
Qed.

(** X16 on the scene [scenePoint]. *)
Lemma sumHistogram_histogram_total_witness :
  exists h : HistogramResult.t,
    Filters.histogram 0 scenePoint = Ret h scenePoint
    /\ arr_get (HistogramResult.red (Filters.sumHistogram h)) (ofZ 255) = ofZ 1.
Proof.
  destruct (sumHistogram_histogram_total scenePoint 0 (MinimalView.mk 1 1 [[1%nat]] None) eq_refl)
    as [h [Hh [Hr _]]].
  - intros x y l. apply scenePoint_valid.
  - exists h. split; [exact Hh|exact Hr].
Defined.

(** ** Filters that store a new colour per pixel *)

Lemma reach_refl (s : Store) (dst : nat) : sound s -> reach s dst s.
Proof. intros H. repeat split; auto. apply heap_ext_refl. Qed.

Lemma reach_views s dst t u : is_Some (views s !! u) -> reach s dst t -> is_Some (views t !! u).
Proof.
  intros Hu (_ & _ & Hd & _).
  destruct (is_Some_dims _ _ Hu) as [[w h] E]. apply (dims_is_Some _ _ w h). now rewrite Hd.
Qed.

Lemma sound_setColor (t : Store) (v : nat) (x y : Z) (l : loc) :
  sound t -> is_Some (heap t !! l) -> sound (final (setColor v x y (Some l) t)).
Proof.
  intros Hs Hl u x' y' l' Hc. rewrite setColor_heap.
  destruct (decide ((u, x', y') = (v, x, y))) as [E|Hne].
  - injection E as -> -> ->. rewrite setColor_cell in Hc.
    destruct (cell t v x y) as [l0|] eqn:E0; cbn [written] in Hc; [|discriminate].
    now injection Hc as <-.
  - rewrite setColor_cell_ne in Hc; [now apply (Hs u x' y')|].
    destruct (decide (u = v)) as [->|]; [right|now left]. congruence.
Qed.

Lemma sound_alloc (t : Store) (c : Color.t) :
  sound t -> sound (mkStore (heap t ++ [c]) (views t)).
Proof.
  intros Hs u x y l Hc. cbn [heap].
  destruct (Hs u x y l Hc) as [c' Hc']. exists c'. now apply lookup_app_l_Some.
Qed.

Lemma heap_ext_trans (s t u : Store) : heap_ext s t -> heap_ext t u -> heap_ext s u.
Proof. intros H1 H2 l c Hl. auto. Qed.

Lemma heap_ext_alloc (t : Store) (c : Color.t) :
  heap_ext t (mkStore (heap t ++ [c]) (views t)).
Proof. intros l c' Hl. cbn [heap]. now apply lookup_app_l_Some. Qed.

Lemma heap_ext_length (s t : Store) : heap_ext s t -> (length (heap s) <= length (heap t))%nat.
Proof.
  intros H. destruct (decide (length (heap s) <= length (heap t))%nat) as [|Hgt]; [assumption|].
  destruct (lookup_lt_is_Some_2 (heap s) (length (heap t))) as [c Hc]; [lia|].
  apply H in Hc. apply lookup_lt_Some in Hc. lia.
Qed.

Lemma freshPixel_pixel (s t : Store) (v : nat) (x y : Z) (c : Color.t) :
  freshPixel s t v x y c -> pixel t v x y = Some c.
Proof. intros [l (Hl & _ & Hc)]. now rewrite pixel_cell, Hl. Qed.

(** the store after [stepOf] *)
Lemma stepOf_run (s : Store) (dst : nat) (x y : Z) (t : Store) (r : Res unit) :
  is_Some (views s !! dst) -> reach s dst t -> stepOf dst x y t r ->
  exists t', r = Ret tt t' /\ reach s dst t' /\ heap_ext t t'
    /\ forall x' y', (x', y') <> (x, y) -> cell t' dst x' y' = cell t dst x' y'.
Proof.
  intros Hdst HR Hstep.
  pose proof (reach_views _ _ _ _ Hdst HR) as Hdt.
  destruct HR as (Hh & Hs & Hd & Ho).
  destruct Hstep as [-> | [[c ->] | [l [Hl ->]]]].
  - exists t. repeat split; auto. apply heap_ext_refl.
  - unfold bind at 1, alloc at 1.
    set (t1 := mkStore (heap t ++ [c]) (views t)).
    set (n := length (heap t)).
    assert (Hext : heap_ext t (final (setColor dst x y (Some n) t1))).
    { intros l' c' Hl'. rewrite setColor_heap. now apply lookup_app_l_Some. }
    exists (final (setColor dst x y (Some n) t1)).
    split; [now apply setColor_Ret|].
    split; [|split; [exact Hext|]];
      [|intros x' y' Hne; rewrite setColor_cell_ne by (right; congruence); reflexivity].
    repeat split.
    + eapply heap_ext_trans; eauto.
    + apply sound_setColor; [now apply sound_alloc|].
      cbn [t1 heap]. exists c. unfold n. rewrite lookup_app_r by lia. now rewrite Nat.sub_diag.
    + intros u. rewrite setColor_dims. apply Hd.
    + intros u x' y' Hu. rewrite setColor_cell_ne by (now left). now apply Ho.
  - assert (Hext : heap_ext t (final (setColor dst x y (Some l) t))).
    { intros l' c' Hl'. now rewrite setColor_heap. }
    exists (final (setColor dst x y (Some l) t)).
    split; [now apply setColor_Ret|].
    split; [|split; [exact Hext|]];
      [|intros x' y' Hne; rewrite setColor_cell_ne by (right; congruence); reflexivity].
    repeat split.
    + eapply heap_ext_trans; eauto.
    + now apply sound_setColor.
    + intros u. rewrite setColor_dims. apply Hd.
    + intros u x' y' Hu. rewrite setColor_cell_ne by (now left). now apply Ho.
Qed.

Lemma pixel_ext (s t : Store) (v : nat) (x y : Z) (c : Color.t) :
  heap_ext s t -> cell t v x y = cell s v x y -> pixel s v x y = Some c -> pixel t v x y = Some c.
Proof.
  intros Hh Hc. rewrite !pixel_cell, Hc. destruct (cell s v x y); [apply Hh|discriminate].
Qed.

Lemma pix_other (s : Store) (dst : nat) (x0 y0 x y : Z) (act : option Color.t) (b : bool)
    (t : Store) (r : Res unit) :
  is_Some (views s !! dst) -> (x, y) <> (x0, y0) ->
  pixInv s dst x0 y0 act b t -> stepOf dst x y t r ->
  exists t', r = Ret tt t' /\ pixInv s dst x0 y0 act b t'.
Proof.
  intros Hdst Hne [HR Hc] Hstep.
  destruct (stepOf_run s dst x y t r Hdst HR Hstep) as [t' (E & HR' & Hext & Hkeep)].
  exists t'. split; [exact E|]. split; [exact HR'|].
  assert (Hcell : cell t' dst x0 y0 = cell t dst x0 y0) by (apply Hkeep; congruence).
  destruct b; [|congruence]. destruct act as [c|]; [|congruence].
  intros Hsome. destruct (Hc Hsome) as [l (Hl & Hnew & Hcol)].
  exists l. split; [congruence|]. split; [exact Hnew|]. now apply Hext.
Qed.

Lemma pix_hit (s : Store) (dst : nat) (x0 y0 : Z) (act : option Color.t)
    (t : Store) (r : Res unit) :
  is_Some (views s !! dst) ->
  pixInv s dst x0 y0 act false t ->
  r = match act with
      | None => Ret tt t
      | Some c => (do n <- alloc c; setColor dst x0 y0 (Some n)) t
      end ->
  exists t', r = Ret tt t' /\ pixInv s dst x0 y0 act true t'.
Proof.
  intros Hdst [HR Hc] Hr.
  assert (Hstep : stepOf dst x0 y0 t r).
  { rewrite Hr. destruct act as [c|]; [right; left; eauto|now left]. }
  destruct (stepOf_run s dst x0 y0 t r Hdst HR Hstep) as [t' (E & HR' & _ & _)].
  exists t'. split; [exact E|]. split; [exact HR'|].
  destruct act as [c|].
  - intros [l0 Hl0]. rewrite Hr in E.
    assert (Ht' : t' = final (setColor dst x0 y0 (Some (length (heap t)))
                                (mkStore (heap t ++ [c]) (views t))))
      by (symmetry; exact (f_equal final E)).
    exists (length (heap t)). rewrite Ht', setColor_cell, setColor_heap.
    change (cell (mkStore (heap t ++ [c]) (views t)) dst x0 y0) with (cell t dst x0 y0).
    rewrite Hc, Hl0. cbn [written heap]. split; [reflexivity|]. split.
    + apply lookup_ge_None. apply heap_ext_length. apply HR.
    + rewrite lookup_app_r by lia. now rewrite Nat.sub_diag.
  - rewrite Hr in E. injection E as <-. exact Hc.
Qed.

Lemma pixInv_dims s dst x0 y0 act b t (src : nat) (w h : Z) :
  dims s src = Some (w, h) -> pixInv s dst x0 y0 act b t -> dims t src = Some (w, h).
Proof. intros Hd ((_ & _ & Hd' & _) & _). now rewrite Hd'. Qed.

Lemma pixInv_init s dst x0 y0 act : sound s -> pixInv s dst x0 y0 act false s.
Proof. intros Hs. split; [now apply reach_refl|reflexivity]. Qed.

(** the source cell at the time of its iteration *)
Lemma pixInv_source s src dst x0 y0 act t :
  pixInv s dst x0 y0 act false t -> cell t src x0 y0 = cell s src x0 y0.
Proof.
  intros [(_ & _ & _ & Ho) Hc]. destruct (decide (src = dst)) as [->|Hne]; [exact Hc|now apply Ho].
Qed.

Section PixelFilter.

Variables (s : Store) (src dst : nat) (vs : MinimalView.t).
Variables (body : Z -> Z -> M unit) (act : Z -> Z -> option Color.t).
Hypothesis Hv : views s !! src = Some vs.
Hypothesis Hdst : is_Some (views s !! dst).
Hypothesis Hsound : sound s.
Hypothesis Hany : forall x y t, reach s dst t -> stepOf dst x y t (body x y t).
Hypothesis Hhit : forall x y t,
  0 <= x < MinimalView.width vs -> 0 <= y < MinimalView.height vs ->
  reach s dst t -> cell t dst x y = cell s dst x y -> cell t src x y = cell s src x y ->
  body x y t = match act x y with
               | None => Ret tt t
               | Some c => (do n <- alloc c; setColor dst x y (Some n)) t
               end.

Lemma pixel_filter_xy :
  exists s',
    (do w' <- getWidth src;
     forEach (seqZ 0 w') (fun x => do h' <- getHeight src; forEach (seqZ 0 h') (body x))) s
    = Ret tt s'
    /\ reach s dst s'
    /\ (forall x y, 0 <= x < MinimalView.width vs -> 0 <= y < MinimalView.height vs ->
          match act x y with
          | None => cell s' dst x y = cell s dst x y
          | Some c => is_Some (cell s dst x y) -> freshPixel s s' dst x y c
          end)
    /\ (forall x y, ~ (0 <= x < MinimalView.width vs /\ 0 <= y < MinimalView.height vs) ->
          cell s' dst x y = cell s dst x y).
Proof.
  set (w := MinimalView.width vs). set (h := MinimalView.height vs).
  assert (Hdim : dims s src = Some (w, h)) by (unfold dims; now rewrite Hv).
  assert (Hrun : forall x0 y0, exists t,
    (do w' <- getWidth src;
     forEach (seqZ 0 w') (fun x => do h' <- getHeight src; forEach (seqZ 0 h') (body x))) s
    = Ret tt t
    /\ pixInv s dst x0 y0 (act x0 y0)
         (bool_decide (x0 ∈ seqZ 0 w) && bool_decide (y0 ∈ seqZ 0 h)) t).
  { intros x0 y0.
    apply (loop_xy_track src w h (seqZ 0) (seqZ 0) body x0 y0 (pixInv s dst x0 y0 (act x0 y0))).
    - intros b t. now apply pixInv_dims.
    - apply NoDup_seqZ.
    - apply NoDup_seqZ.
    - intros x y b t _ _ Hne HI. apply (pix_other s dst x0 y0 x y (act x0 y0) b t (body x y t)); auto. apply Hany, HI.
    - intros t Hx0 Hy0 HI. apply (pix_hit s dst x0 y0 (act x0 y0) t (body x0 y0 t)); auto.
      apply elem_of_seqZ in Hx0, Hy0.
      apply Hhit; [unfold w in Hx0; lia|unfold h in Hy0; lia|apply HI|apply HI|].
      now apply (pixInv_source s src dst x0 y0 (act x0 y0)).
    - now apply pixInv_init. }
  destruct (Hrun 0 0) as [s' [E [HR _]]]. exists s'.
  split; [exact E|]. split; [exact HR|]. split.
  - intros x y Hx Hy. destruct (Hrun x y) as [t [E' [_ Hc]]].
    assert (t = s') by congruence. subst t.
    now rewrite inrect_true in Hc by assumption.
  - intros x y Hxy. destruct (Hrun x y) as [t [E' [_ Hc]]].
    assert (t = s') by congruence. subst t.
    now rewrite inrect_false in Hc by assumption.
Qed.

End PixelFilter.

(** the pixels of the other views stay as they are *)
Lemma reach_pixel (s : Store) (dst : nat) (t : Store) (u : nat) (x y : Z) :
  sound s -> reach s dst t -> u <> dst -> pixel t u x y = pixel s u x y.
Proof.
  intros Hs (Hh & _ & _ & Ho) Hu. rewrite !pixel_cell, Ho by assumption.
  destruct (cell s u x y) as [l|] eqn:E; [|reflexivity].
  destruct (Hs u x y l E) as [c Hc]. rewrite Hc. now apply Hh.
Qed.

Lemma rows_get_elem (cs : list (list loc)) (x y : Z) (l : loc) :
  rows_get cs x y = Some l -> exists row, row ∈ cs /\ l ∈ row.
Proof.
  unfold rows_get.
  destruct ((0 >? x) || (0 >? y) || (y >=? Z.of_nat (length cs))); [discriminate|].
  destruct (cs !! Z.to_nat y) as [row|] eqn:Erow; [|discriminate].
  destruct (x >=? Z.of_nat (length row)); [discriminate|].
  intros H. exists row. split; eapply list_elem_of_lookup_2; eauto.
Qed.

Lemma soundb_sound (s : Store) : soundb s = true -> sound s.
Proof.
  unfold soundb. rewrite forallb_forall. intros H v x y l Hc. unfold cell in Hc.
  destruct (views s !! v) as [vw|] eqn:Ev; [|discriminate].
  apply rows_get_elem in Hc as [row [Hrow Hl]].
  specialize (H vw (proj1 (list_elem_of_In _ _) (list_elem_of_lookup_2 _ _ _ Ev))).
  rewrite forallb_forall in H. specialize (H row (proj1 (list_elem_of_In _ _) Hrow)).
  rewrite forallb_forall in H. specialize (H l (proj1 (list_elem_of_In _ _) Hl)).
  apply Nat.ltb_lt in H. now apply lookup_lt_is_Some.
Qed.

(** ** Filters that compute the new colour from the pixel itself *)

Section PointFilter.

Variables (s : Store) (src dst : nat) (vs : MinimalView.t).
Variables (K : Z -> Z -> Color.t -> M unit) (F : Color.t -> Color.t).
Hypothesis Hv : views s !! src = Some vs.
Hypothesis Hdst : is_Some (views s !! dst).
Hypothesis Hsound : sound s.
Hypothesis HK : forall x y c t,
  reach s dst t -> K x y c t = (do n <- alloc (F c); setColor dst x y (Some n)) t.

Lemma point_body (x y : Z) (t : Store) :
  reach s dst t ->
  (do o <- getColor src x y;
   match o with
   | None => ret tt
   | Some l => do c <- read l; K x y c
   end) t
  = match cell t src x y with
    | None => Ret tt t
    | Some l =>
        match heap t !! l with
        | Some c => (do n <- alloc (F c); setColor dst x y (Some n)) t
        | None => Exn BadRef t
        end
    end.
Proof.
  intros HR.
  rewrite (bind_Ret _ _ _ _ _ (getColor_cell _ _ _ _
             (reach_views _ _ _ _ (ex_intro _ vs Hv) HR))).
  destruct (cell t src x y) as [l|]; [|reflexivity].
  destruct (heap t !! l) as [c|] eqn:Hc.
  - rewrite (bind_Ret _ _ _ _ _ (read_eq _ _ _ Hc)). now apply HK.
  - unfold bind at 1, read. now rewrite Hc.
Qed.

Lemma point_filter_xy :
  exists s',
    (do w' <- getWidth src;
     forEach (seqZ 0 w') (fun x =>
       do h' <- getHeight src;
       forEach (seqZ 0 h') (fun y =>
         do o <- getColor src x y;
         match o with
         | None => ret tt
         | Some l => do c <- read l; K x y c
         end))) s
    = Ret tt s'
    /\ reach s dst s'
    /\ (forall x y c,
          0 <= x < MinimalView.width vs -> 0 <= y < MinimalView.height vs ->
          pixel s src x y = Some c -> is_Some (cell s dst x y) ->
          freshPixel s s' dst x y (F c))
    /\ (forall x y,
          ~ (0 <= x < MinimalView.width vs /\ 0 <= y < MinimalView.height vs)
          \/ cell s src x y = None ->
          cell s' dst x y = cell s dst x y).
Proof.
  destruct (pixel_filter_xy s src dst vs
    (fun x y =>
       do o <- getColor src x y;
       match o with
       | None => ret tt
       | Some l => do c <- read l; K x y c
       end)
    (pixelAct s src F) Hv Hdst Hsound) as [t (E & HR & Hin & Hout)].
  - intros x y t HR. rewrite point_body by assumption.
    destruct (cell t src x y) as [l|] eqn:Ec; [|now left].
    destruct HR as (_ & Hs & _). destruct (Hs src x y l Ec) as [c Hc]. rewrite Hc.
    right. left. eauto.
  - intros x y t _ _ HR _ Hc. rewrite point_body by assumption.
    unfold pixelAct. rewrite Hc. destruct (cell s src x y) as [l|] eqn:Ec; [|reflexivity].
    destruct (Hsound src x y l Ec) as [c Hl]. rewrite Hl.
    destruct HR as (Hh & _). now rewrite (Hh _ _ Hl).
  - exists t. split; [exact E|]. split; [exact HR|]. split.
    + intros x y c Hx Hy Hp Hd. specialize (Hin x y Hx Hy). unfold pixelAct in Hin.
      rewrite pixel_cell in Hp. destruct (cell s src x y) as [l|]; [|discriminate].
      rewrite Hp in Hin. now apply Hin.
    + intros x y [Hxy|Hnone]; [now apply Hout|].
      destruct (decide (0 <= x < MinimalView.width vs /\ 0 <= y < MinimalView.height vs))
        as [[Hx Hy]|Hxy]; [|now apply Hout].
      specialize (Hin x y Hx Hy). unfold pixelAct in Hin. now rewrite Hnone in Hin.
Qed.

End PointFilter.

(** ** threshold *)

(** X17.  [threshold] returns.  For every source pixel whose destination cell
    exists, that cell then refers to a new colour object: each of red, green
    and blue is the channel of the high colour where the pixel's channel
    exceeds the threshold's and the channel of the low colour otherwise, and
    alpha likewise when alpha is thresholded, 1 otherwise.  Destination cells
    without a source pixel are unchanged, and no existing colour object is
    modified: a distinct source view shows the same pixels afterwards. *)
Theorem threshold_pixels (s : Store) (src dst : nat) (vs : MinimalView.t)
    (lth lhi llo : loc) (th hi lo : Color.t) (alphaToo : bool) :
  views s !! src = Some vs -> is_Some (views s !! dst) -> sound s ->
  heap s !! lth = Some th -> heap s !! lhi = Some hi -> heap s !! llo = Some lo ->
  let s' := final (Filters.threshold src dst (Some lth) (Some lhi) (Some llo) alphaToo s) in
  Filters.threshold src dst (Some lth) (Some lhi) (Some llo) alphaToo s = Ret tt s'
  /\ heap_ext s s'
  /\ (forall x y c,
        0 <= x < MinimalView.width vs -> 0 <= y < MinimalView.height vs ->
        pixel s src x y = Some c -> is_Some (cell s dst x y) ->
        freshPixel s s' dst x y (thresholded c th hi lo alphaToo))
  /\ (forall x y,
        ~ (0 <= x < MinimalView.width vs /\ 0 <= y < MinimalView.height vs)
        \/ cell s src x y = None ->
        cell s' dst x y = cell s dst x y)
  /\ (src <> dst -> forall x y, pixel s' src x y = pixel s src x y).
Proof.
  intros Hv Hdst Hsound Hth Hhi Hlo s'.
  destruct (point_filter_xy s src dst vs
    (fun x y oColor =>
       do th <- deref (Some lth);
       do hi <- deref (Some lhi);
       do lo <- deref (Some llo);
       let pick (f : Color.t -> num) := if ngt (f oColor) (f th) then f hi else f lo in
       let oNewColor :=
         Color.mk (pick Color.r) (pick Color.g) (pick Color.b)
                  (if alphaToo then pick Color.a else Color.a Color.new0)
                  false false in
       do n <- alloc oNewColor;
       setColor dst x y (Some n))
    (fun c => thresholded c th hi lo alphaToo) Hv Hdst Hsound)
    as [t (E & HR & Hin & Hout)].
  - intros x y c t (Hh & _). cbn [deref].
    rewrite (bind_Ret _ _ _ _ _ (read_eq _ _ _ (Hh _ _ Hth))).
    rewrite (bind_Ret _ _ _ _ _ (read_eq _ _ _ (Hh _ _ Hhi))).
    rewrite (bind_Ret _ _ _ _ _ (read_eq _ _ _ (Hh _ _ Hlo))).
    reflexivity.
  - assert (Es : s' = t) by exact (f_equal final E). rewrite Es.
    split; [exact E|]. split; [apply HR|]. split; [exact Hin|]. split; [exact Hout|].
    intros Hne x y. now apply (reach_pixel s dst).
Qed.

(** X17 on the scene [scenePoint]. *)
Lemma threshold_pixels_witness :
  let s' := final (Filters.threshold 0 1 (Some 1%nat) (Some 0%nat) (Some 2%nat) false
                     scenePoint) in
  pixel s' 1 0 0 = Some (rgba 0 0 0 1)
  /\ pixel s' 0 0 0 = Some (rgba 10 20 30 1).
Proof.
  destruct (threshold_pixels scenePoint 0 1 (MinimalView.mk 1 1 [[1%nat]] None)
              1%nat 0%nat 2%nat (rgba 10 20 30 1) (rgba 0 0 0 0) (rgba 0 0 0 0) false)
    as (_ & _ & Hin & _ & Hsrc); try reflexivity.
  - vm_compute; eauto.
  - apply soundb_sound. vm_compute; reflexivity.
  - split.
    + apply (freshPixel_pixel scenePoint).
      apply (Hin 0 0 (rgba 10 20 30 1)); try (cbn; lia); vm_compute; eauto.
    + rewrite Hsrc by discriminate. vm_compute; reflexivity.
Defined.

(** ** equalize *)

Lemma count_le_length (p : Color.t -> bool) (cs : list Color.t) :
  count p cs <= Z.of_nat (length cs).
Proof.
  induction cs as [|c cs IH]; cbn [count length]; [lia|]. destruct (p c); lia.
Qed.

Lemma length_omap_le {A B} (f : A -> option B) (l : list A) :
  (length (omap f l) <= length l)%nat.
Proof.
  induction l as [|a l IH]; [simpl; lia|].
  change (omap f (a :: l)) with (match f a with Some y => y :: omap f l | None => omap f l end).
  destruct (f a); cbn [length]; lia.
Qed.

Lemma scan_length (s : Store) (v : nat) (vw : MinimalView.t) :
  views s !! v = Some vw ->
  0 <= MinimalView.width vw -> 0 <= MinimalView.height vw ->
  Z.of_nat (length (scan s v)) <= MinimalView.width vw * MinimalView.height vw.
Proof.
  intros Hv Hw Hh. unfold scan. rewrite Hv.
  set (h := MinimalView.height vw) in *.
  assert (G : forall l : list Z,
    Z.of_nat (length (concat (map (fun x => omap (fun y => pixel s v x y) (seqZ 0 h)) l)))
    <= Z.of_nat (length l) * h).
  { induction l as [|x l IH]; cbn [map concat length]; [lia|].
    rewrite length_app.
    pose proof (length_omap_le (fun y => pixel s v x y) (seqZ 0 h)) as Hl.
    rewrite length_seqZ in Hl. lia. }
  specialize (G (seqZ 0 (MinimalView.width vw))). rewrite length_seqZ in G. lia.
Qed.

(** The channel that the model of [equalize] computes, as an integer. *)
Lemma equalize_channel (area n : Z) : 0 < area ->
  exists j : Z,
    Math_round (nmul (ndiv (ofZ 255) (ofZ area)) (ofZ n)) = ofZ j
    /\ 2 * Z.abs (j * area - 255 * n) <= area.
Proof.
  intros Ha. unfold ndiv, ofZ at 1 2, ofQ.
  assert (Hz : Qc_is_zero (Q2Qc (inject_Z area)) = false).
  { unfold Qc_is_zero. rewrite this_ofZ.
    destruct (Qeq_bool (inject_Z area) 0) eqn:E; [|reflexivity].
    apply Qeq_bool_iff in E. unfold Qeq in E. simpl in E. lia. }
  rewrite Hz. unfold nmul, lift2, ofZ at 1, ofQ. unfold Math_round.
  eexists. split; [reflexivity|].
  set (q := (Q2Qc (inject_Z 255) / Q2Qc (inject_Z area) * Q2Qc (inject_Z n))%Qc).
  assert (Eq : (this q == inject_Z (255 * n) / inject_Z area)%Q).
  { unfold q. qc2q. rewrite inject_Z_mult. field.
    intros E. unfold Qeq in E. simpl in E. lia. }
  unfold Qc_round.
  assert (Ev : (this q + (1 # 2) == (2 * (255 * n) + area) # (2 * Z.to_pos area))%Q).
  { rewrite Eq. destruct area as [|p|p]; try lia.
    unfold Qeq, Qplus, Qdiv, Qmult, Qinv, inject_Z. simpl. lia. }
  rewrite Ev. unfold Qfloor.
  rewrite Pos2Z.inj_mul, Z2Pos.id by lia.
  pose proof (Z.div_mod (2 * (255 * n) + area) (2 * area) ltac:(lia)) as Hd.
  pose proof (Z.mod_pos_bound (2 * (255 * n) + area) (2 * area) ltac:(lia)) as Hm.
  set (j := (2 * (255 * n) + area) / (2 * area)) in *. nia.
Qed.

Lemma atMost_channel (f : Color.t -> num) (cs : list Color.t) (c : Color.t) (k : Z) :
  f c = ofZ k -> 0 <= k < 256 ->
  arr_get (table (running (fun j => count (fun d => num_eqb (f d) (ofZ j)) cs))) (f c)
  = ofZ (atMost f cs c).
Proof.
  intros E Hk. unfold atMost. rewrite E, toZ_ofZ, get_table by lia.
  now rewrite running_count by lia.
Qed.

Lemma atMost_range (f : Color.t -> num) (cs : list Color.t) (c : Color.t) :
  0 <= atMost f cs c <= Z.of_nat (length cs).
Proof.
  unfold atMost. destruct (toZ (f c)); [|lia].
  split; [apply count_nonneg|apply count_le_length].
Qed.

(** X18.  On a source whose pixels have integer red, green and blue from 0
    to 255 and alpha in [0, 1], [equalize] returns and stores, for every source
    pixel whose destination cell exists, a new colour object: a 255-mode
    colour, not flagged transparent, with the pixel's alpha, of which each of
    red, green and blue is an integer from 0 to 255 less than 1 away from
    [255 * n / (width * height)], where [n] is the number of source pixels
    whose channel is at most this pixel's.  The other destination cells and
    all existing colour objects are unchanged. *)
Theorem equalize_pixels (s : Store) (src dst : nat) (vs : MinimalView.t) :
  views s !! src = Some vs -> is_Some (views s !! dst) -> sound s ->
  (forall x y l,
     0 <= x < MinimalView.width vs -> 0 <= y < MinimalView.height vs ->
     rows_get (MinimalView.colors vs) x y = Some l ->
     exists c, heap s !! l = Some c /\ validPixel c) ->
  let s' := final (Filters.equalize src dst s) in
  let cs := scan s src in
  let area := MinimalView.width vs * MinimalView.height vs in
  Filters.equalize src dst s = Ret tt s'
  /\ heap_ext s s'
  /\ (forall x y c,
        0 <= x < MinimalView.width vs -> 0 <= y < MinimalView.height vs ->
        pixel s src x y = Some c -> is_Some (cell s dst x y) ->
        exists c' : Color.t,
          freshPixel s s' dst x y c' /\ color255 c'
          /\ Color.a c' = Color.a c /\ Color.transparent c' = false
          /\ equalized area (atMost Color.r cs c) (Color.r c')
          /\ equalized area (atMost Color.g cs c) (Color.g c')
          /\ equalized area (atMost Color.b cs c) (Color.b c'))
  /\ (forall x y,
        ~ (0 <= x < MinimalView.width vs /\ 0 <= y < MinimalView.height vs)
        \/ cell s src x y = None ->
        cell s' dst x y = cell s dst x y)
  /\ (src <> dst -> forall x y, pixel s' src x y = pixel s src x y).
Proof.
  intros Hv Hdst Hsound Hvalid s' cs area.
  set (sr := table (running (fun j => count (fun d => num_eqb (Color.r d) (ofZ j)) cs))).
  set (sg := table (running (fun j => count (fun d => num_eqb (Color.g d) (ofZ j)) cs))).
  set (sb := table (running (fun j => count (fun d => num_eqb (Color.b d) (ofZ j)) cs))).
  set (coef := ndiv (ofZ 255) (ofZ area)).
  set (G := fun c : Color.t =>
              Color.mk (Math_round (nmul coef (arr_get sr (Color.r c))))
                       (Math_round (nmul coef (arr_get sg (Color.g c))))
                       (Math_round (nmul coef (arr_get sb (Color.b c))))
                       (Color.a c) false false).
  destruct (point_filter_xy s src dst vs
              (fun x y oColor => do n <- alloc (G oColor); setColor dst x y (Some n))
              G Hv Hdst Hsound) as [t (E & HR & Hin & Hout)]; [reflexivity|].
  assert (Hrun : Filters.equalize src dst s = Ret tt t).
  { unfold Filters.equalize.
    rewrite (bind_Ret _ _ _ _ _ (histogram_tables s src vs Hv Hvalid)).
    cbv zeta. rewrite sumHistogram_tables.
    rewrite (bind_Ret _ _ _ _ _ (getWidth_eq _ _ _ Hv)).
    rewrite (bind_Ret _ _ _ _ _ (getHeight_eq _ _ _ Hv)).
    rewrite !nmul_ofZ, Z.mul_1_l.
    cbn [HistogramResult.red HistogramResult.green HistogramResult.blue].
    exact E. }
  assert (Es : s' = t) by exact (f_equal final Hrun). rewrite Es.
  split; [exact Hrun|]. split; [apply HR|]. split; [|split; [exact Hout|]].
  - intros x y c Hx Hy Hp Hd.
    assert (Hc : validPixel c).
    { rewrite pixel_cell in Hp. unfold cell in Hp. rewrite Hv in Hp.
      destruct (rows_get (MinimalView.colors vs) x y) as [l|] eqn:El; [|discriminate].
      destruct (Hvalid x y l Hx Hy El) as [c0 [Hc0 Hval]]. congruence. }
    destruct Hc as ([kr [Hkr Hr]] & [kg [Hkg Hg]] & [kb [Hkb Hb]] & Ha).
    assert (Harea : 0 < area) by (unfold area; nia).
    pose proof (scan_length s src vs Hv ltac:(lia) ltac:(lia)) as Hlen. fold cs area in Hlen.
    pose proof (atMost_range Color.r cs c) as Rr. pose proof (atMost_range Color.g cs c) as Rg.
    pose proof (atMost_range Color.b cs c) as Rb.
    destruct (equalize_channel area (atMost Color.r cs c) Harea) as [jr [Er Nr]].
    destruct (equalize_channel area (atMost Color.g cs c) Harea) as [jg [Eg Ng]].
    destruct (equalize_channel area (atMost Color.b cs c) Harea) as [jb [Eb Nb]].
    assert (Ec : G c = Color.mk (ofZ jr) (ofZ jg) (ofZ jb) (Color.a c) false false).
    { unfold G, sr, sg, sb, coef.
      rewrite (atMost_channel Color.r cs c kr), (atMost_channel Color.g cs c kg),
        (atMost_channel Color.b cs c kb) by (auto; lia).
      now rewrite Er, Eg, Eb. }
    exists (G c). split; [now apply (Hin x y c)|]. rewrite Ec.
    cbn [Color.normalized Color.transparent Color.r Color.g Color.b Color.a].
    split.
    { repeat split; cbn [Color.normalized Color.r Color.g Color.b Color.a];
        try exact Ha; (eexists; split; [|reflexivity]; nia). }
    repeat split; (eexists; split; [reflexivity|lia]).
  - intros Hne x y. now apply (reach_pixel s dst).
Qed.

(** X18 on the scene [scenePoint]. *)
Lemma equalize_pixels_witness :
  pixel (final (Filters.equalize 0 1 scenePoint)) 1 0 0 = Some (rgba 255 255 255 1).
Proof.
  destruct (equalize_pixels scenePoint 0 1 (MinimalView.mk 1 1 [[1%nat]] None) eq_refl)
    as (_ & _ & Hin & _).
  - vm_compute; eauto.
  - apply soundb_sound. vm_compute; reflexivity.
  - intros x y l. apply scenePoint_valid.
  - assert (Hp : pixel scenePoint 0 0 0 = Some (rgba 10 20 30 1)) by reflexivity.
    assert (Hd : is_Some (cell scenePoint 1 0 0)) by (vm_compute; eauto).
    destruct (Hin 0 0 (rgba 10 20 30 1) ltac:(cbn; lia) ltac:(cbn; lia) Hp Hd)
      as (c' & Hq & (Hn & _) & Ha & Ht & [jr [Er Hr]] & [jg [Eg Hg]] & [jb [Eb Hb]]).
    rewrite (freshPixel_pixel _ _ _ _ _ _ Hq).
    change (atMost Color.r (scan scenePoint 0) (rgba 10 20 30 1)) with 1 in Hr.
    change (atMost Color.g (scan scenePoint 0) (rgba 10 20 30 1)) with 1 in Hg.
    change (atMost Color.b (scan scenePoint 0) (rgba 10 20 30 1)) with 1 in Hb.
    cbn [MinimalView.width MinimalView.height] in Hr, Hg, Hb.
    assert (jr = 255) by lia. assert (jg = 255) by lia. assert (jb = 255) by lia.
    subst jr jg jb. destruct c' as [cr cg cb ca ct cn].
    cbn [Color.r Color.g Color.b Color.a Color.transparent Color.normalized] in *.
    subst. reflexivity.
Defined.

(** ** bilinearInterpolatePixel at a coordinate without fractions *)

Lemma atNode_255 (c : Color.t) : color255 c -> atNode c = plain c.
Proof.
  intros (Hn & [kr [Hkr Hr]] & [kg [Hkg Hg]] & [kb [Hkb Hb]] & [qa (Ha & Ha0 & Ha1)]).
  destruct c as [cr cg cb ca ct cn]; simpl in *; subst.
  unfold atNode, plain. cbv zeta.
  unfold Color.getNormalizedColor; cbn [Color.normalized negb Color.r Color.g Color.b Color.a].
  rewrite !xlate255_ofZ by assumption.
  unfold Color.multiplyNumber, Color.addColor; cbn [Color.normalized negb Color.r Color.g Color.b Color.a Color.transparent].
  rewrite !bilinear_channel.
  unfold Color.clamp, Color.get255Color; cbn [Color.normalized negb Color.r Color.g Color.b Color.a Color.transparent].
  destruct (norm_le1 kr Hkr), (norm_le1 kg Hkg), (norm_le1 kb Hkb).
  rewrite !clamp_unit by assumption.
  now rewrite !xlateTo255_norm by assumption.
Qed.

Lemma getColorAt_cell (t : Store) (v : nat) (x y : Z) :
  is_Some (views t !! v) -> getColorAt v (ofZ x) (ofZ y) t = Ret (cell t v x y) t.
Proof. intros H. unfold getColorAt. rewrite !toZ_ofZ. now apply getColor_cell. Qed.

Lemma bilinear_node (t : Store) (v : nat) (vw : MinimalView.t) (x y : Z) :
  views t !! v = Some vw ->
  Filters.bilinearInterpolatePixel v (ofZ x) (ofZ y) t
  = if (x <? 0) || (y <? 0) || (MinimalView.width vw <? x) || (MinimalView.height vw <? y)
    then Ret None t
    else match cell t v x y with
         | None => Ret None t
         | Some l =>
             match heap t !! l with
             | Some c => (do n <- alloc (atNode c); ret (Some n)) t
             | None => Exn BadRef t
             end
         end.
Proof.
  intros Hv. assert (Hs : is_Some (views t !! v)) by eauto.
  unfold Filters.bilinearInterpolatePixel.
  rewrite !Math_round_ofZ, !Math_floor_ofZ, !Math_ceil_ofZ, !ngt_ofZ, !nsub_ofZ.
  destruct (x <? 0); [reflexivity|]. destruct (y <? 0); [reflexivity|].
  rewrite (bind_Ret _ _ _ _ _ (getWidth_eq _ _ _ Hv)). rewrite nlt_ofZ.
  destruct (MinimalView.width vw <? x); [reflexivity|].
  rewrite (bind_Ret _ _ _ _ _ (getHeight_eq _ _ _ Hv)). rewrite nlt_ofZ.
  destruct (MinimalView.height vw <? y); [reflexivity|]. cbn [orb].
  rewrite !Z.sub_diag, Z.sub_0_r.
  rewrite !(bind_Ret _ _ _ _ _ (getColorAt_cell _ _ _ _ Hs)).
  destruct (cell t v x y) as [l|] eqn:Ec.
  - destruct (heap t !! l) as [c|] eqn:Hc.
    + rewrite !(bind_Ret _ _ _ _ _ (read_eq _ _ _ Hc)). reflexivity.
    + unfold bind at 1, read. now rewrite Hc.
  - rewrite getColorAt_cell by assumption. now rewrite Ec.
Qed.

(** one iteration of the second loop of [bilinearInterpolate] *)
Lemma bilinear_node_step (t : Store) (v : nat) (vw : MinimalView.t) (x y : Z) :
  views t !! v = Some vw ->
  (do newColor <- Filters.bilinearInterpolatePixel v (ofZ x) (ofZ y);
   setColor v x y newColor) t
  = if (x <? 0) || (y <? 0) || (MinimalView.width vw <? x) || (MinimalView.height vw <? y)
    then Ret tt t
    else match cell t v x y with
         | None => Ret tt t
         | Some l =>
             match heap t !! l with
             | Some c => (do n <- alloc (atNode c); setColor v x y (Some n)) t
             | None => Exn BadRef t
             end
         end.
Proof.
  intros Hv. unfold bind at 1. rewrite (bilinear_node t v vw x y Hv).
  destruct ((x <? 0) || (y <? 0) || (MinimalView.width vw <? x) || (MinimalView.height vw <? y));
    [reflexivity|].
  destruct (cell t v x y) as [l|]; [|reflexivity].
  destruct (heap t !! l) as [c|]; reflexivity.
Qed.

Lemma sound_same (s t : Store) :
  sound s -> heap t = heap s ->
  (forall u x y l, cell t u x y = Some l -> exists u' x' y', cell s u' x' y' = Some l) ->
  sound t.
Proof.
  intros Hs Hh Hc u x y l Hl. rewrite Hh.
  destruct (Hc u x y l Hl) as (u' & x' & y' & Hl'). eapply Hs; eauto.
Qed.

(** X19.  On a source whose pixels are 255-mode colours with integer
    channels from 0 to 255 and alpha in [0, 1], and a destination at least as
    wide and as high that has a cell at every source coordinate,
    [bilinearInterpolate] returns and leaves at every source coordinate of
    the destination a new colour object with the red, green, blue and alpha
    of the source pixel: at the integer coordinates it samples, the
    interpolation reproduces the image.  Destination cells outside the source
    rectangle and all existing colour objects are unchanged. *)
Theorem bilinearInterpolate_pixels (s : Store) (src dst : nat) (vs vd : MinimalView.t) :
  views s !! src = Some vs -> views s !! dst = Some vd -> sound s ->
  MinimalView.width vs <= MinimalView.width vd ->
  MinimalView.height vs <= MinimalView.height vd ->
  (forall x y, 0 <= x < MinimalView.width vs -> 0 <= y < MinimalView.height vs ->
     is_Some (cell s dst x y)
     /\ exists c, pixel s src x y = Some c /\ color255 c) ->
  let s' := final (Filters.bilinearInterpolate src dst s) in
  Filters.bilinearInterpolate src dst s = Ret tt s'
  /\ heap_ext s s'
  /\ (forall x y c,
        0 <= x < MinimalView.width vs -> 0 <= y < MinimalView.height vs ->
        pixel s src x y = Some c ->
        freshPixel s s' dst x y (plain c) /\ pixel s' dst x y = Some (plain c))
  /\ (forall x y,
        ~ (0 <= x < MinimalView.width vs /\ 0 <= y < MinimalView.height vs) ->
        cell s' dst x y = cell s dst x y)
  /\ (src <> dst -> forall x y, pixel s' src x y = pixel s src x y).
Proof.
  intros Hv Hvd Hsound Hw Hh Hfull s'.
  assert (Hdst : is_Some (views s !! dst)) by eauto.
  destruct (copy_run s src dst vs Hv Hdst) as (Ecopy & Hh1 & Hd1 & Hin1 & Hout1 & Ho1).
  set (s1 := final (Filters.copy src dst s)) in *.
  assert (Hcell1 : forall x y,
            0 <= x < MinimalView.width vs -> 0 <= y < MinimalView.height vs ->
            cell s1 dst x y = cell s src x y).
  { intros x y Hx Hy. rewrite Hin1 by assumption.
    destruct (Hfull x y Hx Hy) as [[l0 Hl0] [c [Hc _]]]. rewrite Hl0.
    rewrite pixel_cell in Hc. now destruct (cell s src x y). }
  assert (Hsound1 : sound s1).
  { apply (sound_same s); auto. intros u x y l Hl.
    destruct (decide (u = dst)) as [->|Hu]; [|exists u, x, y; now rewrite <- Ho1].
    destruct (decide (0 <= x < MinimalView.width vs /\ 0 <= y < MinimalView.height vs))
      as [[Hx Hy]|Hxy].
    - exists src, x, y. now rewrite <- Hcell1.
    - exists dst, x, y. now rewrite <- Hout1. }
  destruct (dims_view s1 src (MinimalView.width vs) (MinimalView.height vs))
    as (vs1 & Hvs1 & Hw1 & Hh1').
  { rewrite Hd1. unfold dims. now rewrite Hv. }
  assert (Hdst1 : is_Some (views s1 !! dst)).
  { destruct (is_Some_dims _ _ Hdst) as [[w h] E]. apply (dims_is_Some _ _ w h). now rewrite Hd1. }
  assert (Hdimd : forall t, reach s1 dst t ->
            exists vt, views t !! dst = Some vt
                       /\ MinimalView.width vt = MinimalView.width vd
                       /\ MinimalView.height vt = MinimalView.height vd).
  { intros t (_ & _ & Hd & _). apply dims_view. rewrite Hd, Hd1. unfold dims. now rewrite Hvd. }
  destruct (pixel_filter_xy s1 src dst vs1
    (fun x y =>
       do newColor <- Filters.bilinearInterpolatePixel dst (ofZ x) (ofZ y);
       setColor dst x y newColor)
    (pixelAct s1 dst atNode) Hvs1 Hdst1 Hsound1) as [t (E & HR & Hin & Hout)].
  - intros x y t HR. destruct (Hdimd t HR) as (vt & Hvt & _).
    rewrite (bilinear_node_step t dst vt x y Hvt).
    destruct (_ || _); [now left|].
    destruct (cell t dst x y) as [l|] eqn:Ec; [|now left].
    destruct HR as (_ & Hs & _). destruct (Hs dst x y l Ec) as [c Hc]. rewrite Hc.
    right. left. eauto.
  - intros x y t Hx Hy HR Hc _. destruct (Hdimd t HR) as (vt & Hvt & Hwt & Hht).
    rewrite (bilinear_node_step t dst vt x y Hvt). rewrite Hwt, Hht.
    destruct (Z.ltb_spec x 0); [lia|]. destruct (Z.ltb_spec y 0); [lia|].
    destruct (Z.ltb_spec (MinimalView.width vd) x); [lia|].
    destruct (Z.ltb_spec (MinimalView.height vd) y); [lia|]. cbn [orb].
    unfold pixelAct. rewrite Hc. destruct (cell s1 dst x y) as [l|] eqn:Ec; [|reflexivity].
    destruct (Hsound1 dst x y l Ec) as [c Hl]. rewrite Hl.
    destruct HR as (Hext & _). now rewrite (Hext _ _ Hl).
  - assert (Hrun : Filters.bilinearInterpolate src dst s = Ret tt t).
    { unfold Filters.bilinearInterpolate. rewrite (bind_Ret _ _ _ _ _ Ecopy). exact E. }
    assert (Es : s' = t) by exact (f_equal final Hrun). rewrite Es.
    assert (Hext : heap_ext s t).
    { destruct HR as (Hext & _). intros l c Hl. apply Hext. now rewrite Hh1. }
    split; [exact Hrun|]. split; [exact Hext|]. split; [|split].
    + intros x y c Hx Hy Hp.
      assert (Hx1 : 0 <= x < MinimalView.width vs1) by lia.
      assert (Hy1 : 0 <= y < MinimalView.height vs1) by lia.
      specialize (Hin x y Hx1 Hy1). unfold pixelAct in Hin.
      rewrite Hcell1 in Hin by assumption.
      destruct (Hfull x y Hx Hy) as [_ [c0 [Hc0 H255]]].
      assert (c0 = c) by congruence. subst c0.
      rewrite pixel_cell in Hp. destruct (cell s src x y) as [l|] eqn:El; [|discriminate].
      rewrite Hh1, Hp in Hin. cbn [fmap option_fmap option_map] in Hin.
      rewrite atNode_255 in Hin by assumption.
      destruct (Hin ltac:(eauto)) as [l' (Hl' & Hnew & Hcol)].
      split; [|now rewrite pixel_cell, Hl'].
      exists l'. split; [exact Hl'|]. split; [now rewrite <- Hh1|exact Hcol].
    + intros x y Hxy. rewrite Hout by lia. now apply Hout1.
    + intros Hne x y. rewrite (reach_pixel s1 dst t src x y Hsound1 HR Hne).
      now rewrite !pixel_cell, Ho1, Hh1.
Qed.

Lemma scenePoint_255 (x y : Z) :
  0 <= x < 1 -> 0 <= y < 1 ->
  is_Some (cell scenePoint 1 x y)
  /\ exists c, pixel scenePoint 0 x y = Some c /\ color255 c.
Proof.
  intros Hx Hy. assert (x = 0) by lia. assert (y = 0) by lia. subst x y.
  split; [vm_compute; eauto|].
  exists (rgba 10 20 30 1). split; [reflexivity|].
  repeat split; try (eexists; split; [|reflexivity]; lia).
  exists (Q2Qc 1). repeat split; discriminate.
Qed.

(** X19 on the scene [scenePoint]. *)
Lemma bilinearInterpolate_pixels_witness :
  pixel (final (Filters.bilinearInterpolate 0 1 scenePoint)) 1 0 0 = Some (rgba 10 20 30 1).
Proof.
  destruct (bilinearInterpolate_pixels scenePoint 0 1
              (MinimalView.mk 1 1 [[1%nat]] None) (MinimalView.mk 1 1 [[2%nat]] None)
              eq_refl eq_refl) as (_ & _ & Hin & _).
  - apply soundb_sound. vm_compute; reflexivity.
  - cbn. lia.
  - cbn. lia.
  - apply scenePoint_255.
  - apply (Hin 0 0 (rgba 10 20 30 1)); try (cbn; lia). reflexivity.
Defined.

(** ** scale *)

Lemma getColorAt_any (t : Store) (v : nat) (a b : num) :
  is_Some (views t !! v) -> sound t ->
  exists o, getColorAt v a b t = Ret o t /\ forall l, o = Some l -> is_Some (heap t !! l).
Proof.
  intros Hv Hs. unfold getColorAt.
  destruct (toZ a) as [x|]; [destruct (toZ b) as [y|]|].
  - exists (cell t v x y). split; [now apply getColor_cell|]. intros l Hl. eapply Hs; eauto.
  - exists None. split; [reflexivity|discriminate].
  - exists None. split; [reflexivity|discriminate].
Qed.

(** what [bilinearInterpolatePixel] returns, at any coordinates *)
Lemma bilinear_any (t : Store) (v : nat) (fx fy : num) :
  is_Some (views t !! v) -> sound t ->
  let r := Filters.bilinearInterpolatePixel v fx fy t in
  r = Ret None t
  \/ (exists l, is_Some (heap t !! l) /\ r = Ret (Some l) t)
  \/ (exists c, r = (do n <- alloc c; ret (Some n)) t).
Proof.
  intros Hv Hs r. unfold r, Filters.bilinearInterpolatePixel.
  destruct (ngt (ofZ 0) (Math_round fx)); [now left|].
  destruct (ngt (ofZ 0) (Math_round fy)); [now left|].
  destruct Hv as [vw Hvw]. assert (Hv : is_Some (views t !! v)) by eauto.
  rewrite (bind_Ret _ _ _ _ _ (getWidth_eq _ _ _ Hvw)).
  destruct (nlt (ofZ (MinimalView.width vw)) (Math_round fx)); [now left|].
  rewrite (bind_Ret _ _ _ _ _ (getHeight_eq _ _ _ Hvw)).
  destruct (nlt (ofZ (MinimalView.height vw)) (Math_round fy)); [now left|].
  destruct (getColorAt_any t v (Math_floor fx) (Math_floor fy) Hv Hs) as [o1 [E1 H1]].
  destruct (getColorAt_any t v (Math_floor fx) (Math_ceil fy) Hv Hs) as [o2 [E2 H2]].
  destruct (getColorAt_any t v (Math_ceil fx) (Math_floor fy) Hv Hs) as [o3 [E3 H3]].
  destruct (getColorAt_any t v (Math_ceil fx) (Math_ceil fy) Hv Hs) as [o4 [E4 H4]].
  destruct (getColorAt_any t v (Math_round fx) (Math_round fy) Hv Hs) as [o5 [E5 H5]].
  rewrite (bind_Ret _ _ _ _ _ E1), (bind_Ret _ _ _ _ _ E2), (bind_Ret _ _ _ _ _ E3),
    (bind_Ret _ _ _ _ _ E4).
  assert (Hfall : getColorAt v (Math_round fx) (Math_round fy) t = Ret None t
                  \/ (exists l, is_Some (heap t !! l)
                        /\ getColorAt v (Math_round fx) (Math_round fy) t = Ret (Some l) t)).
  { rewrite E5. destruct o5 as [l|]; [right|now left]. exists l. split; [now apply H5|reflexivity]. }
  destruct o1 as [l1|]; [|destruct Hfall as [->|[l [Hl ->]]]; [now left|right; left; eauto]].
  destruct o2 as [l2|]; [|destruct Hfall as [->|[l [Hl ->]]]; [now left|right; left; eauto]].
  destruct o3 as [l3|]; [|destruct Hfall as [->|[l [Hl ->]]]; [now left|right; left; eauto]].
  destruct o4 as [l4|]; [|destruct Hfall as [->|[l [Hl ->]]]; [now left|right; left; eauto]].
  destruct (H1 l1 eq_refl) as [c1 Hc1]. destruct (H2 l2 eq_refl) as [c2 Hc2].
  destruct (H3 l3 eq_refl) as [c3 Hc3]. destruct (H4 l4 eq_refl) as [c4 Hc4].
  rewrite (bind_Ret _ _ _ _ _ (read_eq _ _ _ Hc1)), (bind_Ret _ _ _ _ _ (read_eq _ _ _ Hc2)),
    (bind_Ret _ _ _ _ _ (read_eq _ _ _ Hc3)), (bind_Ret _ _ _ _ _ (read_eq _ _ _ Hc4)).
  right. right. eexists. reflexivity.
Qed.

Lemma scale_step (t : Store) (src dst : nat) (fx fy : num) (X Y : Z) :
  is_Some (views t !! src) -> sound t ->
  stepOf dst X Y t
    ((do oNewColor <- Filters.bilinearInterpolatePixel src fx fy;
      match oNewColor with
      | None => ret tt
      | Some _ => setColor dst X Y oNewColor
      end) t).
Proof.
  intros Hv Hs. unfold bind at 1.
  destruct (bilinear_any t src fx fy Hv Hs) as [-> | [[l [Hl ->]] | [c ->]]].
  - now left.
  - right. right. exists l. split; [exact Hl|reflexivity].
  - right. left. exists c. reflexivity.
Qed.

Lemma ndiv_mul (k x : Z) : k <> 0 -> ndiv (ofZ (k * x)) (ofZ k) = ofZ x.
Proof.
  intros Hk. unfold ndiv, ofZ, ofQ.
  assert (Hz : Qc_is_zero (Q2Qc (inject_Z k)) = false).
  { unfold Qc_is_zero. rewrite this_ofZ.
    destruct (Qeq_bool (inject_Z k) 0) eqn:E; [|reflexivity].
    apply Qeq_bool_iff in E. unfold Qeq in E. simpl in E. lia. }
  rewrite Hz. f_equal. apply Qc_is_canon. qc2q. rewrite inject_Z_mult.
  field. intros E. unfold Qeq in E. simpl in E. lia.
Qed.

Lemma loopCount_ofZ (a b : Z) : Filters.loopCount (nmul (ofZ a) (ofZ b)) = a * b.
Proof. rewrite nmul_ofZ. unfold Filters.loopCount, ofZ, ofQ. apply Qc_ceil_ofZ. Qed.

(** X20.  [scale] with positive integer factors [kx] and [ky], from a source
    to a different destination, returns.  Each source pixel [(x, y)] that is
    a 255-mode colour with integer channels from 0 to 255 appears at the
    destination cell [(kx * x, ky * y)], where that cell exists, as a new
    colour object with the same red, green, blue and alpha.  Destination cells
    outside the scaled rectangle, [width * kx] by [height * ky], are
    unchanged, and so are the pixels of the source. *)
Theorem scale_integer (s : Store) (src dst : nat) (vs : MinimalView.t) (kx ky : Z)
    (inFillColor : option loc) :
  views s !! src = Some vs -> is_Some (views s !! dst) -> src <> dst -> sound s ->
  0 < kx -> 0 < ky ->
  let s' := final (Filters.scale src dst (ofZ kx) (ofZ ky) inFillColor s) in
  Filters.scale src dst (ofZ kx) (ofZ ky) inFillColor s = Ret tt s'
  /\ heap_ext s s'
  /\ (forall x y c,
        0 <= x < MinimalView.width vs -> 0 <= y < MinimalView.height vs ->
        pixel s src x y = Some c -> color255 c ->
        is_Some (cell s dst (kx * x) (ky * y)) ->
        freshPixel s s' dst (kx * x) (ky * y) (plain c))
  /\ (forall X Y,
        ~ (0 <= X < MinimalView.width vs * kx /\ 0 <= Y < MinimalView.height vs * ky) ->
        cell s' dst X Y = cell s dst X Y)
  /\ (forall x y, pixel s' src x y = pixel s src x y).
Proof.
  intros Hv Hdst Hne Hsound Hkx Hky s'.
  set (white := Color.mk (ofZ 255) (ofZ 255) (ofZ 255) (ofZ 1) false false).
  set (s0 := match inFillColor with
             | Some _ => s
             | None => mkStore (heap s ++ [white]) (views s)
             end).
  set (lf := match inFillColor with Some l => l | None => length (heap s) end).
  assert (Halloc : (match inFillColor with
                    | Some l => ret l
                    | None => alloc white
                    end) s = Ret lf s0) by (unfold s0, lf; now destruct inFillColor).
  assert (Hviews0 : views s0 = views s) by (unfold s0; now destruct inFillColor).
  assert (Hext0 : heap_ext s s0).
  { unfold s0. destruct inFillColor; [apply heap_ext_refl|apply heap_ext_alloc]. }
  assert (Hcell0 : forall u x y, cell s0 u x y = cell s u x y)
    by (intros; unfold cell; now rewrite Hviews0).
  assert (Hsound0 : sound s0).
  { intros u x y l Hl. rewrite Hcell0 in Hl. destruct (Hsound u x y l Hl) as [c Hc].
    exists c. now apply Hext0. }
  assert (Hv0 : views s0 !! src = Some vs) by (now rewrite Hviews0).
  assert (Hdst0 : is_Some (views s0 !! dst)) by (now rewrite Hviews0).
  set (w := MinimalView.width vs) in *. set (h := MinimalView.height vs) in *.
  set (body := fun X Y : Z =>
         do oNewColor <- Filters.bilinearInterpolatePixel src (ndiv (ofZ X) (ofZ kx))
                           (ndiv (ofZ Y) (ofZ ky));
         match oNewColor with
         | None => ret tt
         | Some _ => setColor dst X Y oNewColor
         end).
  assert (Hloop : forall X0 Y0 (act : option Color.t),
    (forall t, X0 ∈ seqZ 0 (w * kx) -> Y0 ∈ seqZ 0 (h * ky) ->
       pixInv s0 dst X0 Y0 act false t ->
       body X0 Y0 t = match act with
                      | None => Ret tt t
                      | Some c => (do n <- alloc c; setColor dst X0 Y0 (Some n)) t
                      end) ->
    exists t,
      Filters.scale src dst (ofZ kx) (ofZ ky) inFillColor s = Ret tt t
      /\ pixInv s0 dst X0 Y0 act
           (bool_decide (X0 ∈ seqZ 0 (w * kx)) && bool_decide (Y0 ∈ seqZ 0 (h * ky))) t).
  { intros X0 Y0 act Hhit. unfold Filters.scale.
    rewrite (bind_Ret _ _ _ _ _ Halloc).
    rewrite (bind_Ret _ _ _ _ _ (getWidth_eq _ _ _ Hv0)).
    rewrite (bind_Ret _ _ _ _ _ (getHeight_eq _ _ _ Hv0)).
    cbv zeta. rewrite !loopCount_ofZ. fold w h.
    apply (loop_plain_yx_track (seqZ 0 (w * kx)) (seqZ 0 (h * ky)) body X0 Y0
             (pixInv s0 dst X0 Y0 act)).
    - apply NoDup_seqZ.
    - apply NoDup_seqZ.
    - intros X Y b t _ _ HXY HI.
      apply (pix_other s0 dst X0 Y0 X Y act b t (body X Y t)); auto.
      apply scale_step; [|apply HI].
      apply (reach_views s0 dst); [eauto|apply HI].
    - intros t HX HY HI. apply (pix_hit s0 dst X0 Y0 act t (body X0 Y0 t)); auto.
    - now apply pixInv_init. }
  destruct (Hloop (-1) (-1) None) as [t0 (E0 & HR0 & _)].
  { intros t HX _ _. apply elem_of_seqZ in HX. lia. }
  assert (Es : s' = t0) by exact (f_equal final E0). rewrite Es.
  assert (Hpix0 : forall u x y, pixel s0 u x y = pixel s u x y).
  { intros u x y. rewrite !pixel_cell, Hcell0. destruct (cell s u x y) as [l|] eqn:El; [|reflexivity].
    destruct (Hsound u x y l El) as [c Hc]. rewrite Hc. now apply Hext0. }
  split; [exact E0|]. split; [|split; [|split]].
  - destruct HR0 as (Hext & _). eapply heap_ext_trans; eauto.
  - intros x y c Hx Hy Hp H255 Hd.
    destruct (Hloop (kx * x) (ky * y) (Some (plain c))) as [t (E & _ & Hc)].
    { intros t _ _ HI. unfold body.
      rewrite !ndiv_mul by lia.
      assert (Hsrc : cell t src x y = cell s0 src x y) by (destruct HI as [HR _]; now apply HR).
      destruct HI as [HR _].
      destruct (dims_view t src w h) as (vt & Hvt & Hwt & Hht).
      { destruct HR as (_ & _ & Hd' & _). rewrite Hd'. unfold dims. now rewrite Hv0. }
      unfold bind at 1. rewrite (bilinear_node t src vt x y Hvt), Hwt, Hht.
      destruct (Z.ltb_spec x 0); [lia|]. destruct (Z.ltb_spec y 0); [lia|].
      destruct (Z.ltb_spec w x); [lia|]. destruct (Z.ltb_spec h y); [lia|]. cbn [orb].
      rewrite Hsrc, Hcell0. rewrite pixel_cell in Hp.
      destruct (cell s src x y) as [l|]; [|discriminate].
      destruct HR as (Hext & _). rewrite (Hext _ _ (Hext0 _ _ Hp)).
      rewrite atNode_255 by assumption. reflexivity. }
    assert (t = t0) by congruence. subst t.
    rewrite !bool_decide_eq_true_2 in Hc by (apply elem_of_seqZ; nia).
    destruct Hc as [l (Hl & Hnew & Hcol)]; [now rewrite Hcell0|].
    exists l. split; [exact Hl|]. split; [|exact Hcol].
    destruct (heap s !! l) as [c0|] eqn:E1; [|reflexivity].
    apply Hext0 in E1. congruence.
  - intros X Y HXY.
    destruct (Hloop X Y None) as [t (E & _ & Hc)].
    { intros t HX HY _. apply elem_of_seqZ in HX, HY. lia. }
    assert (t = t0) by congruence. subst t.
    assert (Eb : bool_decide (X ∈ seqZ 0 (w * kx)) && bool_decide (Y ∈ seqZ 0 (h * ky)) = false).
    { apply andb_false_iff.
      destruct (decide (0 <= X < w * kx)) as [HX|HX].
      - right. apply bool_decide_eq_false_2. rewrite elem_of_seqZ. lia.
      - left. apply bool_decide_eq_false_2. rewrite elem_of_seqZ. lia. }
    rewrite Eb in Hc. now rewrite Hc, Hcell0.
  - intros x y. rewrite (reach_pixel s0 dst t0 src x y Hsound0 HR0 Hne). apply Hpix0.
Qed.

(** X20 on the scene [sceneTranslate]. *)
Lemma scale_integer_witness :
  let s' := final (Filters.scale 0 1 (ofZ 2) (ofZ 1) (Some 6%nat) sceneTranslate) in
  pixel s' 1 0 0 = Some (rgba 10 20 30 1)
  /\ pixel s' 0 0 0 = Some (rgba 10 20 30 1).
Proof.
  destruct (scale_integer sceneTranslate 0 1 (MinimalView.mk 1 1 [[1%nat]] None) 2 1
              (Some 6%nat) eq_refl) as (_ & _ & Hin & _ & Hsrc); try lia.
  - vm_compute; eauto.
  - apply soundb_sound. vm_compute; reflexivity.
  - split; [|now rewrite Hsrc].
    apply (freshPixel_pixel sceneTranslate).
    apply (Hin 0 0 (rgba 10 20 30 1)); try (cbn; lia).
    + reflexivity.
    + repeat split; try (eexists; split; [|reflexivity]; lia).
      exists (Q2Qc 1). repeat split; discriminate.
    + vm_compute; eauto.
Defined.

(** ** detectEdges on a flat image *)

Lemma forEach_skip {A} (l : list A) (body : A -> M unit) (s : Store) :
  (forall i, i ∈ l -> body i s = Ret tt s) -> forEach l body s = Ret tt s.
Proof.
  intros H. induction l as [|i l IH]; cbn [forEach]; [reflexivity|].
  rewrite (bind_Ret _ _ _ _ _ (H i (list_elem_of_here _ _))).
  apply IH. intros j Hj. apply H. now right.
Qed.

Lemma nmul_add_weight (p : Qc) (W m : Z) :
  nadd (nmul (Fin p) (ofZ W)) (nmul (Fin p) (ofZ m)) = nmul (Fin p) (ofZ (W + m)).
Proof.
  unfold nadd, nmul, lift2, ofZ, ofQ. f_equal. apply Qc_is_canon. qc2q.
  rewrite inject_Z_plus. ring.
Qed.

Lemma foldM_weight {A} (P : Z -> Color.t -> Prop) (wt : A -> Z) (l : list A)
    (body : Color.t * num -> A -> M (Color.t * num)) (s : Store) :
  (forall W sum al i, i ∈ l -> P W sum ->
     exists sum' al', body (sum, al) i s = Ret (sum', al') s /\ P (W + wt i) sum') ->
  forall W sum al, P W sum ->
  exists sum' al', foldM l (sum, al) body s = Ret (sum', al') s
                   /\ P (W + foldr (fun i a => wt i + a) 0 l) sum'.
Proof.
  induction l as [|i l IH]; intros H W sum al HP; cbn [foldM foldr].
  - exists sum, al. split; [reflexivity|]. now rewrite Z.add_0_r.
  - destruct (H W sum al i (list_elem_of_here _ _) HP) as [sum1 [al1 [E1 H1]]].
    rewrite (bind_Ret _ _ _ _ _ E1).
    destruct (IH (fun W sum al j Hj => H W sum al j (list_elem_of_further _ _ _ Hj))
                 _ _ al1 H1) as [sum2 [al2 [E2 H2]]].
    exists sum2, al2. split; [exact E2|]. now rewrite Z.add_assoc.
Qed.

Section Flat.

Variables (s : Store) (src : nat) (vs : MinimalView.t) (kr kg kb : Z).
Hypothesis Hv : views s !! src = Some vs.
Hypothesis Hkr : 0 <= kr <= 255.
Hypothesis Hkg : 0 <= kg <= 255.
Hypothesis Hkb : 0 <= kb <= 255.
Hypothesis Hflat : forall x y,
  0 <= x < MinimalView.width vs -> 0 <= y < MinimalView.height vs ->
  exists c, pixel s src x y = Some c /\ Color.normalized c = false
            /\ Color.r c = ofZ kr /\ Color.g c = ofZ kg /\ Color.b c = ofZ kb.

Lemma flat_step (x y m W : Z) (sum : Color.t) (al : num) :
  0 <= x < MinimalView.width vs -> 0 <= y < MinimalView.height vs ->
  flatSum (xlate255ColorToNormalizedColor (ofZ kr)) (xlate255ColorToNormalizedColor (ofZ kg))
          (xlate255ColorToNormalizedColor (ofZ kb)) W sum ->
  exists sum' al',
    (do o <- getColor src x y;
     match o with
     | None => ret (sum, al)
     | Some l =>
         do c <- read l;
         let oColor := Color.getNormalizedColor c in
         ret (Color.addColor sum (Color.multiplyNumber oColor (ofZ m)), Color.a oColor)
     end) s = Ret (sum', al') s
    /\ flatSum (xlate255ColorToNormalizedColor (ofZ kr))
               (xlate255ColorToNormalizedColor (ofZ kg))
               (xlate255ColorToNormalizedColor (ofZ kb)) (W + m) sum'.
Proof.
  intros Hx Hy (Sr & Sg & Sb & Sn).
  destruct (Hflat x y Hx Hy) as [c (Hp & Hn & Hr & Hg & Hb)].
  rewrite (bind_Ret _ _ _ _ _ (getColor_cell _ _ _ _ (ex_intro _ vs Hv))).
  rewrite pixel_cell in Hp. destruct (cell s src x y) as [l|]; [|discriminate].
  rewrite (bind_Ret _ _ _ _ _ (read_eq _ _ _ Hp)). cbv zeta.
  eexists _, _. split; [reflexivity|].
  unfold Color.getNormalizedColor, Color.addColor, Color.multiplyNumber.
  rewrite Hn. cbn [negb Color.r Color.g Color.b Color.a Color.normalized Color.transparent].
  rewrite Sr, Sg, Sb, Hr, Hg, Hb, !xlate255_ofZ by assumption.
  repeat split; try apply nmul_add_weight. exact Sn.
Qed.

Lemma flat_edgeSum (x y : Z) :
  1 <= x < MinimalView.width vs - 1 -> 1 <= y < MinimalView.height vs - 1 ->
  exists sum al,
    Filters.edgeSum src x y (Color.assignNumber (Color.getNormalizedColor Color.new0) (ofZ 0)) s
    = Ret (sum, al) s
    /\ Color.r sum = ofZ 0 /\ Color.g sum = ofZ 0 /\ Color.b sum = ofZ 0
    /\ Color.normalized sum = true.
Proof.
  intros Hx Hy.
  set (nr := xlate255ColorToNormalizedColor (ofZ kr)).
  set (ng := xlate255ColorToNormalizedColor (ofZ kg)).
  set (nb := xlate255ColorToNormalizedColor (ofZ kb)).
  assert (Hzero : forall n, n = nr \/ n = ng \/ n = nb -> nmul n (ofZ 0) = ofZ 0).
  { intros n Hn. assert (E : exists p, n = Fin p).
    { destruct Hn as [-> | [-> | ->]]; unfold nr, ng, nb;
        rewrite xlate255_ofZ by assumption; eauto. }
    destruct E as [p ->]. unfold nmul, lift2, ofZ, ofQ. f_equal.
    apply Qc_is_canon. qc2q. ring. }
  assert (H0 : flatSum nr ng nb 0
                 (Color.assignNumber (Color.getNormalizedColor Color.new0) (ofZ 0))).
  { repeat split; cbn [Color.assignNumber Color.r Color.g Color.b]; symmetry; apply Hzero; auto. }
  unfold Filters.edgeSum.
  match goal with
  | |- exists sum al, foldM _ _ ?body s = _ /\ _ =>
      destruct (foldM_weight (flatSum nr ng nb)
              (fun m1 => foldr (fun m2 a => nth (Z.to_nat (m2 + 1))
                                   (nth (Z.to_nat (m1 + 1)) Filters.aQuickMask []) 0 + a) 0
                               [-1; 0; 1])
              [-1; 0; 1] body s) with (W := 0) (sum := Color.assignNumber
                 (Color.getNormalizedColor Color.new0) (ofZ 0)) (al := ofZ 1)
        as [sum [al [E HS]]]; [| exact H0 |]
  end.
  - intros W sum al m1 Hm1 HW.
    apply (foldM_weight (flatSum nr ng nb)
             (fun m2 => nth (Z.to_nat (m2 + 1))
                          (nth (Z.to_nat (m1 + 1)) Filters.aQuickMask []) 0)); [|exact HW].
    intros W' sum' al' m2 Hm2 HW'.
    assert (B1 : -1 <= m1 <= 1)
      by (rewrite !elem_of_cons, elem_of_nil in Hm1; lia).
    assert (B2 : -1 <= m2 <= 1)
      by (rewrite !elem_of_cons, elem_of_nil in Hm2; lia).
    apply flat_step; [lia | lia | exact HW'].
  - exists sum, al. split; [exact E|].
    destruct HS as (Sr & Sg & Sb & Sn). cbn in Sr, Sg, Sb.
    rewrite Sr, Sg, Sb. repeat split; try (apply Hzero; auto). exact Sn.
Qed.

End Flat.

Lemma unit_channel_nonneg (k : Z) : 0 <= k <= 255 ->
  exists p, xlate255ColorToNormalizedColor (ofZ k) = Fin p /\ (0 <= this p)%Q.
Proof.
  intros Hk. rewrite xlate255_ofZ by assumption. eexists. split; [reflexivity|].
  qc2q. assert (H := inject_Z_le 0 k ltac:(lia)).
  change (inject_Z 0) with 0%Q in H. change (inject_Z 255) with (255 # 1)%Q.
  apply Qle_shift_div_l; [reflexivity|]. lra.
Qed.

(** X21.  On a source whose pixels all are 255-mode colours with the same
    integer red, green and blue from 0 to 255 (alpha may vary), [detectEdges]
    returns and changes nothing: the mask sums to zero at every interior
    pixel, so no pixel is stored in the destination and no colour object is
    kept. *)
Theorem detectEdges_flat (s : Store) (src dst : nat) (vs : MinimalView.t) (kr kg kb : Z) :
  views s !! src = Some vs ->
  0 <= kr <= 255 -> 0 <= kg <= 255 -> 0 <= kb <= 255 ->
  (forall x y, 0 <= x < MinimalView.width vs -> 0 <= y < MinimalView.height vs ->
     exists c, pixel s src x y = Some c /\ Color.normalized c = false
               /\ Color.r c = ofZ kr /\ Color.g c = ofZ kg /\ Color.b c = ofZ kb) ->
  Filters.detectEdges src dst s = Ret tt s.
Proof.
  intros Hv Hkr Hkg Hkb Hflat. unfold Filters.detectEdges.
  rewrite (bind_Ret _ _ _ _ _ (getWidth_eq _ _ _ Hv)).
  apply forEach_skip. intros x Hx. apply elem_of_seqZ in Hx.
  rewrite (bind_Ret _ _ _ _ _ (getHeight_eq _ _ _ Hv)).
  apply forEach_skip. intros y Hy. apply elem_of_seqZ in Hy.
  cbv zeta.
  destruct (Hflat x y ltac:(lia) ltac:(lia)) as [c (Hp & Hn & Hr & Hg & Hb)].
  rewrite (bind_Ret _ _ _ _ _ (getColor_cell _ _ _ _ (ex_intro _ vs Hv))).
  rewrite pixel_cell in Hp. destruct (cell s src x y) as [l|]; [|discriminate].
  cbn [deref]. rewrite (bind_Ret _ _ _ _ _ (read_eq _ _ _ Hp)).
  destruct (flat_edgeSum s src vs kr kg kb Hv Hkr Hkg Hkb Hflat x y ltac:(lia) ltac:(lia))
    as [sum [al (E & Sr & Sg & Sb & Sn)]].
  rewrite (bind_Ret _ _ _ _ _ E).
  destruct (unit_channel_nonneg kr Hkr) as [pr [Er Pr]].
  destruct (unit_channel_nonneg kg Hkg) as [pg [Eg Pg]].
  destruct (unit_channel_nonneg kb Hkb) as [pb [Eb Pb]].
  match goal with |- (if ?b then _ else _) s = _ => assert (Hb0 : b = false) end.
  { unfold Color.grayscale, Color.clamp, Color.getNormalizedColor.
    rewrite Sn, Hn, Sr, Sg, Sb, Hr, Hg, Hb, Er, Eg, Eb.
    cbn [negb Color.r Color.g Color.b Color.a Color.normalized Color.transparent].
    unfold ngt. rewrite !nlt_ofZ. cbn [Z.ltb Z.compare].
    unfold nmul, nadd, lift2, ofZ, ofQ. apply nlt_Fin_false. qc2q.
    change (inject_Z 0) with 0%Q. lra. }
  rewrite Hb0. reflexivity.
Qed.

(** X21 on the scene [sceneErosion]. *)
Lemma detectEdges_flat_witness :
  Filters.detectEdges 0 1 sceneErosion = Ret tt sceneErosion.
Proof.
  apply (detectEdges_flat sceneErosion 0 1
           (MinimalView.mk 3 3 [[9; 9; 9]; [9; 9; 9]; [9; 9; 9]]%nat None) 255 255 255);
    [reflexivity | lia | lia | lia |].
  intros x y Hx Hy. cbn [MinimalView.width MinimalView.height] in Hx, Hy.
  exists (rgba 255 255 255 1).
  assert (Ex : x = 0 \/ x = 1 \/ x = 2) by lia.
  assert (Ey : y = 0 \/ y = 1 \/ y = 2) by lia.
  destruct Ex as [-> | [-> | ->]], Ey as [-> | [-> | ->]];
    repeat split; vm_compute; reflexivity.
Defined.

(** ** The constructor of MinimalView *)

Lemma newRow_run (n : nat) (t : Store) :
  newRow n t
  = Ret (seq (length (heap t)) n)
        (mkStore (heap t ++ replicate n (Color.new (ofZ 0) (ofZ 0) (ofZ 0) (ofZ 0))) (views t)).
Proof.
  revert t. induction n as [|n IH]; intros t.
  - cbn. rewrite app_nil_r. now destruct t.
  - cbn [newRow]. unfold bind at 1. unfold alloc at 1. unfold bind at 1.
    rewrite IH. cbn [heap views ret]. unfold ret.
    rewrite length_app, Nat.add_1_r, <- app_assoc. reflexivity.
Qed.

Lemma newRows_run (n : nat) (w : Z) (t : Store) :
  newRows n w t
  = Ret (rowsFrom (length (heap t)) n (Z.to_nat w))
        (mkStore (heap t ++ replicate (n * Z.to_nat w)
                               (Color.new (ofZ 0) (ofZ 0) (ofZ 0) (ofZ 0))) (views t)).
Proof.
  revert t. induction n as [|n IH]; intros t.
  - cbn. rewrite app_nil_r. now destruct t.
  - cbn [newRows]. unfold bind at 1. rewrite newRow_run. unfold bind at 1.
    rewrite IH. cbn [heap views rowsFrom]. unfold ret.
    rewrite length_app, length_replicate, <- app_assoc, <- replicate_add. reflexivity.
Qed.

Lemma rowsFrom_length (start n wn : nat) : length (rowsFrom start n wn) = n.
Proof. revert start. induction n; intros; cbn; auto. Qed.

Lemma rowsFrom_lookup (start n wn j : nat) : (j < n)%nat ->
  rowsFrom start n wn !! j = Some (seq (start + j * wn) wn).
Proof.
  revert start j. induction n as [|n IH]; intros start j Hj; [lia|].
  destruct j as [|j]; cbn [rowsFrom lookup list_lookup].
  - now rewrite Nat.add_0_r.
  - change (rowsFrom (start + wn) n wn !! j = Some (seq (start + S j * wn) wn)).
    rewrite IH by lia. do 2 f_equal. lia.
Qed.

Lemma rowsFrom_get (start : nat) (w h x y : Z) :
  rows_get (rowsFrom start (Z.to_nat h) (Z.to_nat w)) x y
  = if bool_decide (0 <= x < w /\ 0 <= y < h)
    then Some (start + Z.to_nat y * Z.to_nat w + Z.to_nat x)%nat else None.
Proof.
  unfold rows_get. rewrite rowsFrom_length, !Z.gtb_ltb, Z.geb_leb.
  destruct (Z.ltb_spec x 0); [rewrite bool_decide_eq_false_2; [reflexivity|lia]|].
  destruct (Z.ltb_spec y 0); [rewrite bool_decide_eq_false_2; [reflexivity|lia]|].
  destruct (Z.leb_spec (Z.of_nat (Z.to_nat h)) y);
    [rewrite bool_decide_eq_false_2; [reflexivity|lia]|].
  cbn [orb]. rewrite rowsFrom_lookup by lia. rewrite length_seq, Z.geb_leb.
  destruct (Z.leb_spec (Z.of_nat (Z.to_nat w)) x);
    [rewrite bool_decide_eq_false_2; [reflexivity|lia]|].
  rewrite bool_decide_eq_true_2 by lia.
  rewrite lookup_seq_lt by lia. do 2 f_equal.
Qed.

Lemma cell_index_inj (w h x y x' y' : Z) :
  0 <= x < w -> 0 <= y < h -> 0 <= x' < w -> 0 <= y' < h ->
  (Z.to_nat y * Z.to_nat w + Z.to_nat x = Z.to_nat y' * Z.to_nat w + Z.to_nat x')%nat ->
  x = x' /\ y = y'.
Proof.
  intros Hx Hy Hx' Hy' E.
  assert (Ez : y * w + x = y' * w + x') by nia.
  assert (y = y'); [|split; [nia|assumption]].
  destruct (Z.lt_trichotomy y y') as [Hlt | [Heq | Hgt]]; [|assumption|].
  - assert (y' * w >= (y + 1) * w) by nia. nia.
  - assert (y * w >= (y' + 1) * w) by nia. nia.
Qed.

(** X22.  [new MinimalView(w, h)] creates a view of width [w] and height [h]
    whose cells are exactly the coordinates [0 <= x < w], [0 <= y < h].  Every
    cell refers to a new colour object (0, 0, 0, 0), no two cells refer to the
    same object, and the views and colour objects that existed are unchanged;
    a store in which every cell refers to an object stays so. *)
Theorem newMinimalView_fresh (s : Store) (w h : Z) :
  exists s',
    newMinimalView w h s = Ret (length (views s)) s'
    /\ heap_ext s s'
    /\ (forall u vw, views s !! u = Some vw -> views s' !! u = Some vw)
    /\ dims s' (length (views s)) = Some (w, h)
    /\ (forall x y, 0 <= x < w -> 0 <= y < h ->
          freshPixel s s' (length (views s)) x y (Color.new (ofZ 0) (ofZ 0) (ofZ 0) (ofZ 0)))
    /\ (forall x y x' y', 0 <= x < w -> 0 <= y < h -> 0 <= x' < w -> 0 <= y' < h ->
          cell s' (length (views s)) x y = cell s' (length (views s)) x' y' ->
          x = x' /\ y = y')
    /\ (forall x y, ~ (0 <= x < w /\ 0 <= y < h) -> cell s' (length (views s)) x y = None)
    /\ (sound s -> sound s').
Proof.
  unfold newMinimalView, bind. rewrite newRows_run. unfold get, put, ret. cbn [heap views].
  set (black := Color.new (ofZ 0) (ofZ 0) (ofZ 0) (ofZ 0)).
  set (s' := mkStore _ _). exists s'. split; [reflexivity|].
  assert (Hv : views s' !! length (views s)
               = Some (MinimalView.mk w h (rowsFrom (length (heap s)) (Z.to_nat h) (Z.to_nat w))
                         None)).
  { unfold s'. cbn [views]. rewrite lookup_app_r by lia. now rewrite Nat.sub_diag. }
  assert (Hc : forall x y, cell s' (length (views s)) x y
               = if bool_decide (0 <= x < w /\ 0 <= y < h)
                 then Some (length (heap s) + Z.to_nat y * Z.to_nat w + Z.to_nat x)%nat
                 else None).
  { intros x y. unfold cell. rewrite Hv. cbn [MinimalView.colors]. apply rowsFrom_get. }
  assert (Hold : forall u vw, views s !! u = Some vw -> views s' !! u = Some vw).
  { intros u vw Hu. unfold s'. cbn [views]. now apply lookup_app_l_Some. }
  assert (Hext : heap_ext s s').
  { intros l c Hl. unfold s'. cbn [heap]. now apply lookup_app_l_Some. }
  assert (Hnew : forall x y, 0 <= x < w -> 0 <= y < h ->
            heap s' !! (length (heap s) + Z.to_nat y * Z.to_nat w + Z.to_nat x)%nat
            = Some black).
  { intros x y Hx Hy. unfold s'. cbn [heap]. rewrite lookup_app_r by lia.
    apply lookup_replicate_2. nia. }
  repeat split.
  - exact Hext.
  - exact Hold.
  - unfold dims. now rewrite Hv.
  - intros x y Hx Hy. eexists. rewrite Hc, bool_decide_eq_true_2 by lia.
    split; [reflexivity|]. split; [apply lookup_ge_None_2; lia|]. now apply Hnew.
  - rewrite !Hc in H3. rewrite !bool_decide_eq_true_2 in H3 by lia.
    injection H3 as E. destruct (cell_index_inj w h x y x' y'); auto; lia.
  - rewrite !Hc in H3. rewrite !bool_decide_eq_true_2 in H3 by lia.
    injection H3 as E. destruct (cell_index_inj w h x y x' y'); auto; lia.
  - intros x y Hxy. rewrite Hc. now rewrite bool_decide_eq_false_2.
  - intros Hs v x y l Hl.
    destruct (decide (v = length (views s))) as [->|Hne].
    + rewrite Hc in Hl. destruct (bool_decide_reflect (0 <= x < w /\ 0 <= y < h)) as [Hin|];
        [|discriminate].
      injection Hl as <-. rewrite Hnew by lia. eauto.
    + assert (E : cell s' v x y = cell s v x y).
      { unfold cell, s'. cbn [views].
        destruct (views s !! v) as [vw|] eqn:Ev.
        - now rewrite (lookup_app_l_Some _ _ _ _ Ev).
        - apply lookup_ge_None in Ev. rewrite lookup_ge_None_2; [reflexivity|].
          rewrite length_app. cbn. lia. }
      rewrite E in Hl. destruct (Hs v x y l Hl) as [c Hc']. exists c. now apply Hext.
Qed.

(** ** bilinearInterpolatePixel outside the view *)

Lemma Qc_round_le_ceil (q : Qc) : Qc_round q <= Qc_ceil q.
Proof.
  unfold Qc_round, Qc_ceil. rewrite <- (Qfloor_half (Qceiling (this q))).
  apply Qfloor_resp_le. assert (H := Qle_ceiling (this q)). lra.
Qed.

Lemma getColorAt_ret (t : Store) (v : nat) (a b : num) :
  is_Some (views t !! v) -> exists o, getColorAt v a b t = Ret o t.
Proof.
  intros Hv. unfold getColorAt.
  destruct (toZ a) as [x|]; [destruct (toZ b) as [y|]|]; eauto.
  eexists. now apply getColor_cell.
Qed.

Lemma getColorAt_none (t : Store) (v : nat) (a b : num) :
  is_Some (views t !! v) ->
  (forall x y, toZ a = Some x -> toZ b = Some y -> cell t v x y = None) ->
  getColorAt v a b t = Ret None t.
Proof.
  intros Hv H. unfold getColorAt.
  destruct (toZ a) as [x|]; [destruct (toZ b) as [y|]|]; auto.
  rewrite (getColor_cell _ _ _ _ Hv). now rewrite H.
Qed.

(** X23.  On a view that has no cell outside its width and height,
    [bilinearInterpolatePixel] at coordinates that are numbers returns [null]
    and changes nothing whenever the coordinates do not round ([Math.round])
    to a cell of the view.  This includes the coordinates that round to the
    width or to the height, which pass its range check. *)
Theorem bilinearInterpolatePixel_outside (s : Store) (v : nat) (vw : MinimalView.t)
    (qx qy : Qc) :
  views s !! v = Some vw ->
  (forall x y, ~ (0 <= x < MinimalView.width vw /\ 0 <= y < MinimalView.height vw) ->
     cell s v x y = None) ->
  ~ (0 <= Qc_round qx < MinimalView.width vw /\ 0 <= Qc_round qy < MinimalView.height vw) ->
  Filters.bilinearInterpolatePixel v (Fin qx) (Fin qy) s = Ret None s.
Proof.
  intros Hvw Hwf Hout. assert (Hv : is_Some (views s !! v)) by eauto.
  set (fx := Fin qx). set (fy := Fin qy).
  unfold Filters.bilinearInterpolatePixel. cbv zeta.
  destruct (ngt (ofZ 0) (Math_round fx)) eqn:G1; [reflexivity|].
  destruct (ngt (ofZ 0) (Math_round fy)) eqn:G2; [reflexivity|].
  rewrite (bind_Ret _ _ _ _ _ (getWidth_eq _ _ _ Hvw)).
  destruct (nlt (ofZ (MinimalView.width vw)) (Math_round fx)) eqn:G3; [reflexivity|].
  rewrite (bind_Ret _ _ _ _ _ (getHeight_eq _ _ _ Hvw)).
  destruct (nlt (ofZ (MinimalView.height vw)) (Math_round fy)) eqn:G4; [reflexivity|].
  assert (Hback : getColorAt v (Math_round fx) (Math_round fy) s = Ret None s).
  { apply getColorAt_none; [exact Hv|]. intros x y Ex Ey. apply Hwf. intros [Hx Hy].
    apply Hout. unfold fx, fy in Ex, Ey.
    cbn [Math_round] in Ex, Ey. rewrite toZ_ofZ in Ex, Ey.
    injection Ex as <-. injection Ey as <-. auto. }
  assert (Hone : getColorAt v (Math_floor fx) (Math_ceil fy) s = Ret None s
                 \/ getColorAt v (Math_ceil fx) (Math_floor fy) s = Ret None s).
  { unfold fx, fy in *. cbn [Math_round Math_floor Math_ceil] in *.
    unfold ngt in G1, G2. rewrite nlt_ofZ in G1, G2, G3, G4.
    apply Z.ltb_ge in G1, G2, G3, G4.
    assert (Cx := Qc_round_le_ceil qx). assert (Cy := Qc_round_le_ceil qy).
    destruct (Z.eq_dec (Qc_round qx) (MinimalView.width vw)) as [Ex|Nx].
    - right. apply getColorAt_none; [exact Hv|]. intros x y Hx Hy.
      rewrite toZ_ofZ in Hx, Hy. injection Hx as <-. injection Hy as <-.
      apply Hwf. lia.
    - left. apply getColorAt_none; [exact Hv|]. intros x y Hx Hy.
      rewrite toZ_ofZ in Hx, Hy. injection Hx as <-. injection Hy as <-.
      apply Hwf. intros [Hx Hy]. apply Hout. lia. }
  destruct (getColorAt_ret s v (Math_floor fx) (Math_floor fy) Hv) as [o1 E1].
  destruct (getColorAt_ret s v (Math_floor fx) (Math_ceil fy) Hv) as [o2 E2].
  destruct (getColorAt_ret s v (Math_ceil fx) (Math_floor fy) Hv) as [o3 E3].
  destruct (getColorAt_ret s v (Math_ceil fx) (Math_ceil fy) Hv) as [o4 E4].
  rewrite (bind_Ret _ _ _ _ _ E1), (bind_Ret _ _ _ _ _ E2),
          (bind_Ret _ _ _ _ _ E3), (bind_Ret _ _ _ _ _ E4).
  destruct Hone as [H|H]; rewrite H in *.
  - injection E2 as <-. destruct o1, o3, o4; exact Hback.
  - injection E3 as <-. destruct o1, o2, o4; exact Hback.
Qed.

(** X23 on the scene [scenePoint]. *)
Lemma bilinearInterpolatePixel_outside_witness :
  Filters.bilinearInterpolatePixel 0 (ofQ (3 # 5)) (ofZ 0) scenePoint = Ret None scenePoint
  /\ pixel scenePoint 0 0 0 = Some (rgba 10 20 30 1).
Proof.
  split; [|reflexivity].
  apply (bilinearInterpolatePixel_outside scenePoint 0 (MinimalView.mk 1 1 [[1%nat]] None));
    [reflexivity | |].
  - intros x y Hxy. cbn [MinimalView.width MinimalView.height] in Hxy.
    unfold cell. change (views scenePoint !! 0%nat)
      with (Some (MinimalView.mk 1 1 [[1%nat]] None)).
    cbn [MinimalView.colors]. unfold rows_get. rewrite !Z.gtb_ltb, !Z.geb_leb.
    destruct (Z.ltb_spec x 0); [reflexivity|].
    destruct (Z.ltb_spec y 0); [reflexivity|].
    cbn [length orb]. destruct (Z.leb_spec (Z.of_nat 1) y); [reflexivity|].
    replace y with 0 by lia. change ([[1%nat]] !! Z.to_nat 0) with (Some [1%nat]).
    cbn [length]. rewrite Z.geb_leb.
    destruct (Z.leb_spec (Z.of_nat 1) x); [reflexivity|]. lia.
  - intros [Hx _]. cbn [MinimalView.width MinimalView.height] in Hx.
    vm_compute in Hx. destruct Hx as [_ Hx]. discriminate.
Defined.

(** ** imageFromString on a string of another size *)

Lemma rowMajor_length_nat (s : Store) (v : nat) (w h : Z) :
  length (rowMajor s v w h) = (Z.to_nat w * Z.to_nat h)%nat.
Proof.
  unfold rowMajor.
  assert (H : forall (n : nat) y0,
    length (concat (map (fun y => map (fun x => colorAt s v x y) (seqZ 0 w))
                        (seqZ y0 (Z.of_nat n)))) = (Z.to_nat w * n)%nat).
  { induction n as [|n IH]; intros y0; [simpl; lia|].
    rewrite (seqZ_cons y0) by lia. cbn [map concat].
    replace (Z.pred (Z.of_nat (S n))) with (Z.of_nat n) by lia.
    rewrite length_app, length_map, length_seqZ, IH. lia. }
  destruct (Z.le_gt_cases 0 h) as [Hh|Hh].
  - specialize (H (Z.to_nat h) 0). rewrite Z2Nat.id in H by lia. exact H.
  - rewrite (seqZ_nil 0 h) by lia. rewrite (Z2Nat.nonpos h) by lia. simpl. lia.
Qed.

(** The number [parseInt] reads from a printed size: the size, or what stands
    before the point or the exponent of a size from 1e21 up. *)
Lemma parseInt_size (n : Z) :
  exists k : Z, parseInt (numToString (ofZ n)) = ofZ k
                /\ (Z.abs n < 10 ^ 21 -> k = n)
                /\ (10 ^ 21 <= Z.abs n -> -9 <= k <= 9).
Proof.
  destruct (Z.lt_ge_cases (Z.abs n) (10 ^ 21)) as [Hs|Hb].
  - exists n. split; [now apply parseInt_numToString|]. split; [reflexivity|lia].
  - destruct (parseInt_numToString_big n Hb) as [k [Hk E]].
    exists k. split; [exact E|]. split; [lia|auto].
Qed.

(** X24.  The string [imageToString] writes for a view without absent pixels
    is ignored by [imageFromString] on a view of another width or another
    height, and on every view when the written image has width 0 or height 0:
    the call returns and nothing is changed. *)
Theorem imageFromString_other_size (s : Store) (src tgt : nat) (vs vt : MinimalView.t) :
  views s !! src = Some vs ->
  views s !! tgt = Some vt ->
  (forall x y, 0 <= x < MinimalView.width vs -> 0 <= y < MinimalView.height vs ->
     is_Some (pixel s src x y)) ->
  MinimalView.width vt <> MinimalView.width vs
  \/ MinimalView.height vt <> MinimalView.height vs
  \/ MinimalView.width vs = 0 \/ MinimalView.height vs = 0 ->
  exists str, imageToString src s = Ret str s /\ imageFromString tgt str s = Ret tt s.
Proof.
  intros Hsrc Htgt Hfull Hne.
  set (w := MinimalView.width vs) in *. set (h := MinimalView.height vs) in *.
  set (cs := rowMajor s src w h).
  exists (payload w h cs). split; [now apply imageToString_payload|].
  pose proof (split_payload w h cs) as Hsplit.
  unfold imageFromString.
  destruct (String.eqb_spec (payload w h cs) EmptyString) as [E|_].
  { rewrite E in Hsplit. discriminate. }
  assert (Hl : length (split ";" (payload w h cs)) = S (S (S (length cs)))).
  { rewrite Hsplit. cbn [length]. rewrite length_app, length_map. simpl. lia. }
  rewrite Hl. cbn [Nat.ltb Nat.leb].
  rewrite Hsplit. cbn [nth]. rewrite <- Hsplit.
  destruct (parseInt_size w) as [W [EW [Wsmall Wbig]]].
  destruct (parseInt_size h) as [H [EH [Hsmall Hbig]]].
  rewrite EW, EH.
  rewrite (bind_Ret _ _ _ _ _ (getWidth_eq _ _ _ Htgt)).
  rewrite (bind_Ret _ _ _ _ _ (getHeight_eq _ _ _ Htgt)).
  rewrite !truthy_ofZ, !num_eqb_ofZ.
  destruct (Z.eqb_spec W 0); [reflexivity|].
  destruct (Z.eqb_spec H 0); [reflexivity|].
  destruct (Z.eqb_spec W (MinimalView.width vt)); [|reflexivity].
  destruct (Z.eqb_spec H (MinimalView.height vt)); [|reflexivity].
  cbn [negb orb].
  rewrite nmul_ofZ, nadd_ofZ, num_eqb_ofZ.
  destruct (Z.eqb_spec (Z.of_nat (S (S (S (length cs))))) (W * H + 3)) as [Elen|];
    [|reflexivity].
  exfalso. unfold cs in Elen. rewrite rowMajor_length_nat in Elen.
  assert (Eprod : Z.of_nat (Z.to_nat w) * Z.of_nat (Z.to_nat h) = W * H) by lia.
  clear Elen.
  destruct (Z.lt_ge_cases (Z.abs w) (10 ^ 21)) as [Hw|Hw];
    destruct (Z.lt_ge_cases (Z.abs h) (10 ^ 21)) as [Hh|Hh].
  - specialize (Wsmall Hw). specialize (Hsmall Hh). lia.
  - specialize (Wsmall Hw). specialize (Hbig Hh). subst W.
    destruct (Z.le_gt_cases h 0) as [Hn|Hp].
    + rewrite (Z2Nat.nonpos h) in Eprod by lia. nia.
    + destruct (Z.le_gt_cases w 0) as [Hwn|Hwp].
      * rewrite (Z2Nat.nonpos w) in Eprod by lia. nia.
      * rewrite !Z2Nat.id in Eprod by lia. nia.
  - specialize (Wbig Hw). specialize (Hsmall Hh). subst H.
    destruct (Z.le_gt_cases w 0) as [Hn|Hp].
    + rewrite (Z2Nat.nonpos w) in Eprod by lia. nia.
    + destruct (Z.le_gt_cases h 0) as [Hhn|Hhp].
      * rewrite (Z2Nat.nonpos h) in Eprod by lia. nia.
      * rewrite !Z2Nat.id in Eprod by lia. nia.
  - specialize (Wbig Hw). specialize (Hbig Hh).
    destruct (Z.le_gt_cases w 0) as [Hn|Hp].
    + rewrite (Z2Nat.nonpos w) in Eprod by lia. nia.
    + destruct (Z.le_gt_cases h 0) as [Hhn|Hhp].
      * rewrite (Z2Nat.nonpos h) in Eprod by lia. nia.
      * rewrite !Z2Nat.id in Eprod by lia.
        assert (10 ^ 21 * 10 ^ 21 <= w * h) by (apply Z.mul_le_mono_nonneg; lia).
        assert (W * H <= 81) by nia. lia.
Qed.

(** X24 on the scene [sceneTranslate]. *)
Lemma imageFromString_other_size_witness :
  exists str, imageToString 0 sceneTranslate = Ret str sceneTranslate
              /\ imageFromString 1 str sceneTranslate = Ret tt sceneTranslate.
Proof.
  apply (imageFromString_other_size sceneTranslate 0 1
           (MinimalView.mk 1 1 [[1%nat]] None)
           (MinimalView.mk 2 1 [[4%nat; 5%nat]] None)); [reflexivity | reflexivity | |].
  - intros x y Hx Hy. cbn [MinimalView.width MinimalView.height] in Hx, Hy.
    replace x with 0 by lia. replace y with 0 by lia. vm_compute. eauto.
  - left. cbn. lia.
Defined.

(** ** erosion on a surface of any size *)



Lemma written_twice (old : option loc) (l l' : loc) :
  written (written old (Some l)) (Some l') = written old (Some l').
Proof. now destruct old. Qed.

Section Erode.

Variables (s : Store) (src dst : nat) (vs : MinimalView.t) (le ln lr : loc) (ce : Color.t).
Variables (thr tol : num).
Hypothesis Hv : views s !! src = Some vs.
Hypothesis Hdst : is_Some (views s !! dst).
Hypothesis Hne : src <> dst.
Hypothesis Hfull : forall x y,
  0 <= x < MinimalView.width vs -> 0 <= y < MinimalView.height vs ->
  is_Some (pixel s src x y).
Hypothesis Hle : heap s !! le = Some ce.
Hypothesis Hln : is_Some (heap s !! ln).


End Erode.




